(** * A shallow embedding of the MIDI carver (src/forensics/midi/carver.c)

    The carver walks a binary blob once, looking for the chunk tags [MThd]
    and [MTrk], rebuilds MIDI files from what it finds and writes them out.

    Conventions of the embedding.
    - The input blob is a [list byte]; positions are mathematical integers.
      The C code never checks a position against the extent of the blob, so a
      read outside it is undefined behaviour there; here such a read ends the
      run with [Crash (OutOfBounds p)], where [p] is the offending position.
    - [unsigned int], [unsigned short] and [unsigned char] arithmetic wraps
      ([u32], [u16], [to_byte]); the [long] counters [i] and [j] are kept as
      unbounded integers: they grow by less than 2^32 per track and there are
      at most 65535 tracks per structure, far below 2^63.
    - [long] and [unsigned long] are taken as 64 bits wide.  Where a result
      depends on a consumed length fitting 32 bits, it is stated for buffers
      below 2^32 bytes, where it holds whatever the width of [long].
    - A field of a freshly allocated struct that no branch assigns is
      [None].  The flag [extratrunc] is an [unsigned char]: reading it
      unassigned is no undefined behaviour, it yields whatever [malloc]
      left in the block, and the run goes on; what it yields is a
      parameter ([garbage], [heap]) of the development.  The pointer
      [data] is passed to [fwrite] and [free]: using it unassigned is
      undefined behaviour and ends the run with [Crash UninitRead].
    - The linked list of tracks hanging off a header is a [list mtrk] in
      insertion order.
    - A file name is the pair (offset, status) that [sprintf] formats into
      [mc-<offset>-<status>.mid]; whether [fopen] succeeds on it is a
      parameter [can_open] of the development. *)

From Stdlib Require Import String.
From Stdlib Require Import ZArith List Bool Lia.
From Stdlib Require Import Sorting.Sorted.
From Stdlib Require Import Strings.Byte.
Import ListNotations.
Local Open Scope Z_scope.

(** ** Outcomes of a run *)

Inductive fault : Type :=
| OutOfBounds (p : Z)
| UninitRead
| NullDeref
| HeapOverread.

Inductive outcome (A : Type) : Type :=
| Done (a : A)
| Crash (f : fault)
| Timeout.

Arguments Done {A} a.
Arguments Crash {A} f.
Arguments Timeout {A}.

Definition bind {A B : Type} (m : outcome A) (k : A -> outcome B) : outcome B :=
  match m with
  | Done a => k a
  | Crash f => Crash f
  | Timeout => Timeout
  end.

Notation "x <- m ;; k" := (bind m (fun x => k))
  (at level 61, m at next level, right associativity).

(** ** Machine integers and bytes *)

Definition u16 (z : Z) : Z := z mod 65536.
Definition u32 (z : Z) : Z := z mod 4294967296.
Definition u64 (z : Z) : Z := z mod 18446744073709551616.

Definition byte_val (b : byte) : Z := Z.of_N (Byte.to_N b).

Definition to_byte (z : Z) : byte :=
  match Byte.of_N (Z.to_N (z mod 256)) with
  | Some b => b
  | None => x00
  end.

Definition bytes_eqb (a b : list byte) : bool :=
  if list_eq_dec Byte.byte_eq_dec a b then true else false.

(** ** The input buffer *)

Definition buffer := list byte.

Definition filesize (buf : buffer) : Z := Z.of_nat (length buf).

(** [buffer[p]] *)
Definition rd (buf : buffer) (p : Z) : outcome byte :=
  if p <? 0 then Crash (OutOfBounds p)
  else match nth_error buf (Z.to_nat p) with
       | Some b => Done b
       | None => Crash (OutOfBounds p)
       end.

(** The [n] bytes at [&buffer[p]], as [memcpy] and [memcmp] read them. *)
Definition rd_n (buf : buffer) (p n : Z) : outcome (list byte) :=
  if n <=? 0 then Done []
  else if p <? 0 then Crash (OutOfBounds p)
  else if p + n <=? filesize buf
       then Done (firstn (Z.to_nat n) (skipn (Z.to_nat p) buf))
       else Crash (OutOfBounds (Z.max p (filesize buf))).

(** [strncmp(&buffer[p], tag, 4) == 0] for a tag without NUL bytes: the
    comparison stops at the first byte that differs. *)
Fixpoint strncmp_eq (buf : buffer) (p : Z) (tag : list byte) : outcome bool :=
  match tag with
  | [] => Done true
  | c :: tag' =>
      b <- rd buf p ;;
      if Byte.eqb b c then strncmp_eq buf (p + 1) tag' else Done false
  end.

(** [memcmp(&buffer[p], pat, n) == 0] with [n] the length of [pat]. *)
Definition memcmp_eq (buf : buffer) (p : Z) (pat : list byte) : outcome bool :=
  bs <- rd_n buf p (Z.of_nat (length pat)) ;;
  Done (bytes_eqb bs pat).

Definition MThd : list byte := [x4d; x54; x68; x64].
Definition MTrk : list byte := [x4d; x54; x72; x6b].

Definition end_of_track : list byte := [x00; xff; x2f; x00].

(** ** Data model *)

Record mtrk : Type := {
  size : Z;
  extratrunc : option bool;
  data : option (list byte)
}.

Record mthd : Type := {
  miditype : Z;
  numtracks : Z;
  timecode : Z;
  is_damaged : bool;
  is_generated : bool;
  track0 : list mtrk
}.

Inductive status : Type := OK | BAD | ORPH.

Record filename : Type := { fn_offset : Z; fn_status : status }.

Record file : Type := { f_name : filename; f_bytes : list byte }.

Record write_result : Type := {
  wr_ret : Z;
  wr_log : string;
  wr_file : option file
}.

(** ** write_mtrk *)

(** The four bytes [buffer[0..3]] computed from [track->size]. *)
Definition size_buffer (sz : Z) : list byte :=
  [ to_byte (sz / 1677216);
    to_byte ((sz mod 1677216) / 65536);
    to_byte ((sz mod 65536) / 256);
    to_byte (sz mod 256) ].

Fixpoint write_mtrk (tracks : list mtrk) : outcome (list byte) :=
  match tracks with
  | [] => Done []
  | t :: next =>
      match data t with
      | None => Crash UninitRead
      | Some d =>
          if Z.of_nat (length d) <? size t then Crash HeapOverread
          else
            rest <- write_mtrk next ;;
            Done (MTrk ++ size_buffer (size t)
                       ++ firstn (Z.to_nat (size t)) d ++ rest)
      end
  end.

(** ** extract_mthd *)

Definition extract_mthd (buf : buffer) (p : Z) : outcome (option mthd) :=
  t <- strncmp_eq buf p MThd ;;
  if negb t then Done None
  else
    b4 <- rd buf (p + 4) ;;
    b5 <- rd buf (p + 5) ;;
    b6 <- rd buf (p + 6) ;;
    b7 <- rd buf (p + 7) ;;
    b8 <- rd buf (p + 8) ;;
    b9 <- rd buf (p + 9) ;;
    let ty := u16 (byte_val b8 * 256 + byte_val b9) in
    b10 <- rd buf (p + 10) ;;
    b11 <- rd buf (p + 11) ;;
    let nt := u16 (byte_val b10 * 256 + byte_val b11) in
    let ty' := if (ty =? 0) && negb (nt =? 1) then 1 else ty in
    b12 <- rd buf (p + 12) ;;
    b13 <- rd buf (p + 13) ;;
    Done (Some {| miditype := ty';
                  numtracks := nt;
                  timecode := u16 (byte_val b12 * 256 + byte_val b13);
                  is_damaged := false;
                  is_generated := false;
                  track0 := [] |}).

(** ** extract_mtrk *)

(** The declared length, [buffer[4..7]] big-endian. *)
Definition declared_size (buf : buffer) (p : Z) : outcome Z :=
  b4 <- rd buf (p + 4) ;;
  b5 <- rd buf (p + 5) ;;
  b6 <- rd buf (p + 6) ;;
  b7 <- rd buf (p + 7) ;;
  Done (u32 (byte_val b4 * 16777216 + byte_val b5 * 65536
             + byte_val b6 * 256 + byte_val b7)).

(** [for (ptr = size+4; ptr > 8; ptr--)], looking for [MThd] at
    [&buffer[ptr]].  The loop runs [ptr - 8] times at most, which is the
    counter [n]; the result is the flag "left by [break]" and the final
    value of [ptr]. *)
Fixpoint backtrack (buf : buffer) (p : Z) (n : nat) (ptr : Z)
  : outcome (bool * Z) :=
  match n with
  | O => Done (false, ptr)
  | S n' =>
      h <- strncmp_eq buf (p + ptr) MThd ;;
      if h then Done (true, ptr) else backtrack buf p n' (ptr - 1)
  end.

(** The two [printf] calls of the recovery branch print bytes that the
    first [memcmp] has already read; they add no read of their own. *)
Definition extract_mtrk (buf : buffer) (p : Z) : outcome (option mtrk) :=
  t <- strncmp_eq buf p MTrk ;;
  if negb t then Done None
  else
    sz <- declared_size buf p ;;
    e4 <- memcmp_eq buf (p + u32 (sz + 4)) end_of_track ;;
    if e4 then
      d <- rd_n buf (p + 8) sz ;;
      Done (Some {| size := sz; extratrunc := Some false; data := Some d |})
    else
      e3 <- memcmp_eq buf (p + u32 (sz + 5)) (tl end_of_track) ;;
      if e3 then
        d <- rd_n buf (p + 8) sz ;;
        Done (Some {| size := sz; extratrunc := Some false; data := Some d |})
      else
        let ptr0 := u32 (sz + 4) in
        r <- backtrack buf p (Z.to_nat (ptr0 - 8)) ptr0 ;;
        let '(found, ptr) := r in
        if found then
          d <- rd_n buf (p + 8) ptr ;;
          Done (Some {| size := u32 (u32 (ptr - 8) + 4);
                        extratrunc := Some true;
                        data := Some (d ++ end_of_track) |})
        else if ptr =? 8 then
          d <- rd_n buf (p + 8) sz ;;
          Done (Some {| size := u32 (sz + 4);
                        extratrunc := Some true;
                        data := Some (d ++ end_of_track) |})
        else
          Done (Some {| size := sz; extratrunc := None; data := None |}).

(** The value of [newtrack->extratrunc] as the caller reads it: the flag
    when a branch has assigned it, else what the allocated block happened
    to hold ([stale]: that byte is not zero). *)
Definition flag_read (stale : bool) (t : mtrk) : bool :=
  match extratrunc t with
  | Some e => e
  | None => stale
  end.

(** What the caller adds to its offset for an extracted track:
    [i += size + 8; if (extratrunc) i -= 4]. *)
Definition mtrk_advance (stale : bool) (t : mtrk) : Z :=
  if flag_read stale t then u32 (size t + 8) - 4 else u32 (size t + 8).

(** ** smart_extract *)

Record sx_state : Type := {
  sx_i : Z;
  sx_curtrack : Z;
  sx_midi : mthd
}.

Definition set_truncated (m : mthd) (cur : Z) : mthd :=
  {| miditype := miditype m; numtracks := cur; timecode := timecode m;
     is_damaged := true; is_generated := is_generated m;
     track0 := track0 m |}.

Definition set_damaged (m : mthd) : mthd :=
  {| miditype := miditype m; numtracks := numtracks m;
     timecode := timecode m;
     is_damaged := true; is_generated := is_generated m;
     track0 := track0 m |}.

Definition add_track (m : mthd) (t : mtrk) : mthd :=
  {| miditype := miditype m; numtracks := numtracks m;
     timecode := timecode m;
     is_damaged := is_damaged m; is_generated := is_generated m;
     track0 := track0 m ++ [t] |}.

(** [for (j=1; j<eof_point && j<max_distance && no MThd at i+j; j++)],
    with [pos] the position of [buffer[i]]; [n] counts the values of [j]
    still below both bounds.  [Some j] is the [break] on a track tag. *)
Fixpoint recovery_search (buf : buffer) (pos : Z) (n : nat) (j : Z)
  : outcome (option Z) :=
  match n with
  | O => Done None
  | S n' =>
      h <- strncmp_eq buf (pos + j) MThd ;;
      if h then Done None
      else
        t <- strncmp_eq buf (pos + j) MTrk ;;
        if t then Done (Some j) else recovery_search buf pos n' (j + 1)
  end.

(** One pass through the body of [while (in_mthd)]; the boolean is the
    value of [in_mthd] afterwards.  [garbage k] says whether the flag byte
    of the block that [malloc] returns for track number [k] is found
    nonzero; it matters only for a track whose flag is never assigned. *)
Definition smart_body (garbage : Z -> bool) (buf : buffer)
    (base eof_point max_distance : Z) (st : sx_state)
  : outcome (bool * sx_state) :=
  let i := sx_i st in
  let cur := sx_curtrack st in
  let midi := sx_midi st in
  h <- strncmp_eq buf (base + i) MThd ;;
  if h then
    Done (false, {| sx_i := i; sx_curtrack := cur;
                    sx_midi := set_truncated midi cur |})
  else
    t <- strncmp_eq buf (base + i) MTrk ;;
    if negb t then
      r <- recovery_search buf (base + i)
             (Z.to_nat (Z.min eof_point max_distance - 1)) 1 ;;
      match r with
      | Some j =>
          Done (true, {| sx_i := i + j; sx_curtrack := cur;
                         sx_midi := set_damaged midi |})
      | None =>
          Done (false, {| sx_i := i; sx_curtrack := cur;
                          sx_midi := set_truncated midi cur |})
      end
    else
      o <- extract_mtrk buf (base + i) ;;
      match o with
      | None => Crash NullDeref
      | Some newtrack =>
          let adv := mtrk_advance (garbage cur) newtrack in
          let cur' := u16 (cur + 1) in
          Done (negb (numtracks midi <=? cur'),
                {| sx_i := i + adv; sx_curtrack := cur';
                   sx_midi := add_track midi newtrack |})
      end.

Fixpoint smart_loop (garbage : Z -> bool) (fuel : nat) (buf : buffer)
    (base eof_point max_distance : Z) (st : sx_state) : outcome sx_state :=
  match fuel with
  | O => Timeout
  | S fuel' =>
      r <- smart_body garbage buf base eof_point max_distance st ;;
      let '(in_mthd, st') := r in
      if in_mthd
      then smart_loop garbage fuel' buf base eof_point max_distance st'
      else Done st'
  end.

(** Enough passes for any header: a pass either ends the loop, extracts a
    track, or resynchronises on a track tag that the next pass extracts. *)
Definition sx_fuel (m : mthd) : nat := S (S (2 * Z.to_nat (numtracks m))).

Definition classify (m : mthd) : status :=
  if is_generated m then ORPH
  else if negb (is_damaged m) then OK
  else BAD.

Section Carver.

(** Whether [fopen(filename, "wb")] succeeds. *)
Variable can_open : filename -> bool.

(** ** write_midi *)

Definition write_midi (midi : mthd) (name : filename)
  : outcome write_result :=
  match track0 midi with
  | [] =>
      Done {| wr_ret := 1;
              wr_log := " Refusing to write trackless MIDI file."%string;
              wr_file := None |}
  | _ :: _ =>
      if negb (can_open name) then
        Done {| wr_ret := 1;
                wr_log := " ERROR: could not open file for writing!!"%string;
                wr_file := None |}
      else
        tracks <- write_mtrk (track0 midi) ;;
        Done {| wr_ret := 0;
                wr_log := " Success!  Wrote file to disk."%string;
                wr_file :=
                  Some {| f_name := name;
                          f_bytes :=
                            MThd ++ [x00; x00; x00; x06]
                              ++ [ to_byte (miditype midi / 256);
                                   to_byte (miditype midi mod 256);
                                   to_byte (numtracks midi / 256);
                                   to_byte (numtracks midi mod 256);
                                   to_byte (timecode midi / 256);
                                   to_byte (timecode midi mod 256) ]
                              ++ tracks |} |}
  end.

(** [smart_extract(midi, &buffer[base], eof_point, max_distance, offset)]:
    the value returned and what [write_midi] did. *)
Definition smart_extract (garbage : Z -> bool) (midi : mthd) (buf : buffer)
    (base eof_point max_distance offset : Z) : outcome (Z * write_result) :=
  st <- smart_loop garbage (sx_fuel midi) buf base eof_point max_distance
          {| sx_i := 0; sx_curtrack := 0; sx_midi := midi |} ;;
  w <- write_midi (sx_midi st)
         {| fn_offset := offset; fn_status := classify (sx_midi st) |} ;;
  Done (u32 (sx_i st), w).

(** ** main *)

(** [for (j=i; j<filesize-3 && no MThd at j; j++) if (MTrk at j)
    numtracks++]; [n] counts the values of [j] still below [filesize-3]. *)
Fixpoint count_mtrk (buf : buffer) (n : nat) (j : Z) (cnt : Z)
  : outcome Z :=
  match n with
  | O => Done cnt
  | S n' =>
      h <- strncmp_eq buf j MThd ;;
      if h then Done cnt
      else
        t <- strncmp_eq buf j MTrk ;;
        count_mtrk buf n' (j + 1) (if t then u16 (cnt + 1) else cnt)
  end.

Definition files_of (w : write_result) : list file :=
  match wr_file w with
  | Some f => [f]
  | None => []
  end.

Definition orphan_branch (garbage : Z -> bool) (buf : buffer) (i : Z)
  : outcome (Z * list file) :=
  cnt <- count_mtrk buf (Z.to_nat (filesize buf - 3 - i)) i 0 ;;
  let midi := {| miditype := 1; numtracks := cnt; timecode := 120;
                 is_damaged := true; is_generated := true;
                 track0 := [] |} in
  r <- smart_extract garbage midi buf i (u64 (filesize buf - i)) 32768 i ;;
  Done (i + fst r, files_of (snd r)).

Definition header_branch (garbage : Z -> bool) (buf : buffer) (i : Z)
  : outcome (Z * list file) :=
  o <- extract_mthd buf i ;;
  match o with
  | None => Crash NullDeref
  | Some midi =>
      let i14 := i + 14 in
      r <- smart_extract garbage midi buf i14
             (u64 (filesize buf - i14)) 32768 i ;;
      Done (i14 + fst r, files_of (snd r))
  end.

(** One pass through the body of [while (i < filesize)]: the new value of
    [i] and the files written meanwhile. *)
Definition scan_step (garbage : Z -> bool) (buf : buffer) (i : Z)
  : outcome (Z * list file) :=
  t <- strncmp_eq buf i MTrk ;;
  if t then orphan_branch garbage buf i
  else
    h <- strncmp_eq buf i MThd ;;
    if h then header_branch garbage buf i
    else Done (i + 1, []).

Inductive ending : Type :=
| Finished
| Crashed (f : fault)
| OutOfFuel.

(** The scanning loop of [main] from offset [i]: the files written, in
    order, and how the run ended.  Files written before a crash stay
    written.  [heap n] is the garbage met by the pass that is made with
    [n] more passes of fuel left: every pass, and in it every track, may
    find its fresh block in another state. *)
Fixpoint main_loop (heap : nat -> Z -> bool) (fuel : nat) (buf : buffer)
    (i : Z) : list file * ending :=
  if i <? filesize buf then
    match fuel with
    | O => ([], OutOfFuel)
    | S fuel' =>
        match scan_step (heap fuel') buf i with
        | Done (i', fs) =>
            let '(rest, e) := main_loop heap fuel' buf i' in (fs ++ rest, e)
        | Crash f => ([], Crashed f)
        | Timeout => ([], OutOfFuel)
        end
    end
  else ([], Finished).

End Carver.

(** ** Vocabulary of the statements *)

(** Big-endian encoding of a 32-bit value. *)
Definition be32 (z : Z) : list byte :=
  [to_byte (z / 16777216); to_byte (z / 65536); to_byte (z / 256); to_byte z].

Definition be16 (z : Z) : list byte := [to_byte (z / 256); to_byte z].

Definition ends_with (l s : list byte) : Prop := exists p, l = p ++ s.

(** A track chunk as it lies in a file: tag, declared length, payload. *)
Definition chunk (payload : list byte) : list byte :=
  MTrk ++ be32 (Z.of_nat (length payload)) ++ payload.

(** The track the parser stores when it accepts a payload as it is. *)
Definition intact (payload : list byte) : mtrk :=
  {| size := Z.of_nat (length payload);
     extratrunc := Some false;
     data := Some payload |}.

(** The payload carries an end-of-track event at its end: the full
    [00 FF 2F 00] or [FF 2F 00] after some other delta time. *)
Definition terminated (payload : list byte) : Prop :=
  ends_with payload end_of_track \/ ends_with payload (tl end_of_track).


(** A MIDI file as it lies on disk: the 14-byte header chunk, then one
    track chunk per payload. *)
Definition midi_file (ty dv : Z) (payloads : list (list byte)) : list byte :=
  MThd ++ be32 6 ++ be16 ty ++ be16 (Z.of_nat (length payloads)) ++ be16 dv
       ++ concat (map chunk payloads).

(** Well-formed: format and division fit their fields, there is at least
    one track and at most 65535, format 0 has exactly one track, and every
    track ends with an end-of-track event. *)
Definition well_formed_midi (ty dv : Z) (payloads : list (list byte)) : Prop :=
  0 <= ty < 65536 /\ 0 <= dv < 65536 /\
  0 < Z.of_nat (length payloads) < 65536 /\
  (ty = 0 -> length payloads = 1%nat) /\
  Forall terminated payloads.

(** The scan finds no chunk tag at any position from [a] up to, but not
    including, [b]. *)
Definition no_tag_between (buf : buffer) (a b : Z) : Prop :=
  forall q, a <= q < b ->
    strncmp_eq buf q MTrk = Done false /\ strncmp_eq buf q MThd = Done false.

(** Every file name can be opened. *)
Definition always_open (_ : filename) : bool := true.

(** ** Concrete buffers used below *)

(** One header declaring format 1, two tracks, division 96. *)
Definition header_1_2_96 : list byte :=
  MThd ++ [x00; x00; x00; x06; x00; x01; x00; x02; x00; x60].

(** A track chunk declaring 16 bytes of which only 4 are in the buffer. *)
Definition blob_short_track : buffer :=
  MTrk ++ [x00; x00; x00; x10] ++ [x00; x90; x3c; x40].

(** A track chunk declaring 12 bytes, overwritten from its fifth payload
    byte on by a complete one-track MIDI file. *)
Definition blob_overwritten : buffer :=
  MTrk ++ [x00; x00; x00; x0c] ++ [x01; x02; x03; x04]
       ++ midi_file 1 96 [end_of_track].

(** A track chunk declaring 24 bytes whose claimed region holds two
    header tags: a bare header at 10 and a complete one-track file at 24. *)
Definition blob_two_embedded : buffer :=
  MTrk ++ [x00; x00; x00; x18] ++ [x01; x02]
       ++ (MThd ++ [x00; x00; x00; x06; x00; x01; x00; x01; x00; x60])
       ++ midi_file 1 96 [end_of_track].

(** The offsets under which files were written. *)
Definition offsets (fs : list file) : list Z :=
  map (fun f => fn_offset (f_name f)) fs.

(** A header declaring two tracks, one 3-byte track, then three bytes
    that carry no tag up to the end of the buffer. *)
Definition blob_lost_sync : buffer :=
  header_1_2_96 ++ chunk [xff; x2f; x00] ++ [x01; x02; x03].

(** A header declaring zero tracks, followed by a well-formed track. *)
Definition blob_zero_declared : buffer :=
  MThd ++ [x00; x00; x00; x06; x00; x01; x00; x00; x00; x60]
       ++ chunk end_of_track.

(** A well-formed one-track file lying inside the payload of a track
    chunk that ends with a proper end-of-track event. *)
Definition blob_nested : buffer :=
  MTrk ++ [x00; x00; x00; x1e] ++ midi_file 0 96 [end_of_track]
       ++ end_of_track.

(** Two headers back to back, the second followed by its track. *)
Definition blob_two_headers : buffer :=
  MThd ++ [x00; x00; x00; x06; x00; x01; x00; x01; x00; x60]
       ++ midi_file 0 96 [end_of_track].

(** The state in which [smart_extract] enters its loop. *)
Definition sx_init (midi : mthd) : sx_state :=
  {| sx_i := 0; sx_curtrack := 0; sx_midi := midi |}.

(** What [write_midi] answers for a header without tracks. *)
Definition refused : write_result :=
  {| wr_ret := 1;
     wr_log := " Refusing to write trackless MIDI file."%string;
     wr_file := None |}.

(** A bound on the passes of the orchestrator's loop still to come: two
    per track still missing, plus one when the current position carries no
    track tag. *)
Definition sx_measure (buf : buffer) (base : Z) (st : sx_state) : nat :=
  2 * Z.to_nat (numtracks (sx_midi st) - sx_curtrack st)
  + match strncmp_eq buf (base + sx_i st) MTrk with
    | Done true => 0
    | _ => 1
    end.

(** What one pass through the orchestrator's loop does when it does not
    crash: it stops at a header tag or after a failed recovery search, or it
    resynchronises on a track tag [j] bytes ahead, or it extracts a track
    and advances behind it. *)
Inductive pass (garbage : Z -> bool) (buf : buffer) (base : Z)
    (st : sx_state) : bool -> sx_state -> Prop :=
| pass_stop :
    strncmp_eq buf (base + sx_i st) MTrk <> Done true ->
    pass garbage buf base st false
         {| sx_i := sx_i st; sx_curtrack := sx_curtrack st;
            sx_midi := set_truncated (sx_midi st) (sx_curtrack st) |}
| pass_resync j :
    strncmp_eq buf (base + sx_i st) MTrk = Done false ->
    1 <= j ->
    strncmp_eq buf (base + sx_i st + j) MTrk = Done true ->
    pass garbage buf base st true
         {| sx_i := sx_i st + j; sx_curtrack := sx_curtrack st;
            sx_midi := set_damaged (sx_midi st) |}
| pass_track t :
    strncmp_eq buf (base + sx_i st) MTrk = Done true ->
    extract_mtrk buf (base + sx_i st) = Done (Some t) ->
    pass garbage buf base st
         (negb (numtracks (sx_midi st) <=? u16 (sx_curtrack st + 1)))
         {| sx_i := sx_i st + mtrk_advance (garbage (sx_curtrack st)) t;
            sx_curtrack := u16 (sx_curtrack st + 1);
            sx_midi := add_track (sx_midi st) t |}.


(** The header as [extract_mthd] returns it. *)
Definition parsed_header (ty nt dv : Z) : mthd :=
  {| miditype := ty; numtracks := nt; timecode := dv;
     is_damaged := false; is_generated := false; track0 := [] |}.

(** The header with further tracks appended to its sequence. *)
Definition with_tracks (m : mthd) (ts : list mtrk) : mthd :=
  {| miditype := miditype m; numtracks := numtracks m;
     timecode := timecode m;
     is_damaged := is_damaged m; is_generated := is_generated m;
     track0 := track0 m ++ ts |}.

(** The file written for a clean structure found at offset [o]. *)
Definition clean_file (o : Z) (bytes : list byte) : file :=
  {| f_name := {| fn_offset := o; fn_status := OK |}; f_bytes := bytes |}.

(** ** Vocabulary of the further properties *)

(** The value of a 2-byte big-endian field. *)
Definition be16_val (hi lo : byte) : Z := byte_val hi * 256 + byte_val lo.

(** The format type the header parser stores: format 0 with a track count
    other than 1 becomes format 1. *)
Definition coerce_type (ty nt : Z) : Z :=
  if (ty =? 0) && negb (nt =? 1) then 1 else ty.

(** A stored track that [write_mtrk] can write: its flag and data are
    assigned and the data block holds at least [size] bytes. *)
Definition track_ok (t : mtrk) : Prop :=
  extratrunc t <> None /\
  exists d, data t = Some d /\ 0 <= size t <= Z.of_nat (length d).

(** A track as the parser can return it: wholly assigned, or with neither
    its flag nor its data ever assigned. *)
Definition track_sound (t : mtrk) : Prop :=
  track_ok t \/ (extratrunc t = None /\ data t = None).

(** The bytes [write_mtrk] produces for one writable track. *)
Definition track_bytes (t : mtrk) : list byte :=
  match data t with
  | Some d => MTrk ++ size_buffer (size t) ++ firstn (Z.to_nat (size t)) d
  | None => []
  end.

(** No file name can be opened. *)
Definition never_open (_ : filename) : bool := false.

(** The names under which files were written. *)
Definition names (fs : list file) : list filename := map f_name fs.

(** A header declaring two tracks, one 3-byte track, then a header tag. *)
Definition blob_lost_sync_tagged : buffer :=
  header_1_2_96 ++ chunk [xff; x2f; x00] ++ MThd.

(** Blocks that [malloc] hands out zeroed, and blocks that it hands out
    with every byte nonzero; the same for every pass of the scan. *)
Definition zeroed (_ : Z) : bool := false.
Definition dirty (_ : Z) : bool := true.
Definition zeroed_heap (_ : nat) : Z -> bool := zeroed.
Definition dirty_heap (_ : nat) : Z -> bool := dirty.

(** A track chunk declaring no payload, followed by one more byte. *)
Definition blob_empty_chunk : buffer :=
  MTrk ++ [x00; x00; x00; x00] ++ [x00].

(** A track chunk declaring 4294967292 bytes, nothing behind it. *)
Definition blob_stall : buffer := MTrk ++ [xff; xff; xff; xfc].

(** A pass of the orchestrator that extracts a track and stands still: the
    chunk declares 4294967292 bytes, the flag byte of its block is found
    nonzero, and the track is stored with its data never assigned. *)
Definition stalls (garbage : Z -> bool) (buf : buffer) (base : Z)
    (st st' : sx_state) : Prop :=
  declared_size buf (base + sx_i st) = Done 4294967292 /\
  garbage (sx_curtrack st) = true /\
  exists t, In t (track0 (sx_midi st')) /\ data t = None.
(** * Bytes and machine integers *)

Lemma byte_val_range (b : byte) : 0 <= byte_val b < 256.
Proof.
  unfold byte_val. pose proof (Byte.to_N_bounded b) as H.
  lia.
Qed.

Lemma to_byte_val (b : byte) : to_byte (byte_val b) = b.
Proof. destruct b; reflexivity. Qed.

Lemma byte_val_to_byte (z : Z) : byte_val (to_byte z) = z mod 256.
Proof.
  unfold to_byte, byte_val.
  assert (Hr : 0 <= z mod 256 < 256) by (apply Z.mod_pos_bound; lia).
  destruct (Byte.of_N (Z.to_N (z mod 256))) as [b|] eqn:E.
  - apply Byte.to_of_N in E. rewrite E. lia.
  - apply Byte.of_N_None_iff in E. lia.
Qed.

Lemma to_byte_mod (z : Z) : to_byte (z mod 256) = to_byte z.
Proof. unfold to_byte. rewrite Z.mod_mod by lia. reflexivity. Qed.

Lemma bytes_eqb_true (a b : list byte) : bytes_eqb a b = true <-> a = b.
Proof.
  unfold bytes_eqb. destruct (list_eq_dec Byte.byte_eq_dec a b); split;
    congruence.
Qed.

Lemma bytes_eqb_refl (a : list byte) : bytes_eqb a a = true.
Proof. apply bytes_eqb_true. reflexivity. Qed.

Lemma bytes_eqb_false (a b : list byte) : bytes_eqb a b = false <-> a <> b.
Proof.
  unfold bytes_eqb. destruct (list_eq_dec Byte.byte_eq_dec a b); split;
    congruence.
Qed.

Lemma byte_eqb_eq (a b : byte) : Byte.eqb a b = true <-> a = b.
Proof.
  split.
  - apply Byte.byte_dec_bl.
  - apply Byte.byte_dec_lb.
Qed.

(** * Reading the buffer *)

Lemma bind_Done {A B} (m : outcome A) (k : A -> outcome B) (b : B) :
  bind m k = Done b -> exists a, m = Done a /\ k a = Done b.
Proof. destruct m; simpl; intros H; try discriminate. eauto. Qed.

Lemma rd_Done (buf : buffer) (p : Z) (b : byte) :
  rd buf p = Done b <->
  0 <= p /\ nth_error buf (Z.to_nat p) = Some b.
Proof.
  unfold rd. destruct (Z.ltb_spec p 0).
  - split; [discriminate | lia].
  - destruct (nth_error buf (Z.to_nat p)) eqn:E; split; intros H0.
    + inversion H0; subst. auto.
    + destruct H0 as [_ H0]. congruence.
    + discriminate.
    + destruct H0; discriminate.
Qed.

Lemma rd_bounds (buf : buffer) (p : Z) (b : byte) :
  rd buf p = Done b -> 0 <= p < filesize buf.
Proof.
  intros H. apply rd_Done in H. destruct H as [H0 H].
  assert (Hn : nth_error buf (Z.to_nat p) <> None) by congruence.
  apply nth_error_Some in Hn. unfold filesize. lia.
Qed.

Lemma rd_n_Done (buf : buffer) (p n : Z) (l : list byte) :
  rd_n buf p n = Done l ->
  0 < n ->
  0 <= p /\ p + n <= filesize buf /\
  l = firstn (Z.to_nat n) (skipn (Z.to_nat p) buf).
Proof.
  unfold rd_n. intros H Hn.
  destruct (Z.leb_spec n 0); [lia|].
  destruct (Z.ltb_spec p 0); [discriminate|].
  destruct (Z.leb_spec (p + n) (filesize buf)); [|discriminate].
  inversion H. auto.
Qed.

Lemma rd_n_length (buf : buffer) (p n : Z) (l : list byte) :
  rd_n buf p n = Done l -> 0 <= n -> Z.of_nat (length l) = n.
Proof.
  intros H Hn. destruct (Z.eq_dec n 0) as [->|Hz].
  - unfold rd_n in H. simpl in H. inversion H. reflexivity.
  - apply rd_n_Done in H; [|lia]. destruct H as (H0 & H1 & ->).
    rewrite length_firstn, length_skipn. unfold filesize in H1. lia.
Qed.

Lemma rd_n_in (buf : buffer) (p n : Z) :
  0 <= p -> 0 <= n -> p + n <= filesize buf ->
  rd_n buf p n = Done (firstn (Z.to_nat n) (skipn (Z.to_nat p) buf)).
Proof.
  intros Hp Hn Hb. unfold rd_n.
  destruct (Z.leb_spec n 0).
  - replace n with 0 by lia. reflexivity.
  - destruct (Z.ltb_spec p 0); [lia|].
    destruct (Z.leb_spec (p + n) (filesize buf)); [reflexivity|lia].
Qed.

(** The bytes of a known segment of the buffer. *)
Lemma rd_n_at (l1 x l2 : list byte) :
  rd_n (l1 ++ x ++ l2) (Z.of_nat (length l1)) (Z.of_nat (length x)) = Done x.
Proof.
  rewrite rd_n_in; try lia.
  - rewrite !Nat2Z.id. rewrite skipn_app, skipn_all, Nat.sub_diag. simpl.
    rewrite firstn_app, firstn_all, Nat.sub_diag. simpl.
    rewrite app_nil_r. reflexivity.
  - unfold filesize. rewrite !length_app. lia.
Qed.

Lemma rd_n_sub (buf : buffer) (p n k m : Z) (l : list byte) :
  rd_n buf p n = Done l ->
  0 <= k -> 0 <= m -> k + m <= n ->
  rd_n buf (p + k) m = Done (firstn (Z.to_nat m) (skipn (Z.to_nat k) l)).
Proof.
  intros H Hk Hm Hkm. destruct (Z.eq_dec m 0) as [->|Hz].
  - reflexivity.
  - apply rd_n_Done in H; [|lia]. destruct H as (H0 & H1 & ->).
    rewrite rd_n_in by lia. f_equal.
    rewrite skipn_firstn_comm, firstn_firstn, skipn_skipn.
    replace (Z.to_nat k + Z.to_nat p)%nat with (Z.to_nat (p + k)) by lia.
    f_equal. lia.
Qed.

Lemma rd_n_rd (buf : buffer) (p n : Z) (l : list byte) (k : nat) (b : byte) :
  rd_n buf p n = Done l ->
  nth_error l k = Some b ->
  rd buf (p + Z.of_nat k) = Done b.
Proof.
  intros H Hk.
  destruct (Z.leb_spec n 0) as [Hn|Hn].
  - unfold rd_n in H. destruct (Z.leb_spec n 0); [|lia].
    inversion H; subst. destruct k; discriminate.
  - apply rd_n_Done in H; [|lia]. destruct H as (H0 & H1 & ->).
    apply rd_Done. split; [lia|].
    assert (Hlt : (k < Z.to_nat n)%nat).
    { assert (Hs : nth_error (firstn (Z.to_nat n) (skipn (Z.to_nat p) buf)) k
                   <> None) by congruence.
      apply nth_error_Some in Hs. rewrite length_firstn in Hs. lia. }
    rewrite nth_error_firstn in Hk.
    destruct (Nat.ltb_spec k (Z.to_nat n)); [|lia].
    rewrite nth_error_skipn in Hk.
    replace (Z.to_nat (p + Z.of_nat k)) with (Z.to_nat p + k)%nat by lia.
    exact Hk.
Qed.

Lemma rd_n_rdz (buf : buffer) (p n k : Z) (l : list byte) (b : byte) :
  rd_n buf p n = Done l ->
  0 <= k ->
  nth_error l (Z.to_nat k) = Some b ->
  rd buf (p + k) = Done b.
Proof.
  intros H Hk Hb. rewrite <- (Z2Nat.id k) by lia.
  eapply rd_n_rd; eauto.
Qed.


(** [strncmp] against the bytes actually there. *)
Lemma strncmp_eq_view (buf : buffer) (tag l : list byte) (p n : Z) :
  rd_n buf p n = Done l ->
  length l = length tag ->
  strncmp_eq buf p tag = Done (bytes_eqb l tag).
Proof.
  revert l p n. induction tag as [|c tag IH]; intros l p n H Hl.
  - destruct l; [reflexivity|discriminate].
  - destruct l as [|b l]; [discriminate|]. simpl in Hl.
    assert (Hn : Z.of_nat (length (b :: l)) = n).
    { destruct (Z.leb_spec n 0) as [Hn|Hn].
      - unfold rd_n in H. destruct (Z.leb_spec n 0); [|lia]. discriminate.
      - apply rd_n_length in H; lia. }
    simpl length in Hn.
    simpl. pose proof (rd_n_rd _ _ _ _ 0%nat b H eq_refl) as Hb.
    rewrite Z.add_0_r in Hb. rewrite Hb. simpl.
    destruct (Byte.eqb b c) eqn:E.
    + apply byte_eqb_eq in E. subst c.
      rewrite (IH l (p + 1) (n - 1)).
      * f_equal. destruct (bytes_eqb l tag) eqn:E1.
        -- apply bytes_eqb_true in E1. subst. symmetry. apply bytes_eqb_refl.
        -- symmetry. apply bytes_eqb_false. apply bytes_eqb_false in E1.
           congruence.
      * rewrite (rd_n_sub _ _ _ 1 (n - 1) _ H) by lia.
        f_equal. simpl. apply firstn_all2. lia.
      * lia.
    + f_equal. symmetry. apply bytes_eqb_false. intros E1.
      inversion E1; subst. rewrite (proj2 (byte_eqb_eq c c) eq_refl) in E.
      discriminate.
Qed.

Lemma skipn_nth_cons (buf : list byte) (p : nat) (c : byte) :
  nth_error buf p = Some c -> skipn p buf = c :: skipn (S p) buf.
Proof.
  revert buf. induction p as [|p IH]; intros [|x buf] H; simpl in H;
    try discriminate.
  - inversion H. reflexivity.
  - change (skipn (S p) (x :: buf)) with (skipn p buf).
    rewrite (IH _ H). reflexivity.
Qed.

Lemma firstn_skipn_nth (buf l : list byte) (p : nat) :
  (forall k c, nth_error l k = Some c -> nth_error buf (p + k) = Some c) ->
  firstn (length l) (skipn p buf) = l.
Proof.
  revert p. induction l as [|c l IH]; intros p H.
  - reflexivity.
  - pose proof (H 0%nat c eq_refl) as H0. rewrite Nat.add_0_r in H0.
    rewrite (skipn_nth_cons _ _ _ H0).
    change (length (c :: l)) with (S (length l)).
    rewrite firstn_cons. f_equal.
    apply (IH (S p)). intros k c' Hk.
    replace (S p + k)%nat with (p + S k)%nat by lia.
    apply H. exact Hk.
Qed.

Lemma strncmp_eq_true_rd (buf : buffer) (tag : list byte) (p : Z) :
  strncmp_eq buf p tag = Done true ->
  forall k c, nth_error tag k = Some c -> rd buf (p + Z.of_nat k) = Done c.
Proof.
  revert p. induction tag as [|c tag IH]; intros p H k c' Hk.
  - destruct k; discriminate.
  - simpl in H. apply bind_Done in H. destruct H as (b & Hb & H).
    destruct (Byte.eqb b c) eqn:E; [|discriminate].
    apply byte_eqb_eq in E. subst c.
    destruct k as [|k].
    + simpl in Hk. inversion Hk; subst. rewrite Z.add_0_r. exact Hb.
    + simpl in Hk. replace (p + Z.of_nat (S k)) with (p + 1 + Z.of_nat k) by lia.
      eapply IH; eauto.
Qed.

Lemma strncmp_eq_true (buf : buffer) (tag : list byte) (p : Z) :
  strncmp_eq buf p tag = Done true ->
  rd_n buf p (Z.of_nat (length tag)) = Done tag.
Proof.
  intros H. pose proof (strncmp_eq_true_rd _ _ _ H) as Hr.
  destruct tag as [|c tag]; [reflexivity|].
  pose proof (Hr 0%nat c eq_refl) as H0. rewrite Z.add_0_r in H0.
  pose proof (rd_bounds _ _ _ H0) as Hp.
  set (n := length tag) in *.
  assert (Hlast : forall k c', nth_error (c :: tag) k = Some c' ->
                    nth_error buf (Z.to_nat p + k) = Some c').
  { intros k c' Hk. apply Hr in Hk. apply rd_Done in Hk.
    destruct Hk as [_ Hk].
    replace (Z.to_nat p + k)%nat with (Z.to_nat (p + Z.of_nat k)) by lia.
    exact Hk. }
  assert (Hb : p + Z.of_nat (length (c :: tag)) <= filesize buf).
  { destruct (nth_error (c :: tag) n) as [c'|] eqn:E.
    - apply Hr in E. apply rd_bounds in E. simpl length. fold n. lia.
    - apply nth_error_None in E. simpl in E. fold n in E. lia. }
  rewrite rd_n_in by lia. f_equal. rewrite Nat2Z.id.
  apply firstn_skipn_nth. exact Hlast.
Qed.

Lemma MTrk_excludes_MThd (buf : buffer) (p : Z) :
  strncmp_eq buf p MTrk = Done true -> strncmp_eq buf p MThd = Done false.
Proof.
  intros H. apply strncmp_eq_true in H.
  rewrite (strncmp_eq_view _ MThd MTrk _ _ H) by reflexivity. reflexivity.
Qed.

Lemma MThd_excludes_MTrk (buf : buffer) (p : Z) :
  strncmp_eq buf p MThd = Done true -> strncmp_eq buf p MTrk = Done false.
Proof.
  intros H. apply strncmp_eq_true in H.
  rewrite (strncmp_eq_view _ MTrk MThd _ _ H) by reflexivity. reflexivity.
Qed.

Lemma strncmp_eq_bounds (buf : buffer) (p : Z) (c : byte) (tag : list byte) :
  strncmp_eq buf p (c :: tag) = Done true ->
  0 <= p /\ p + Z.of_nat (length (c :: tag)) <= filesize buf.
Proof.
  intros H. apply strncmp_eq_true in H.
  apply rd_n_Done in H; [|simpl length; lia]. tauto.
Qed.

Lemma strncmp_eq_at (l1 tag l2 : list byte) :
  strncmp_eq (l1 ++ tag ++ l2) (Z.of_nat (length l1)) tag = Done true.
Proof.
  rewrite (strncmp_eq_view _ tag tag _ _ (rd_n_at l1 tag l2)) by reflexivity.
  rewrite bytes_eqb_refl. reflexivity.
Qed.

(** * Big-endian fields *)

Lemma be32_value (z : Z) :
  0 <= z < 4294967296 ->
  match be32 z with
  | [b4; b5; b6; b7] =>
      byte_val b4 * 16777216 + byte_val b5 * 65536
        + byte_val b6 * 256 + byte_val b7 = z
  | _ => False
  end.
Proof.
  intros Hz. unfold be32. rewrite !byte_val_to_byte.
  Z.div_mod_to_equations. lia.
Qed.

Lemma declared_size_view (buf : buffer) (p n : Z)
    (t0 t1 t2 t3 b4 b5 b6 b7 : byte) (rest : list byte) :
  rd_n buf p n = Done (t0 :: t1 :: t2 :: t3 :: b4 :: b5 :: b6 :: b7 :: rest) ->
  declared_size buf p
  = Done (u32 (byte_val b4 * 16777216 + byte_val b5 * 65536
               + byte_val b6 * 256 + byte_val b7)).
Proof.
  intros H. unfold declared_size.
  rewrite (rd_n_rdz _ _ _ 4 _ b4 H) by first [lia | reflexivity].
  rewrite (rd_n_rdz _ _ _ 5 _ b5 H) by first [lia | reflexivity].
  rewrite (rd_n_rdz _ _ _ 6 _ b6 H) by first [lia | reflexivity].
  rewrite (rd_n_rdz _ _ _ 7 _ b7 H) by first [lia | reflexivity].
  reflexivity.
Qed.

Lemma declared_size_range (buf : buffer) (p sz : Z) :
  declared_size buf p = Done sz -> 0 <= sz < 4294967296.
Proof.
  unfold declared_size. intros H.
  repeat (apply bind_Done in H; destruct H as (? & _ & H)).
  inversion H. unfold u32. apply Z.mod_pos_bound. lia.
Qed.

(** * The track chunk parser on a chunk lying in the buffer *)

Lemma app_eq_len {A} (a b c d : list A) :
  a ++ b = c ++ d -> length b = length d -> a = c /\ b = d.
Proof.
  revert c. induction a as [|x a IH]; intros [|y c] H Hl; simpl in H.
  - auto.
  - subst b. simpl in Hl. rewrite length_app in Hl. lia.
  - subst d. simpl in Hl. rewrite length_app in Hl. lia.
  - inversion H; subst. destruct (IH c H2 Hl). subst. auto.
Qed.

Lemma ends_with_split (l1 l2 s : list byte) :
  length l2 = length s -> (ends_with (l1 ++ l2) s <-> l2 = s).
Proof.
  intros Hl. split.
  - intros [p Hp]. apply app_eq_len in Hp; tauto.
  - intros ->. exists l1. reflexivity.
Qed.

Lemma ends_with_length (l s : list byte) :
  ends_with l s -> (length s <= length l)%nat.
Proof. intros [p ->]. rewrite length_app. lia. Qed.

Lemma chunk_length (payload : list byte) :
  Z.of_nat (length (chunk payload)) = Z.of_nat (length payload) + 8.
Proof. unfold chunk. rewrite !length_app. simpl. lia. Qed.

(** The last [length s] bytes before the end of the chunk, which is what
    the two [memcmp] calls look at, match [s] exactly when the payload ends
    with [s]; for payloads shorter than [s] the bytes compared reach into
    the length field, and never match. *)
Lemma chunk_tail (payload s : list byte) :
  s = end_of_track \/ s = tl end_of_track ->
  Z.of_nat (length payload) < 4294967296 ->
  firstn (length s)
         (skipn (length payload + 8 - length s) (chunk payload)) = s
  <-> ends_with payload s.
Proof.
  intros Hs Hlen.
  destruct (Nat.le_gt_cases (length s) (length payload)) as [Hle|Hgt].
  - assert (E : exists p1 p2, payload = p1 ++ p2 /\ length p2 = length s).
    { exists (firstn (length payload - length s) payload),
             (skipn (length payload - length s) payload).
      rewrite firstn_skipn, length_skipn. split; [reflexivity|lia]. }
    destruct E as (p1 & p2 & -> & H2).
    unfold chunk. rewrite length_app.
    set (b := be32 (Z.of_nat (length p1 + length p2))).
    replace (MTrk ++ b ++ p1 ++ p2) with ((MTrk ++ b ++ p1) ++ p2)
      by (rewrite <- !app_assoc; reflexivity).
    rewrite skipn_app.
    rewrite skipn_all2 by (rewrite !length_app; simpl; lia).
    replace (length p1 + length p2 + 8 - length s
             - length (MTrk ++ b ++ p1))%nat
      with 0%nat by (rewrite !length_app; simpl; lia).
    simpl. rewrite <- H2, firstn_all.
    symmetry. apply ends_with_split. exact H2.
  - split.
    + intros H. exfalso.
      destruct Hs; subst s; simpl in Hgt;
        destruct payload as [|p0 [|p1 [|p2 [|p3 payload]]]];
        simpl in Hgt; try lia; vm_compute in H; discriminate.
    + intros H. apply ends_with_length in H. lia.
Qed.
Section ChunkInBuffer.

Variables pre payload post : list byte.

Local Abbreviation buf := (pre ++ chunk payload ++ post).
Local Abbreviation a := (Z.of_nat (length pre)).
Local Abbreviation L := (Z.of_nat (length payload)).

Lemma chunk_view : rd_n buf a (L + 8) = Done (chunk payload).
Proof.
  rewrite <- chunk_length. apply rd_n_at.
Qed.

Lemma chunk_tag : strncmp_eq buf a MTrk = Done true.
Proof.
  unfold chunk. rewrite <- !app_assoc. apply strncmp_eq_at.
Qed.

Lemma chunk_declared_size :
  L < 4294967296 -> declared_size buf a = Done L.
Proof.
  intros HL. pose proof chunk_view as V.
remember (pre ++ chunk payload ++ post) as B eqn:EB. clear EB.
unfold chunk in V.
  pose proof (be32_value L) as Hv.
  destruct (be32 L) as [|b4 [|b5 [|b6 [|b7 [|]]]]] eqn:E;
    try (exfalso; apply Hv; lia).
  rewrite (declared_size_view _ _ _ _ _ _ _ _ _ _ _ _ V).
  rewrite Hv by lia.
  unfold u32. rewrite Z.mod_small by lia. reflexivity.
Qed.

Lemma chunk_payload : rd_n buf (a + 8) L = Done payload.
Proof.
  rewrite (rd_n_sub _ _ _ 8 L _ chunk_view) by lia.
  f_equal. rewrite Nat2Z.id.
  change (skipn (Z.to_nat 8) (chunk payload)) with payload.
  apply firstn_all.
Qed.

Lemma chunk_memcmp (s : list byte) :
  s = end_of_track \/ s = tl end_of_track ->
  L < 4294967296 ->
  exists r,
    memcmp_eq buf (a + (L + 8 - Z.of_nat (length s))) s = Done r /\
    (r = true <-> ends_with payload s).
Proof.
  intros Hs HL. unfold memcmp_eq.
  assert (Hl : Z.of_nat (length s) <= 4) by (destruct Hs; subst; simpl; lia).
  rewrite (rd_n_sub _ _ _ _ _ _ chunk_view) by lia.
  cbn [bind]. eexists. split; [reflexivity|].
  rewrite bytes_eqb_true.
  rewrite <- (chunk_tail payload s Hs HL).
  rewrite Nat2Z.id.
  replace (Z.to_nat (Z.of_nat (length payload) + 8 - Z.of_nat (length s)))
    with (length payload + 8 - length s)%nat by lia.
  reflexivity.
Qed.

Lemma chunk_extract_intact :
  L + 8 < 4294967296 ->
  terminated payload ->
  extract_mtrk buf a = Done (Some (intact payload)).
Proof.
  intros HL Ht.
  destruct (chunk_memcmp end_of_track) as (r4 & M4 & K4); [auto|lia|].
  destruct (chunk_memcmp (tl end_of_track)) as (r3 & M3 & K3); [auto|lia|].
  change (Z.of_nat (length end_of_track)) with 4 in M4.
  change (Z.of_nat (length (tl end_of_track))) with 3 in M3.
  unfold extract_mtrk.
  rewrite chunk_tag. cbn [bind negb].
  rewrite chunk_declared_size by lia. cbn [bind].
  unfold u32. rewrite !Z.mod_small by lia.
  replace (L + 4) with (L + 8 - 4) by lia. rewrite M4. cbn [bind].
  destruct r4.
  - rewrite chunk_payload. reflexivity.
  - replace (L + 5) with (L + 8 - 3) by lia. rewrite M3. cbn [bind].
    destruct r3.
    + rewrite chunk_payload. reflexivity.
    + destruct Ht as [Ht|Ht]; [apply K4 in Ht|apply K3 in Ht]; discriminate.
Qed.

Lemma chunk_extract_flag (t : mtrk) :
  L + 8 < 4294967296 ->
  extract_mtrk buf a = Done (Some t) ->
  (extratrunc t = Some false <-> terminated payload).
Proof.
  intros HL H.
  destruct (chunk_memcmp end_of_track) as (r4 & M4 & K4); [auto|lia|].
  destruct (chunk_memcmp (tl end_of_track)) as (r3 & M3 & K3); [auto|lia|].
  change (Z.of_nat (length end_of_track)) with 4 in M4.
  change (Z.of_nat (length (tl end_of_track))) with 3 in M3.
  unfold extract_mtrk in H.
  rewrite chunk_tag in H. cbn [bind negb] in H.
  rewrite chunk_declared_size in H by lia. cbn [bind] in H.
  unfold u32 in H. rewrite !Z.mod_small in H by lia.
  replace (L + 4) with (L + 8 - 4) in H by lia. rewrite M4 in H.
  cbn [bind] in H.
  destruct r4.
  { rewrite chunk_payload in H. inversion H; subst. simpl.
    split; [intros _; left; apply K4; reflexivity | reflexivity]. }
  replace (L + 5) with (L + 8 - 3) in H by lia. rewrite M3 in H.
  cbn [bind] in H.
  destruct r3.
  { rewrite chunk_payload in H. inversion H; subst. simpl.
    split; [intros _; right; apply K3; reflexivity | reflexivity]. }
  assert (Hno : ~ terminated payload).
  { intros [Ht|Ht]; [apply K4 in Ht|apply K3 in Ht]; discriminate. }
  split; [|tauto]. intros Hf. exfalso.
  apply bind_Done in H. destruct H as ([found ptr] & _ & H).
  destruct found.
  - apply bind_Done in H. destruct H as (d & _ & H).
    inversion H; subst. discriminate.
  - destruct (ptr =? 8).
    + apply bind_Done in H. destruct H as (d & _ & H).
      inversion H; subst. discriminate.
    + inversion H; subst. discriminate.
Qed.

End ChunkInBuffer.

(** * The orchestrator around one track *)

Lemma smart_loop_S (g : Z -> bool) (fuel : nat) (buf : buffer)
    (base eof maxd : Z) (st : sx_state) :
  smart_loop g (S fuel) buf base eof maxd st
  = r <- smart_body g buf base eof maxd st ;;
    if fst r then smart_loop g fuel buf base eof maxd (snd r)
    else Done (snd r).
Proof.
  simpl. destruct (smart_body g buf base eof maxd st) as [[c st']| |];
    reflexivity.
Qed.

Lemma smart_body_collision (g : Z -> bool) (buf : buffer)
    (base eof maxd : Z) (st : sx_state) :
  strncmp_eq buf (base + sx_i st) MThd = Done true ->
  smart_body g buf base eof maxd st
  = Done (false, {| sx_i := sx_i st; sx_curtrack := sx_curtrack st;
                    sx_midi := set_truncated (sx_midi st) (sx_curtrack st) |}).
Proof. intros H. unfold smart_body. rewrite H. reflexivity. Qed.

Lemma smart_body_track (g : Z -> bool) (buf : buffer)
    (base eof maxd : Z) (st : sx_state) (t : mtrk) :
  strncmp_eq buf (base + sx_i st) MTrk = Done true ->
  extract_mtrk buf (base + sx_i st) = Done (Some t) ->
  smart_body g buf base eof maxd st
  = Done (negb (numtracks (sx_midi st) <=? u16 (sx_curtrack st + 1)),
          {| sx_i := sx_i st + mtrk_advance (g (sx_curtrack st)) t;
             sx_curtrack := u16 (sx_curtrack st + 1);
             sx_midi := add_track (sx_midi st) t |}).
Proof.
  intros Ht He. unfold smart_body.
  rewrite (MTrk_excludes_MThd _ _ Ht), Ht. cbn [bind negb].
  rewrite He. reflexivity.
Qed.

Lemma smart_extract_eq (can_open : filename -> bool) (g : Z -> bool)
    (midi : mthd) (buf : buffer) (base eof maxd offset : Z) (st : sx_state) :
  smart_loop g (sx_fuel midi) buf base eof maxd (sx_init midi) = Done st ->
  smart_extract can_open g midi buf base eof maxd offset
  = w <- write_midi can_open (sx_midi st)
          {| fn_offset := offset; fn_status := classify (sx_midi st) |} ;;
    Done (u32 (sx_i st), w).
Proof.
  intros H. unfold smart_extract. fold (sx_init midi). rewrite H. reflexivity.
Qed.

Lemma main_loop_S (can_open : filename -> bool) (heap : nat -> Z -> bool)
    (fuel : nat) (buf : buffer) (i i' : Z) (fs : list file) :
  i < filesize buf ->
  scan_step can_open (heap fuel) buf i = Done (i', fs) ->
  main_loop can_open heap (S fuel) buf i
  = (fs ++ fst (main_loop can_open heap fuel buf i'),
     snd (main_loop can_open heap fuel buf i')).
Proof.
  intros Hi Hs. simpl. destruct (Z.ltb_spec i (filesize buf)); [|lia].
  rewrite Hs. destruct (main_loop can_open heap fuel buf i'). reflexivity.
Qed.

Lemma main_loop_end (can_open : filename -> bool) (heap : nat -> Z -> bool)
    (fuel : nat) (buf : buffer) (i : Z) :
  filesize buf <= i -> main_loop can_open heap fuel buf i = ([], Finished).
Proof.
  intros Hi. destruct fuel; simpl;
    destruct (Z.ltb_spec i (filesize buf)); try lia; reflexivity.
Qed.

Lemma scan_step_header (can_open : filename -> bool) (g : Z -> bool)
    (buf : buffer) (i : Z) :
  strncmp_eq buf i MThd = Done true ->
  scan_step can_open g buf i = header_branch can_open g buf i.
Proof.
  intros H. unfold scan_step.
  rewrite (MThd_excludes_MTrk _ _ H), H. reflexivity.
Qed.


Lemma write_midi_trackless (can_open : filename -> bool) (midi : mthd)
    (name : filename) :
  track0 midi = [] -> write_midi can_open midi name = Done refused.
Proof. intros H. unfold write_midi. rewrite H. reflexivity. Qed.

(** C9.  A header whose track sequence is empty when the orchestrator is
    done: [write_midi] writes no file, returns 1 and logs its refusal, and
    the scan goes on from the offset the orchestrator reached. *)
Theorem trackless_header_refused_and_scan_continues
    (can_open : filename -> bool) (heap : nat -> Z -> bool) (buf : buffer)
    (i : Z) (fuel : nat) (midi : mthd) (st : sx_state) :
  i < filesize buf ->
  strncmp_eq buf i MThd = Done true ->
  extract_mthd buf i = Done (Some midi) ->
  smart_loop (heap fuel) (sx_fuel midi) buf (i + 14)
             (u64 (filesize buf - (i + 14))) 32768 (sx_init midi) = Done st ->
  track0 (sx_midi st) = [] ->
  (forall name, write_midi can_open (sx_midi st) name = Done refused) /\
  wr_ret refused = 1 /\ wr_file refused = None /\
  scan_step can_open (heap fuel) buf i = Done (i + 14 + u32 (sx_i st), []) /\
  main_loop can_open heap (S fuel) buf i
  = main_loop can_open heap fuel buf (i + 14 + u32 (sx_i st)).
Proof.
  intros Hi Hh Hm Hl Ht.
  assert (Hw : forall name, write_midi can_open (sx_midi st) name = Done refused)
    by (intros; apply write_midi_trackless; exact Ht).
  assert (Hs : scan_step can_open (heap fuel) buf i
               = Done (i + 14 + u32 (sx_i st), [])).
  { rewrite (scan_step_header _ _ _ _ Hh). unfold header_branch.
    rewrite Hm. cbn [bind].
    rewrite (smart_extract_eq _ _ _ _ _ _ _ _ _ Hl), Hw. reflexivity. }
  repeat split; auto.
  rewrite (main_loop_S _ _ _ _ _ _ _ Hi Hs).
  destruct (main_loop can_open heap fuel buf (i + 14 + u32 (sx_i st))).
  reflexivity.
Qed.

Lemma trackless_header_refused_and_scan_continues_witness :
  0 < filesize blob_two_headers /\
  strncmp_eq blob_two_headers 0 MThd = Done true /\
  main_loop always_open zeroed_heap 3 blob_two_headers 0
  = main_loop always_open zeroed_heap 2 blob_two_headers 14 /\
  main_loop always_open zeroed_heap 2 blob_two_headers 14
  = ([ {| f_name := {| fn_offset := 14; fn_status := OK |};
          f_bytes := midi_file 0 96 [end_of_track] |} ], Finished).
Proof.
  split; [vm_compute; reflexivity|].
  split; [vm_compute; reflexivity|].
  split; [|vm_compute; reflexivity].
  refine (proj2 (proj2 (proj2 (proj2
    (trackless_header_refused_and_scan_continues
       always_open zeroed_heap blob_two_headers 0 2
       {| miditype := 1; numtracks := 1; timecode := 96;
          is_damaged := false; is_generated := false; track0 := [] |}
       {| sx_i := 0; sx_curtrack := 0;
          sx_midi := {| miditype := 1; numtracks := 0; timecode := 96;
                        is_damaged := true; is_generated := false;
                        track0 := [] |} |}
       _ _ _ _ _))))); vm_compute; reflexivity.
Defined.

(** * Backtracking to an embedded header *)

Lemma backtrack_found (buf : buffer) (a ptr : Z) :
  strncmp_eq buf (a + ptr) MThd = Done true ->
  forall (d : nat) (n : nat) (top : Z),
    top = ptr + Z.of_nat d ->
    (d < n)%nat ->
    (forall q, ptr < q <= top -> strncmp_eq buf (a + q) MThd = Done false) ->
    backtrack buf a n top = Done (true, ptr).
Proof.
  intros Hp. induction d as [|d IH]; intros n top Htop Hn Hq.
  - destruct n as [|n]; [lia|]. cbn [backtrack].
    replace top with ptr by lia. rewrite Hp. reflexivity.
  - destruct n as [|n]; [lia|]. cbn [backtrack].
    rewrite (Hq top) by lia. cbn [bind].
    apply IH; [lia|lia|]. intros q Hq'. apply Hq. lia.
Qed.

Lemma backtrack_true (buf : buffer) (a : Z) (n : nat) (top ptr : Z) :
  backtrack buf a n top = Done (true, ptr) ->
  top - Z.of_nat n < ptr <= top /\
  strncmp_eq buf (a + ptr) MThd = Done true.
Proof.
  revert top. induction n as [|n IH]; intros top H; cbn [backtrack] in H.
  - discriminate.
  - apply bind_Done in H. destruct H as (h & Hh & H). destruct h.
    + inversion H; subst. split; [lia|exact Hh].
    + apply IH in H. split; [lia|tauto].
Qed.

Lemma backtrack_false (buf : buffer) (a : Z) (n : nat) (top ptr : Z) :
  backtrack buf a n top = Done (false, ptr) -> ptr = top - Z.of_nat n.
Proof.
  revert top. induction n as [|n IH]; intros top H; cbn [backtrack] in H.
  - inversion H. lia.
  - apply bind_Done in H. destruct H as (h & Hh & H). destruct h.
    + discriminate.
    + apply IH in H. lia.
Qed.




(** * No operation below the scanning loop runs for ever *)

Lemma bind_halts {A B} (m : outcome A) (k : A -> outcome B) :
  m <> Timeout ->
  (forall a, m = Done a -> k a <> Timeout) ->
  bind m k <> Timeout.
Proof.
  intros Hm Hk. destruct m; simpl; [apply Hk; reflexivity|discriminate|tauto].
Qed.

Ltac halt_step :=
  match goal with
  | |- bind _ _ <> Timeout => apply bind_halts; [|intros ? _]
  | |- Done _ <> Timeout => discriminate
  | |- Crash _ <> Timeout => discriminate
  | |- (if ?c then _ else _) <> Timeout => destruct c
  | |- (match ?x with _ => _ end) <> Timeout => destruct x
  end.

Create HintDb halts.

Ltac halts := repeat halt_step; auto with halts.

Lemma rd_halts (buf : buffer) (p : Z) : rd buf p <> Timeout.
Proof. unfold rd. halts. Qed.

#[local] Hint Resolve rd_halts : halts.

Lemma rd_n_halts (buf : buffer) (p n : Z) : rd_n buf p n <> Timeout.
Proof. unfold rd_n. halts. Qed.

Lemma strncmp_eq_halts (buf : buffer) (p : Z) (tag : list byte) :
  strncmp_eq buf p tag <> Timeout.
Proof.
  revert p. induction tag as [|c tag IH]; intros p; simpl; halts.
Qed.

#[local] Hint Resolve rd_n_halts strncmp_eq_halts : halts.

Lemma memcmp_eq_halts (buf : buffer) (p : Z) (pat : list byte) :
  memcmp_eq buf p pat <> Timeout.
Proof. unfold memcmp_eq. halts. Qed.

Lemma declared_size_halts (buf : buffer) (p : Z) :
  declared_size buf p <> Timeout.
Proof. unfold declared_size. halts. Qed.

Lemma backtrack_halts (buf : buffer) (p : Z) (n : nat) (ptr : Z) :
  backtrack buf p n ptr <> Timeout.
Proof.
  revert ptr. induction n as [|n IH]; intros ptr; cbn [backtrack]; halts.
Qed.

#[local] Hint Resolve memcmp_eq_halts declared_size_halts backtrack_halts
  : halts.

Lemma extract_mtrk_halts (buf : buffer) (p : Z) :
  extract_mtrk buf p <> Timeout.
Proof. unfold extract_mtrk. halts. Qed.

Lemma recovery_search_halts (buf : buffer) (pos : Z) (n : nat) (j : Z) :
  recovery_search buf pos n j <> Timeout.
Proof.
  revert j. induction n as [|n IH]; intros j; cbn [recovery_search]; halts.
Qed.

#[local] Hint Resolve extract_mtrk_halts recovery_search_halts : halts.

Lemma smart_body_halts (g : Z -> bool) (buf : buffer) (base eof maxd : Z)
    (st : sx_state) :
  smart_body g buf base eof maxd st <> Timeout.
Proof. unfold smart_body. halts. Qed.

Lemma write_mtrk_halts (tracks : list mtrk) : write_mtrk tracks <> Timeout.
Proof. induction tracks as [|t next IH]; simpl; halts. Qed.

#[local] Hint Resolve smart_body_halts write_mtrk_halts : halts.

Lemma write_midi_halts (can_open : filename -> bool) (midi : mthd)
    (name : filename) :
  write_midi can_open midi name <> Timeout.
Proof. unfold write_midi. halts. Qed.

Lemma count_mtrk_halts (buf : buffer) (n : nat) (j cnt : Z) :
  count_mtrk buf n j cnt <> Timeout.
Proof.
  revert j cnt. induction n as [|n IH]; intros j cnt; cbn [count_mtrk]; halts.
Qed.

Lemma extract_mthd_halts (buf : buffer) (p : Z) :
  extract_mthd buf p <> Timeout.
Proof. unfold extract_mthd. halts. Qed.

#[local] Hint Resolve write_midi_halts count_mtrk_halts extract_mthd_halts
  : halts.

(** ** What one pass of the orchestrator's loop can do *)

Lemma recovery_search_Some (buf : buffer) (pos : Z) (n : nat) (j0 j : Z) :
  recovery_search buf pos n j0 = Done (Some j) ->
  j0 <= j < j0 + Z.of_nat n /\ strncmp_eq buf (pos + j) MTrk = Done true.
Proof.
  revert j0. induction n as [|n IH]; intros j0 H; cbn [recovery_search] in H.
  - discriminate.
  - apply bind_Done in H. destruct H as (h & _ & H). destruct h.
    + discriminate.
    + apply bind_Done in H. destruct H as (t & Ht & H). destruct t.
      * inversion H; subst. split; [lia|exact Ht].
      * apply IH in H. split; [lia|tauto].
Qed.

Lemma smart_body_pass (g : Z -> bool) (buf : buffer) (base eof maxd : Z)
    (st st' : sx_state) (c : bool) :
  smart_body g buf base eof maxd st = Done (c, st') ->
  pass g buf base st c st'.
Proof.
  unfold smart_body. intros H.
  apply bind_Done in H. destruct H as (h & Hh & H). destruct h.
  - inversion H; subst. apply pass_stop.
    rewrite (MThd_excludes_MTrk _ _ Hh). discriminate.
  - apply bind_Done in H. destruct H as (t & Ht & H). destruct t;
      cbn [negb] in H.
    + apply bind_Done in H. destruct H as (o & Ho & H).
      destruct o as [nt|]; [|discriminate].
      inversion H; subst. eapply pass_track; eauto.
    + apply bind_Done in H. destruct H as (r & Hr & H).
      destruct r as [j|]; inversion H; subst.
      * apply recovery_search_Some in Hr. destruct Hr as [Hj Hr].
        apply pass_resync; [exact Ht|lia|exact Hr].
      * apply pass_stop. rewrite Ht. discriminate.
Qed.

(** ** The orchestrator's loop ends within its fuel *)

Lemma smart_loop_halts (g : Z -> bool) (buf : buffer) (base eof maxd : Z) :
  forall (fuel : nat) (st : sx_state),
    0 <= numtracks (sx_midi st) < 65536 ->
    0 <= sx_curtrack st ->
    sx_curtrack st < numtracks (sx_midi st) \/ sx_curtrack st = 0 ->
    (sx_measure buf base st < fuel)%nat ->
    smart_loop g fuel buf base eof maxd st <> Timeout.
Proof.
  induction fuel as [|fuel IH]; intros st Hnt Hc Hinv Hm; [lia|].
  rewrite smart_loop_S. apply bind_halts; [apply smart_body_halts|].
  intros [c st'] Hb. cbn [fst snd]. destruct c; [|discriminate].
  apply smart_body_pass in Hb. unfold sx_measure in Hm.
  inversion Hb as [ | j Ht Hj Ht' | t Ht He Hcont ]; subst; clear Hb.
  - apply IH; cbn [sx_i sx_curtrack sx_midi set_damaged numtracks];
      try assumption.
    unfold sx_measure.
    cbn [sx_i sx_curtrack sx_midi set_damaged numtracks].
    rewrite Z.add_assoc, Ht'. rewrite Ht in Hm. lia.
  - rewrite Hcont in Ht. apply negb_true_iff in Hcont.
    apply Z.leb_gt in Hcont.
    assert (Hu : 0 <= u16 (sx_curtrack st + 1))
      by (unfold u16; apply Z.mod_pos_bound; lia).
    assert (Hlt : sx_curtrack st < numtracks (sx_midi st)).
    { destruct Hinv as [Hlt|Hz]; [exact Hlt|]. rewrite Hz in *. lia. }
    assert (Hs : u16 (sx_curtrack st + 1) = sx_curtrack st + 1)
      by (unfold u16; apply Z.mod_small; lia).
    apply IH; cbn [sx_i sx_curtrack sx_midi add_track numtracks];
      try assumption; try lia.
    unfold sx_measure.
    cbn [sx_i sx_curtrack sx_midi add_track numtracks].
    rewrite Ht in Hm. rewrite Hs.
    destruct (strncmp_eq buf
                (base + (sx_i st + mtrk_advance (g (sx_curtrack st)) t))
                MTrk) as [[|]| |]; lia.
Qed.

(** * No pass moves backwards or out of the buffer *)

Lemma memcmp_eq_bounds (buf : buffer) (p : Z) (c : byte) (pat : list byte)
    (r : bool) :
  memcmp_eq buf p (c :: pat) = Done r ->
  0 <= p /\ p + Z.of_nat (length (c :: pat)) <= filesize buf.
Proof.
  unfold memcmp_eq. intros H. apply bind_Done in H.
  destruct H as (bs & H & _).
  apply rd_n_Done in H; [tauto|simpl length; lia].
Qed.

Lemma rd_n_extent (buf : buffer) (p n : Z) (l : list byte) :
  rd_n buf p n = Done l -> 0 < n -> p + n <= filesize buf.
Proof. intros H Hn. apply rd_n_Done in H; tauto. Qed.

Section Progress.

Variable buf : buffer.
Hypothesis small : filesize buf + 4 < 4294967296.

(** The advance for an extracted track is never negative and stays inside
    the buffer: the parser has read the buffer up to there.  It is zero in
    one case only: the chunk declares 4294967292 bytes, so that no branch
    of the parser assigns the flag or the data, and the block's flag byte
    is found nonzero. *)
Lemma extract_mtrk_advance_bounds (a : Z) (t : mtrk) (stale : bool) :
  extract_mtrk buf a = Done (Some t) ->
  0 <= mtrk_advance stale t /\
  a + mtrk_advance stale t <= filesize buf /\
  (mtrk_advance stale t = 0 ->
   declared_size buf a = Done 4294967292 /\ data t = None /\ stale = true).
Proof.
  unfold extract_mtrk. intros H.
  apply bind_Done in H. destruct H as (tg & Htg & H).
  destruct tg; cbn [negb] in H; [|discriminate].
  assert (Hab : 0 <= a /\ a + 4 <= filesize buf)
    by exact (strncmp_eq_bounds _ _ _ _ Htg).
  apply bind_Done in H. destruct H as (sz & Hsz & H).
  pose proof (declared_size_range _ _ _ Hsz) as Hr.
  apply bind_Done in H. destruct H as (e4 & He4 & H).
  assert (Hp4 : 0 <= a + u32 (sz + 4) /\ a + u32 (sz + 4) + 4 <= filesize buf)
    by exact (memcmp_eq_bounds _ _ _ _ _ He4).
  assert (Hacc : forall d,
             rd_n buf (a + 8) sz = Done d -> a + 8 + sz <= filesize buf).
  { intros d Hd. destruct (Z.eq_dec sz 0) as [->|Hnz].
    - change (u32 (0 + 4)) with 4 in Hp4. lia.
    - apply rd_n_extent in Hd; lia. }
  assert (Hintact : forall d,
             rd_n buf (a + 8) sz = Done d ->
             t = {| size := sz; extratrunc := Some false; data := Some d |} ->
             0 <= mtrk_advance stale t /\
             a + mtrk_advance stale t <= filesize buf /\
             (mtrk_advance stale t = 0 ->
              declared_size buf a = Done 4294967292 /\ data t = None /\
              stale = true)).
  { intros d Hd ->. apply Hacc in Hd. unfold mtrk_advance, flag_read.
    simpl. unfold u32. rewrite Z.mod_small by lia. lia. }
  destruct e4.
  { apply bind_Done in H. destruct H as (d & Hd & H).
    apply (Hintact d Hd). congruence. }
  apply bind_Done in H. destruct H as (e3 & _ & H).
  destruct e3.
  { apply bind_Done in H. destruct H as (d & Hd & H).
    apply (Hintact d Hd). congruence. }
  apply bind_Done in H. destruct H as ([found ptr] & Hb & H).
  destruct found.
  - apply bind_Done in H. destruct H as (d & _ & H).
    inversion H; subst t; clear H.
    apply backtrack_true in Hb. destruct Hb as [Hr' Hp].
    assert (Hpb : 0 <= a + ptr /\ a + ptr + 4 <= filesize buf)
      by exact (strncmp_eq_bounds _ _ _ _ Hp).
    assert (H8 : 8 < ptr) by lia.
    unfold mtrk_advance, flag_read. simpl.
    unfold u32. rewrite (Z.mod_small (ptr - 8)) by lia.
    rewrite (Z.mod_small (ptr - 8 + 4)) by lia.
    rewrite Z.mod_small by lia. lia.
  - destruct (Z.eqb_spec ptr 8) as [->|Hne].
    + apply bind_Done in H. destruct H as (d & Hd & H).
      inversion H; subst t; clear H.
      apply backtrack_false in Hb.
      assert (Hnz : sz <> 0).
      { intros ->. change (u32 (0 + 4)) with 4 in Hb. simpl in Hb. lia. }
      apply Hacc in Hd.
      unfold mtrk_advance, flag_read. simpl.
      unfold u32. rewrite (Z.mod_small (sz + 4)) by lia.
      rewrite Z.mod_small by lia. lia.
    + inversion H; subst t; clear H.
      apply backtrack_false in Hb.
      assert (Hm : 0 <= u32 (sz + 4) < 8).
      { pose proof (Z.mod_pos_bound (sz + 4) 4294967296 ltac:(lia)) as Hm.
        fold (u32 (sz + 4)) in Hm. lia. }
      assert (H8 : u32 (sz + 8) = u32 (sz + 4) + 4).
      { unfold u32 in *. replace (sz + 8) with (sz + 4 + 4) by lia.
        rewrite <- Z.add_mod_idemp_l by lia.
        apply Z.mod_small. lia. }
      unfold mtrk_advance, flag_read. cbn [extratrunc size data].
      rewrite H8. destruct stale.
      * split; [lia|]. split; [lia|]. intros Hz.
        assert (Hsz4 : sz = 4294967292).
        { unfold u32 in Hz, Hm. Z.div_mod_to_equations. lia. }
        subst sz. auto.
      * split; [lia|]. split; [lia|]. intros Hz. lia.
Qed.

Variables base eof maxd : Z.
Variable g : Z -> bool.

Lemma pass_progress (st st' : sx_state) (c : bool) :
  pass g buf base st c st' ->
  0 <= sx_i st ->
  smart_body g buf base eof maxd st = Done (c, st') ->
  sx_i st <= sx_i st' /\
  base + sx_i st' <= filesize buf /\
  (forall t, In t (track0 (sx_midi st)) -> In t (track0 (sx_midi st'))) /\
  (strncmp_eq buf (base + sx_i st) MTrk = Done true ->
   sx_i st < sx_i st' \/ stalls g buf base st st').
Proof.
  intros Hp Hi Hb.
  assert (Hin : base + sx_i st < filesize buf).
  { unfold smart_body in Hb. apply bind_Done in Hb.
    destruct Hb as (h & Hh & _). simpl in Hh.
    apply bind_Done in Hh. destruct Hh as (b & Hh & _).
    apply rd_bounds in Hh. lia. }
  inversion Hp as [ Hn | j Ht Hj Ht' | t Ht He ]; subst; simpl.
  - split; [lia|]. split; [lia|]. split; [auto|].
    intros Ht. contradiction.
  - assert (Hjb : 0 <= base + sx_i st + j /\
                  base + sx_i st + j + 4 <= filesize buf)
      by exact (strncmp_eq_bounds _ _ _ _ Ht').
    split; [lia|]. split; [lia|]. split; [auto|]. intros _. lia.
  - destruct (extract_mtrk_advance_bounds _ _ (g (sx_curtrack st)) He)
      as (H1 & H2 & H3).
    split; [lia|]. split; [lia|].
    split; [intros t' Ht'; apply in_or_app; auto|].
    intros _.
    destruct (Z.eq_dec (mtrk_advance (g (sx_curtrack st)) t) 0) as [Hz|Hnz];
      [|left; lia].
    right. destruct (H3 Hz) as (Hd & Hdata & Hg).
    split; [exact Hd|]. split; [exact Hg|].
    exists t. split; [|exact Hdata].
    cbn [sx_midi add_track track0]. apply in_or_app. right. left. reflexivity.
Qed.

Lemma smart_loop_progress :
  forall (fuel : nat) (st st' : sx_state),
    smart_loop g fuel buf base eof maxd st = Done st' ->
    0 <= sx_i st ->
    sx_i st <= sx_i st' /\
    base + sx_i st' <= filesize buf /\
    (forall t, In t (track0 (sx_midi st)) -> In t (track0 (sx_midi st'))) /\
    (strncmp_eq buf (base + sx_i st) MTrk = Done true ->
     sx_i st < sx_i st' \/ stalls g buf base st st').
Proof.
  induction fuel as [|fuel IH]; intros st st' H Hi; [discriminate|].
  rewrite smart_loop_S in H. apply bind_Done in H.
  destruct H as ([c st1] & Hb & H). cbn [fst snd] in H.
  pose proof (pass_progress _ _ _ (smart_body_pass _ _ _ _ _ _ _ _ Hb) Hi Hb)
    as (P1 & P2 & P3 & P4).
  destruct c.
  - apply IH in H; [|lia]. destruct H as (Q1 & Q2 & Q3 & _).
    split; [lia|]. split; [lia|]. split; [auto|].
    intros Ht. destruct (P4 Ht) as [Hlt|(Hd & Hg & t & Hin & Hdata)];
      [left; lia|].
    right. split; [exact Hd|]. split; [exact Hg|]. exists t. auto.
  - inversion H; subst. auto.
Qed.

End Progress.

(** * The scanning loop *)

Lemma count_mtrk_range (buf : buffer) (n : nat) (j cnt r : Z) :
  count_mtrk buf n j cnt = Done r ->
  0 <= cnt < 65536 -> 0 <= r < 65536.
Proof.
  revert j cnt. induction n as [|n IH]; intros j cnt H Hc;
    cbn [count_mtrk] in H.
  - inversion H; subst. exact Hc.
  - apply bind_Done in H. destruct H as (h & _ & H). destruct h.
    + inversion H; subst. exact Hc.
    + apply bind_Done in H. destruct H as (t & _ & H).
      apply IH in H; [exact H|]. destruct t; [|exact Hc].
      unfold u16. apply Z.mod_pos_bound. lia.
Qed.

Lemma extract_mthd_numtracks (buf : buffer) (p : Z) (m : mthd) :
  extract_mthd buf p = Done (Some m) -> 0 <= numtracks m < 65536.
Proof.
  unfold extract_mthd. intros H.
  apply bind_Done in H. destruct H as (t & _ & H).
  destruct t; cbn [negb] in H; [|discriminate].
  repeat (apply bind_Done in H; destruct H as (? & _ & H)).
  inversion H; subst. simpl. unfold u16. apply Z.mod_pos_bound. lia.
Qed.

Lemma smart_extract_halts (can_open : filename -> bool) (g : Z -> bool)
    (midi : mthd) (buf : buffer) (base eof maxd offset : Z) :
  0 <= numtracks midi < 65536 ->
  smart_extract can_open g midi buf base eof maxd offset <> Timeout.
Proof.
  intros Hn. unfold smart_extract. apply bind_halts.
  - apply smart_loop_halts; cbn [sx_i sx_curtrack sx_midi sx_init];
      try lia.
    unfold sx_measure, sx_fuel.
    cbn [sx_i sx_curtrack sx_midi sx_init].
    destruct (strncmp_eq buf (base + 0) MTrk) as [[|]| |]; lia.
  - intros st _. apply bind_halts; [apply write_midi_halts|].
    intros; discriminate.
Qed.

Lemma scan_step_halts (can_open : filename -> bool) (g : Z -> bool)
    (buf : buffer) (i : Z) :
  scan_step can_open g buf i <> Timeout.
Proof.
  unfold scan_step. apply bind_halts; [apply strncmp_eq_halts|].
  intros t _. destruct t.
  - unfold orphan_branch. apply bind_halts; [apply count_mtrk_halts|].
    intros cnt Hc. apply count_mtrk_range in Hc; [|lia].
    apply bind_halts; [|intros; discriminate].
    apply smart_extract_halts. exact Hc.
  - apply bind_halts; [apply strncmp_eq_halts|].
    intros h _. destruct h; [|discriminate].
    unfold header_branch. apply bind_halts; [apply extract_mthd_halts|].
    intros o Ho. destruct o as [midi|]; [|discriminate].
    apply extract_mthd_numtracks in Ho.
    apply bind_halts; [|intros; discriminate].
    apply smart_extract_halts. exact Ho.
Qed.

Lemma smart_extract_Done (can_open : filename -> bool) (g : Z -> bool)
    (midi : mthd) (buf : buffer) (base eof maxd offset c : Z)
    (w : write_result) :
  smart_extract can_open g midi buf base eof maxd offset = Done (c, w) ->
  exists st,
    smart_loop g (sx_fuel midi) buf base eof maxd (sx_init midi) = Done st /\
    c = u32 (sx_i st) /\
    write_midi can_open (sx_midi st)
      {| fn_offset := offset; fn_status := classify (sx_midi st) |} = Done w.
Proof.
  unfold smart_extract. fold (sx_init midi). intros H.
  apply bind_Done in H. destruct H as (st & Hl & H).
  apply bind_Done in H. destruct H as (w' & Hw & H).
  inversion H; subst. eauto.
Qed.

(** [write_mtrk] gets through a list only if every track in it has its
    data assigned. *)
Lemma write_mtrk_Done_data (ts : list mtrk) (b : list byte) :
  write_mtrk ts = Done b -> forall t, In t ts -> data t <> None.
Proof.
  revert b. induction ts as [|t0 ts IH]; intros b H t Hin; [contradiction|].
  cbn [write_mtrk] in H. destruct (data t0) as [d|] eqn:Ed; [|discriminate].
  destruct (Z.of_nat (length d) <? size t0); [discriminate|].
  apply bind_Done in H. destruct H as (rest & Hr & _).
  destruct Hin as [<-|Hin]; [congruence|]. eapply IH; eauto.
Qed.

Lemma write_midi_file_data (can_open : filename -> bool) (m : mthd)
    (name : filename) (w : write_result) (t : mtrk) :
  write_midi can_open m name = Done w ->
  In t (track0 m) -> data t = None ->
  wr_file w = None /\ can_open name = false.
Proof.
  unfold write_midi. intros H Hin Hd.
  destruct (track0 m) as [|t0 ts] eqn:Et; [contradiction|].
  destruct (can_open name); cbn [negb] in H;
    [|inversion H; split; reflexivity].
  apply bind_Done in H. destruct H as (b & Hb & _).
  exfalso. exact (write_mtrk_Done_data _ _ Hb t Hin Hd).
Qed.

(** What one pass of the scanning loop adds to [i].  At an orphan track
    tag it adds nothing in one case only: the chunk declares 4294967292
    bytes, the flag byte of the first block is found nonzero, and no file
    is written. *)
Lemma scan_step_progress (can_open : filename -> bool) (g : Z -> bool)
    (buf : buffer) (i i' : Z) (fs : list file) :
  filesize buf + 4 < 4294967296 ->
  0 <= i ->
  scan_step can_open g buf i = Done (i', fs) ->
  (strncmp_eq buf i MTrk = Done false /\
   strncmp_eq buf i MThd = Done false /\ i' = i + 1 /\ fs = []) \/
  (strncmp_eq buf i MThd = Done true /\
   exists midi c w,
     smart_extract can_open g midi buf (i + 14)
       (u64 (filesize buf - (i + 14))) 32768 i = Done (c, w) /\
     0 <= c /\ i' = i + 14 + c /\ i' <= filesize buf /\ fs = files_of w) \/
  (strncmp_eq buf i MTrk = Done true /\
   exists midi c w,
     smart_extract can_open g midi buf i
       (u64 (filesize buf - i)) 32768 i = Done (c, w) /\
     0 <= c /\ i' = i + c /\ i' <= filesize buf /\ fs = files_of w /\
     (c = 0 ->
      declared_size buf i = Done 4294967292 /\ g 0 = true /\
      wr_file w = None /\
      exists name, fn_offset name = i /\ can_open name = false)).
Proof.
  intros Hsmall Hi H. unfold scan_step in H.
  apply bind_Done in H. destruct H as (t & Ht & H). destruct t.
  - right. right. split; [exact Ht|].
    unfold orphan_branch in H.
    apply bind_Done in H. destruct H as (cnt & _ & H).
    apply bind_Done in H. destruct H as ([c w] & Hx & H).
    inversion H; subst. do 3 eexists. split; [exact Hx|]. cbn [fst snd].
    apply smart_extract_Done in Hx. destruct Hx as (st & Hl & -> & Hw).
    apply (smart_loop_progress buf Hsmall) in Hl; [|simpl; lia].
    cbn [sx_init sx_i sx_curtrack] in Hl.
    destruct Hl as (Hge & Hb & _ & Hpos).
    rewrite Z.add_0_r in Hpos. specialize (Hpos Ht).
    assert (Hu : u32 (sx_i st) = sx_i st)
      by (unfold u32; apply Z.mod_small; lia).
    rewrite Hu. split; [lia|]. split; [reflexivity|]. split; [lia|].
    split; [reflexivity|]. intros Hz.
    destruct Hpos as [Hlt|(Hd & Hg & t & Hin & Hdata)]; [lia|].
    cbn [sx_init sx_i sx_curtrack] in Hd, Hg. rewrite Z.add_0_r in Hd.
    split; [exact Hd|]. split; [exact Hg|].
    destruct (write_midi_file_data _ _ _ _ _ Hw Hin Hdata) as [Hf Ho].
    split; [exact Hf|]. eexists. split; [|exact Ho]. reflexivity.
  - apply bind_Done in H. destruct H as (h & Hh & H). destruct h.
    + right. left. split; [exact Hh|].
      unfold header_branch in H.
      apply bind_Done in H. destruct H as (o & _ & H).
      destruct o as [midi|]; [|discriminate].
      apply bind_Done in H. destruct H as ([c w] & Hx & H).
      inversion H; subst. exists midi, c, w. split; [exact Hx|].
      cbn [fst snd].
      apply smart_extract_Done in Hx. destruct Hx as (st & Hl & -> & _).
      apply (smart_loop_progress buf Hsmall) in Hl; [|simpl; lia].
      cbn [sx_init sx_i] in Hl. destruct Hl as (Hge & Hb & _).
      assert (Hu : u32 (sx_i st) = sx_i st)
        by (unfold u32; apply Z.mod_small; lia).
      rewrite Hu. repeat split; lia.
    + left. inversion H; subst. auto.
Qed.

(** A pass never moves the offset backwards; one that writes a file, or
    that finds the flag byte of its first block zero, or that is made
    where every file can be opened, moves it forward. *)
Lemma scan_step_increases (can_open : filename -> bool) (g : Z -> bool)
    (buf : buffer) (i i' : Z) (fs : list file) :
  filesize buf + 4 < 4294967296 ->
  0 <= i ->
  scan_step can_open g buf i = Done (i', fs) ->
  i <= i' /\
  (fs <> [] \/ g 0 = false \/ (forall name, can_open name = true) ->
   i < i').
Proof.
  intros Hs Hi H.
  destruct (scan_step_progress _ _ _ _ _ _ Hs Hi H)
    as [(_ & _ & -> & _)
       |[(_ & m & c & w & _ & Hc & -> & _)
        |(_ & m & c & w & _ & Hc & -> & _ & -> & Hz)]];
    try (split; [lia|intros _; lia]).
  split; [lia|]. intros Hor.
  destruct (Z.eq_dec c 0) as [E|E]; [|lia].
  destruct (Hz E) as (_ & Hg & Hw & name & _ & Ho).
  unfold files_of in Hor. rewrite Hw in Hor.
  destruct Hor as [Hne|[Hg'|Hall]];
    [contradiction Hne; reflexivity|congruence|].
  rewrite Hall in Ho. discriminate.
Qed.

(** * A well-formed file in the buffer *)

Lemma be16_value (z : Z) :
  0 <= z < 65536 ->
  u16 (byte_val (to_byte (z / 256)) * 256 + byte_val (to_byte z)) = z.
Proof.
  intros Hz. rewrite !byte_val_to_byte. unfold u16.
  rewrite Z.mod_small; Z.div_mod_to_equations; lia.
Qed.

Lemma size_buffer_small (z : Z) :
  0 <= z < 1677216 -> size_buffer z = be32 z.
Proof.
  intros Hz. unfold size_buffer, be32.
  rewrite (Z.mod_small z 1677216) by lia.
  rewrite to_byte_mod.
  replace (z / 1677216) with 0 by (Z.div_mod_to_equations; lia).
  replace (z / 16777216) with 0 by (Z.div_mod_to_equations; lia).
  replace (to_byte (z mod 65536 / 256)) with (to_byte (z / 256)).
  - reflexivity.
  - rewrite <- (to_byte_mod (z mod 65536 / 256)), <- (to_byte_mod (z / 256)).
    f_equal. Z.div_mod_to_equations. lia.
Qed.

Lemma extract_mthd_at (pre rest : list byte) (ty nt dv : Z) :
  0 <= ty < 65536 -> 0 <= nt < 65536 -> 0 <= dv < 65536 ->
  extract_mthd
    (pre ++ MThd ++ be32 6 ++ be16 ty ++ be16 nt ++ be16 dv ++ rest)
    (Z.of_nat (length pre))
  = Done (Some (parsed_header
                  (if (ty =? 0) && negb (nt =? 1) then 1 else ty) nt dv)).
Proof.
  intros Hty Hnt Hdv.
  set (hdr := MThd ++ be32 6 ++ be16 ty ++ be16 nt ++ be16 dv).
  assert (V : rd_n (pre ++ hdr ++ rest) (Z.of_nat (length pre)) 14 = Done hdr)
    by exact (rd_n_at pre hdr rest).
  replace (pre ++ MThd ++ be32 6 ++ be16 ty ++ be16 nt ++ be16 dv ++ rest)
    with (pre ++ hdr ++ rest)
    by (unfold hdr; rewrite <- !app_assoc; reflexivity).
  remember (pre ++ hdr ++ rest) as buf eqn:Eb.
  unfold extract_mthd.
  assert (Ht : strncmp_eq buf (Z.of_nat (length pre)) MThd = Done true).
  { rewrite (strncmp_eq_view _ MThd MThd _ 4).
    - reflexivity.
    - rewrite <- (Z.add_0_r (Z.of_nat (length pre))).
      rewrite (rd_n_sub _ _ _ 0 4 _ V) by lia. reflexivity.
    - reflexivity. }
  rewrite Ht. cbn [bind negb].
  rewrite (rd_n_rdz _ _ _ 4 _ _ V) by first [lia | reflexivity].
  rewrite (rd_n_rdz _ _ _ 5 _ _ V) by first [lia | reflexivity].
  rewrite (rd_n_rdz _ _ _ 6 _ _ V) by first [lia | reflexivity].
  rewrite (rd_n_rdz _ _ _ 7 _ _ V) by first [lia | reflexivity].
  rewrite (rd_n_rdz _ _ _ 8 _ _ V) by first [lia | reflexivity].
  rewrite (rd_n_rdz _ _ _ 9 _ _ V) by first [lia | reflexivity].
  rewrite (rd_n_rdz _ _ _ 10 _ _ V) by first [lia | reflexivity].
  rewrite (rd_n_rdz _ _ _ 11 _ _ V) by first [lia | reflexivity].
  rewrite (rd_n_rdz _ _ _ 12 _ _ V) by first [lia | reflexivity].
  rewrite (rd_n_rdz _ _ _ 13 _ _ V) by first [lia | reflexivity].
  cbn [bind]. rewrite !be16_value by assumption. reflexivity.
Qed.

Lemma with_tracks_add (m : mthd) (t : mtrk) (ts : list mtrk) :
  with_tracks (add_track m t) ts = with_tracks m (t :: ts).
Proof.
  unfold with_tracks, add_track. simpl. rewrite <- app_assoc. reflexivity.
Qed.

(** An accepted track has its flag assigned: what the block held before
    does not matter. *)
Lemma mtrk_advance_intact (stale : bool) (payload : list byte) :
  Z.of_nat (length payload) + 8 < 4294967296 ->
  mtrk_advance stale (intact payload) = Z.of_nat (length payload) + 8.
Proof.
  intros H. unfold mtrk_advance, flag_read, intact. simpl. unfold u32.
  apply Z.mod_small. lia.
Qed.

(** The orchestrator over a run of well-formed chunks lying in the
    buffer: one pass per chunk, each stored as it is. *)
Lemma smart_loop_chunks (g : Z -> bool) (buf : buffer) (base eof maxd : Z) :
  forall (rem : list (list byte)) (l1 l2 : list byte) (fuel : nat)
         (st : sx_state),
    buf = l1 ++ concat (map chunk rem) ++ l2 ->
    base + sx_i st = Z.of_nat (length l1) ->
    rem <> [] ->
    Forall terminated rem ->
    Forall (fun p => Z.of_nat (length p) + 8 < 4294967296) rem ->
    0 <= sx_curtrack st ->
    sx_curtrack st + Z.of_nat (length rem) = numtracks (sx_midi st) ->
    numtracks (sx_midi st) < 65536 ->
    (length rem <= fuel)%nat ->
    smart_loop g fuel buf base eof maxd st
    = Done {| sx_i := sx_i st + Z.of_nat (length (concat (map chunk rem)));
              sx_curtrack := numtracks (sx_midi st);
              sx_midi := with_tracks (sx_midi st) (map intact rem) |}.
Proof.
  induction rem as [|p rem IH];
    intros l1 l2 fuel st Hbuf Hpos Hne Hterm Hlen Hc Hn Hnt Hf;
    [congruence|].
  destruct fuel as [|fuel]; [simpl in Hf; lia|].
  inversion Hterm as [|? ? Hp Hterm']. inversion Hlen as [|? ? Hlp Hlen'].
  clear Hterm Hlen. subst x x0 l l0.
  set (post := concat (map chunk rem) ++ l2).
  assert (Hbuf' : buf = l1 ++ chunk p ++ post).
  { rewrite Hbuf. cbn [map concat]. unfold post.
    rewrite <- !app_assoc. reflexivity. }
  assert (Ht : strncmp_eq buf (base + sx_i st) MTrk = Done true)
    by (rewrite Hbuf', Hpos; apply chunk_tag).
  assert (He : extract_mtrk buf (base + sx_i st) = Done (Some (intact p)))
    by (rewrite Hbuf', Hpos; apply chunk_extract_intact; assumption).
  rewrite smart_loop_S.
  rewrite (smart_body_track _ _ _ _ _ _ _ Ht He). cbn [bind fst snd].
  rewrite mtrk_advance_intact by lia.
  simpl length in Hn.
  assert (Hu : u16 (sx_curtrack st + 1) = sx_curtrack st + 1)
    by (unfold u16; apply Z.mod_small; lia).
  rewrite Hu.
  destruct rem as [|p' rem].
  - simpl in Hn.
    replace (numtracks (sx_midi st) <=? sx_curtrack st + 1) with true
      by (symmetry; apply Z.leb_le; lia).
    cbn [negb]. f_equal. cbn [map concat]. rewrite app_nil_r.
    rewrite chunk_length. f_equal. lia.
  - replace (numtracks (sx_midi st) <=? sx_curtrack st + 1) with false
      by (symmetry; apply Z.leb_gt; simpl length in Hn; lia).
    cbn [negb].
    rewrite (IH (l1 ++ chunk p) l2); cbn [sx_i sx_curtrack sx_midi].
    + f_equal. rewrite with_tracks_add. f_equal.
      cbn [map concat].
      rewrite (length_app (chunk p)), Nat2Z.inj_add, chunk_length. lia.
    + rewrite Hbuf'. unfold post. rewrite <- !app_assoc. reflexivity.
    + rewrite length_app, Nat2Z.inj_add, chunk_length. lia.
    + discriminate.
    + assumption.
    + assumption.
    + lia.
    + simpl numtracks. simpl length in *. lia.
    + exact Hnt.
    + simpl length in *. lia.
Qed.

Lemma write_mtrk_intact (payload : list byte) (next : list mtrk) :
  write_mtrk (intact payload :: next)
  = rest <- write_mtrk next ;;
    Done (MTrk ++ size_buffer (Z.of_nat (length payload)) ++ payload ++ rest).
Proof.
  simpl. destruct (Z.ltb_spec (Z.of_nat (length payload))
                              (Z.of_nat (length payload))); [lia|].
  rewrite Nat2Z.id, firstn_all. reflexivity.
Qed.

Lemma write_mtrk_chunks (payloads : list (list byte)) :
  Forall (fun p => Z.of_nat (length p) < 1677216) payloads ->
  write_mtrk (map intact payloads) = Done (concat (map chunk payloads)).
Proof.
  induction payloads as [|p ps IH]; intros H.
  - reflexivity.
  - inversion H as [|? ? Hp Hps]; subst.
    cbn [map]. rewrite write_mtrk_intact, (IH Hps). cbn [bind].
    rewrite size_buffer_small by lia.
    cbn [concat]. unfold chunk. rewrite <- !app_assoc. reflexivity.
Qed.

Lemma write_midi_clean (can_open : filename -> bool) (ty n dv : Z)
    (payloads : list (list byte)) (name : filename) :
  payloads <> [] ->
  Forall (fun p => Z.of_nat (length p) < 1677216) payloads ->
  can_open name = true ->
  write_midi can_open
    (with_tracks (parsed_header ty n dv) (map intact payloads)) name
  = Done {| wr_ret := 0;
            wr_log := " Success!  Wrote file to disk."%string;
            wr_file :=
              Some {| f_name := name;
                      f_bytes :=
                        MThd ++ [x00; x00; x00; x06]
                          ++ [ to_byte (ty / 256); to_byte (ty mod 256);
                               to_byte (n / 256); to_byte (n mod 256);
                               to_byte (dv / 256); to_byte (dv mod 256) ]
                          ++ concat (map chunk payloads) |} |}.
Proof.
  intros Hne Hsmall Hopen. unfold write_midi.
  cbn [with_tracks parsed_header track0 app miditype numtracks timecode].
  destruct (map intact payloads) as [|t ts] eqn:E.
  - destruct payloads; [congruence|discriminate].
  - rewrite <- E, Hopen. cbn [negb].
    rewrite (write_mtrk_chunks payloads Hsmall). reflexivity.
Qed.

Lemma midi_file_length (ty dv : Z) (payloads : list (list byte)) :
  Z.of_nat (length (midi_file ty dv payloads))
  = 14 + Z.of_nat (length (concat (map chunk payloads))).
Proof.
  unfold midi_file. rewrite !length_app.
  change (length MThd) with 4%nat. change (length (be32 6)) with 4%nat.
  change (length (be16 ty)) with 2%nat.
  change (length (be16 (Z.of_nat (length payloads)))) with 2%nat.
  change (length (be16 dv)) with 2%nat. lia.
Qed.

(** The scanner standing at the first byte of a well-formed file. *)
Lemma scan_step_midi (can_open : filename -> bool) (g : Z -> bool)
    (pre post : list byte) (ty dv : Z) (payloads : list (list byte)) :
  well_formed_midi ty dv payloads ->
  Forall (fun p => Z.of_nat (length p) < 1677216) payloads ->
  Z.of_nat (length (midi_file ty dv payloads)) < 4294967296 ->
  can_open {| fn_offset := Z.of_nat (length pre); fn_status := OK |} = true ->
  scan_step can_open g (pre ++ midi_file ty dv payloads ++ post)
            (Z.of_nat (length pre))
  = Done (Z.of_nat (length pre)
          + Z.of_nat (length (midi_file ty dv payloads)),
          [clean_file (Z.of_nat (length pre)) (midi_file ty dv payloads)]).
Proof.
  intros (Hty & Hdv & Hn & Hfmt & Hterm) Hsmall Hfs Hopen.
  set (n := Z.of_nat (length payloads)) in *.
  set (o := Z.of_nat (length pre)) in *.
  set (body := concat (map chunk payloads)).
  set (hdr := MThd ++ be32 6 ++ be16 ty ++ be16 n ++ be16 dv).
  assert (Ef : midi_file ty dv payloads = hdr ++ body)
    by (unfold midi_file, hdr, body; fold n; rewrite <- !app_assoc;
        reflexivity).
  assert (Eb : pre ++ midi_file ty dv payloads ++ post
               = pre ++ MThd ++ be32 6 ++ be16 ty ++ be16 n ++ be16 dv
                     ++ body ++ post)
    by (unfold midi_file; fold n; fold body; rewrite <- !app_assoc;
        reflexivity).
  assert (Eb2 : pre ++ midi_file ty dv payloads ++ post
                = (pre ++ hdr) ++ body ++ post)
    by (rewrite Ef, <- !app_assoc; reflexivity).
  assert (Hbody : Z.of_nat (length (midi_file ty dv payloads))
                  = 14 + Z.of_nat (length body))
    by apply midi_file_length.
  remember (pre ++ midi_file ty dv payloads ++ post) as buf eqn:Ebuf.
  assert (Hlen : filesize buf = o + 14 + Z.of_nat (length body)
                                + Z.of_nat (length post)).
  { unfold filesize. rewrite Ebuf, !length_app. fold o. lia. }
  (* the header *)
  assert (Hh : strncmp_eq buf o MThd = Done true)
    by (rewrite Eb; apply strncmp_eq_at).
  assert (Hm : extract_mthd buf o = Done (Some (parsed_header ty n dv))).
  { rewrite Eb. unfold o. rewrite extract_mthd_at by (assumption || lia).
    replace ((ty =? 0) && negb (n =? 1)) with false; [reflexivity|].
    symmetry. destruct (Z.eqb_spec ty 0) as [Hz|]; [|reflexivity].
    apply Hfmt in Hz. unfold n. rewrite Hz. reflexivity. }
  (* the tracks *)
  assert (Hloop :
    smart_loop g (sx_fuel (parsed_header ty n dv)) buf (o + 14)
               (u64 (filesize buf - (o + 14))) 32768
               (sx_init (parsed_header ty n dv))
    = Done {| sx_i := Z.of_nat (length body);
              sx_curtrack := n;
              sx_midi := with_tracks (parsed_header ty n dv)
                                     (map intact payloads) |}).
  { rewrite (smart_loop_chunks g buf (o + 14) _ _ payloads (pre ++ hdr) post);
      cbn [sx_init sx_i sx_curtrack sx_midi parsed_header numtracks].
    - reflexivity.
    - exact Eb2.
    - rewrite length_app. unfold o. simpl. lia.
    - intros ->. simpl in n. unfold n in Hn. lia.
    - exact Hterm.
    - eapply Forall_impl; [|exact Hsmall]. simpl. intros; lia.
    - lia.
    - fold n. lia.
    - lia.
    - unfold sx_fuel. simpl numtracks. unfold n. lia. }
  (* the file *)
  assert (Hw :
    write_midi can_open
      (with_tracks (parsed_header ty n dv) (map intact payloads))
      {| fn_offset := o; fn_status := OK |}
    = Done {| wr_ret := 0;
              wr_log := " Success!  Wrote file to disk."%string;
              wr_file := Some (clean_file o (midi_file ty dv payloads)) |}).
  { rewrite write_midi_clean; try assumption.
    - rewrite !to_byte_mod. unfold clean_file, midi_file. fold n. fold body.
      reflexivity.
    - intros ->. simpl in n. unfold n in Hn. lia. }
  rewrite (scan_step_header _ _ _ _ Hh). unfold header_branch.
  rewrite Hm. cbn [bind].
  rewrite (smart_extract_eq _ _ _ _ _ _ _ _ _ Hloop).
  cbn [sx_midi sx_i].
  change (classify (with_tracks (parsed_header ty n dv) (map intact payloads)))
    with OK.
  rewrite Hw. cbn [bind fst snd files_of wr_file].
  unfold u32. rewrite Z.mod_small by lia.
  f_equal. f_equal. lia.
Qed.

Lemma main_loop_skip (can_open : filename -> bool)
    (heap : nat -> Z -> bool) (buf : buffer) (fuel : nat) :
  forall (k : nat) (i : Z),
    0 <= i ->
    i + Z.of_nat k <= filesize buf ->
    (forall q, i <= q < i + Z.of_nat k ->
       strncmp_eq buf q MTrk = Done false /\
       strncmp_eq buf q MThd = Done false) ->
    main_loop can_open heap (k + fuel) buf i
    = main_loop can_open heap fuel buf (i + Z.of_nat k).
Proof.
  induction k as [|k IH]; intros i Hi Hk Hq.
  - simpl. rewrite Z.add_0_r. reflexivity.
  - destruct (Hq i ltac:(lia)) as [Ht Hh].
    assert (Hs : scan_step can_open (heap (k + fuel)%nat) buf i
                 = Done (i + 1, []))
      by (unfold scan_step; rewrite Ht, Hh; reflexivity).
    change (S k + fuel)%nat with (S (k + fuel)).
    assert (Hlt : i < filesize buf) by lia.
    rewrite (main_loop_S _ _ _ _ _ _ _ Hlt Hs).
    rewrite IH; [|lia|lia|intros q Hq'; apply Hq; lia].
    replace (i + 1 + Z.of_nat k) with (i + Z.of_nat (S k)) by lia.
    destruct (main_loop can_open heap fuel buf (i + Z.of_nat (S k))). reflexivity.
Qed.

(** C7, as amended.  A well-formed MIDI file shorter than 2^32 bytes
    whose tracks are all shorter than 1677216 bytes lies in a buffer, and
    the scan stands at an offset [i0] before it from which no position up
    to the file carries a chunk tag: the scanner writes the file back byte
    for byte under the status OK at its offset and resumes the scan right
    behind it.  In particular, scanning such a file alone writes that very
    file and nothing else. *)
Theorem scanner_reproduces_well_formed_midi
    (can_open : filename -> bool) (heap : nat -> Z -> bool)
    (pre post : list byte) (ty dv : Z) (payloads : list (list byte))
    (i0 : Z) (fuel : nat) :
  let f := midi_file ty dv payloads in
  let buf := pre ++ f ++ post in
  let o := Z.of_nat (length pre) in
  well_formed_midi ty dv payloads ->
  Forall (fun p => Z.of_nat (length p) < 1677216) payloads ->
  Z.of_nat (length f) < 4294967296 ->
  0 <= i0 <= o ->
  no_tag_between buf i0 o ->
  can_open {| fn_offset := o; fn_status := OK |} = true ->
  main_loop can_open heap (Z.to_nat (o - i0) + S fuel) buf i0
  = (clean_file o f
       :: fst (main_loop can_open heap fuel buf (o + Z.of_nat (length f))),
     snd (main_loop can_open heap fuel buf (o + Z.of_nat (length f)))) /\
  (can_open {| fn_offset := 0; fn_status := OK |} = true ->
   main_loop can_open heap (S fuel) f 0 = ([clean_file 0 f], Finished)).
Proof.
  intros f buf o Hwf Hsmall Hfs Hi0 Hpre Hopen.
  assert (Hlen : filesize buf = o + Z.of_nat (length f)
                                + Z.of_nat (length post))
    by (unfold filesize, buf; rewrite !length_app; fold o; lia).
  assert (Hf14 : 14 <= Z.of_nat (length f))
    by (unfold f; rewrite midi_file_length; lia).
  split.
  - rewrite (main_loop_skip can_open heap buf (S fuel)
               (Z.to_nat (o - i0)) i0);
      [|lia|lia|intros q Hq; apply Hpre; lia].
    replace (i0 + Z.of_nat (Z.to_nat (o - i0))) with o by lia.
    assert (Hlt : o < filesize buf) by lia.
    rewrite (main_loop_S can_open heap fuel buf o _ _ Hlt
               (scan_step_midi can_open (heap fuel) pre post ty dv payloads
                  Hwf Hsmall Hfs Hopen)).
    reflexivity.
  - intros Hopen0.
    pose proof (scan_step_midi can_open (heap fuel) [] [] ty dv payloads
                  Hwf Hsmall Hfs Hopen0) as Hs.
    cbn [app length Z.of_nat Z.add] in Hs.
    rewrite app_nil_r in Hs. fold f in Hs.
    assert (Hlt : 0 < filesize f) by (unfold filesize; lia).
    rewrite (main_loop_S can_open heap fuel f 0 _ _ Hlt Hs).
    rewrite main_loop_end by (unfold filesize; lia). reflexivity.
Qed.

Lemma scanner_reproduces_well_formed_midi_witness :
  let f := midi_file 1 96 [[x00; x90; x3c; x40; x00; xff; x2f; x00];
                           [x83; x60; xff; x2f; x00]] in
  let buf := (MTrk ++ [x00; x4d; x54; x00]) ++ f ++ [x00; x4d] in
  well_formed_midi 1 96 [[x00; x90; x3c; x40; x00; xff; x2f; x00];
                         [x83; x60; xff; x2f; x00]] /\
  strncmp_eq buf 0 MTrk = Done true /\
  no_tag_between buf 5 8 /\
  main_loop always_open zeroed_heap 4 buf 5
  = (clean_file 8 f
       :: fst (main_loop always_open zeroed_heap 0 buf
                 (8 + Z.of_nat (length f))),
     snd (main_loop always_open zeroed_heap 0 buf
            (8 + Z.of_nat (length f)))) /\
  main_loop always_open zeroed_heap 1 f 0 = ([clean_file 0 f], Finished).
Proof.
  intros f buf.
  assert (Hwf : well_formed_midi 1 96
                  [[x00; x90; x3c; x40; x00; xff; x2f; x00];
                   [x83; x60; xff; x2f; x00]]).
  { unfold well_formed_midi. simpl. repeat split; try lia.
    apply Forall_cons; [|apply Forall_cons; [|apply Forall_nil]].
    - left. exists [x00; x90; x3c; x40]. reflexivity.
    - right. exists [x83; x60]. reflexivity. }
  assert (Hpre : no_tag_between buf 5 8).
  { intros q Hq. assert (E : q = 5 \/ q = 6 \/ q = 7) by lia.
    destruct E as [->|[->| ->]]; split; vm_compute; reflexivity. }
  split; [exact Hwf|]. split; [vm_compute; reflexivity|].
  split; [exact Hpre|].
  assert (Hsmall : Forall (fun p => Z.of_nat (length p) < 1677216)
                    [[x00; x90; x3c; x40; x00; xff; x2f; x00];
                     [x83; x60; xff; x2f; x00]]).
  { apply Forall_cons; [|apply Forall_cons; [|apply Forall_nil]];
      simpl; lia. }
  assert (Hfs : Z.of_nat (length f) < 4294967296)
    by (vm_compute; reflexivity).
  destruct (scanner_reproduces_well_formed_midi
              always_open zeroed_heap (MTrk ++ [x00; x4d; x54; x00])
              [x00; x4d] 1 96
              [[x00; x90; x3c; x40; x00; xff; x2f; x00];
               [x83; x60; xff; x2f; x00]] 5 0 Hwf Hsmall Hfs
              ltac:(simpl; lia) Hpre eq_refl)
    as [Hscan Hidem].
  split; [exact Hscan|exact (Hidem eq_refl)].
Defined.

(** * The code on concrete buffers *)


(** C1.  The length field that [write_mtrk] puts after the tag is
    [size_buffer] of the stored length, whose first byte is the length
    divided by 1677216 and not by 16777216: for a track of 1677216 bytes it
    writes 01 00 97 A0, where the big-endian encoding is 00 19 97 A0. *)
Theorem write_mtrk_length_field_wrong_divisor :
  (forall payload next,
      write_mtrk (intact payload :: next)
      = rest <- write_mtrk next ;;
        Done (MTrk ++ size_buffer (Z.of_nat (length payload))
                   ++ payload ++ rest)) /\
  size_buffer 1677216 = [x01; x00; x97; xa0] /\
  be32 1677216 = [x00; x19; x97; xa0].
Proof.
  split; [exact write_mtrk_intact|].
  split; vm_compute; reflexivity.
Qed.

(** C2.  On a 12-byte buffer holding a track chunk that declares 16 bytes,
    the parser's probe for the end-of-track marker reads position 20, past
    the end of the buffer: the run ends in the out-of-bounds read, with no
    error value in between. *)
Theorem track_probe_reads_past_buffer (heap : nat -> Z -> bool) :
  filesize blob_short_track = 12 /\
  extract_mtrk blob_short_track 0 = Crash (OutOfBounds 20) /\
  main_loop always_open heap 10 blob_short_track 0
  = ([], Crashed (OutOfBounds 20)).
Proof. vm_compute. auto. Qed.

(** C3.  A 12-byte track overwritten from payload byte 4 on by a header
    tag found at position 12: the stored length is (12 - 8) + 4 = 8 and the
    repair flag is set, but the 8 bytes that the track holds and that get
    written are the 4 original bytes followed by the tag [MThd] itself; the
    end-of-track marker sits beyond the stored length. *)
Theorem backtrack_repair_keeps_header_tag :
  strncmp_eq blob_overwritten 12 MThd = Done true /\
  extract_mtrk blob_overwritten 0
  = Done (Some {| size := 8;
                  extratrunc := Some true;
                  data := Some ([x01; x02; x03; x04] ++ MThd
                                  ++ [x00; x00; x00; x06]
                                  ++ end_of_track) |}) /\
  write_mtrk [ {| size := 8;
                  extratrunc := Some true;
                  data := Some ([x01; x02; x03; x04] ++ MThd
                                  ++ [x00; x00; x00; x06]
                                  ++ end_of_track) |} ]
  = Done (MTrk ++ [x00; x00; x00; x08] ++ [x01; x02; x03; x04] ++ MThd).
Proof. vm_compute. auto. Qed.

(** C4.  Header at 0, one track at 14..24, then three bytes without a tag
    up to the end of the 28-byte buffer.  The recovery search starts at
    offset 25 with 3 bytes left, but the bound it loops under is the
    distance to the end measured from offset 14, where the structure began,
    which lets [j] run up to 13: it goes on to position 28 and reads past
    the end. *)
Theorem recovery_search_bound_from_structure_start
    (g : Z -> bool) (heap : nat -> Z -> bool) :
  filesize blob_lost_sync = 28 /\
  smart_body g blob_lost_sync 14 (u64 (filesize blob_lost_sync - 14)) 32768
    (sx_init (parsed_header 1 2 96))
  = Done (true,
          {| sx_i := 11; sx_curtrack := 1;
             sx_midi := with_tracks (parsed_header 1 2 96)
                                    [intact [xff; x2f; x00]] |}) /\
  filesize blob_lost_sync - (14 + 11) = 3 /\
  Z.min (u64 (filesize blob_lost_sync - 14)) 32768 - 1 = 13 /\
  recovery_search blob_lost_sync (14 + 11)
    (Z.to_nat (Z.min (u64 (filesize blob_lost_sync - 14)) 32768 - 1)) 1
  = Crash (OutOfBounds 28) /\
  main_loop always_open heap 10 blob_lost_sync 0
  = ([], Crashed (OutOfBounds 28)).
Proof. vm_compute. repeat split; reflexivity. Qed.

(** C8.  A header declaring zero tracks followed by a well-formed track:
    the loop takes the track and stops, the declared count is left as it
    was, and the file written says 00 00 tracks while holding one. *)
Theorem track_count_not_recomputed_when_zero_declared
    (heap : nat -> Z -> bool) :
  main_loop always_open heap 10 blob_zero_declared 0
  = ([ {| f_name := {| fn_offset := 0; fn_status := OK |};
          f_bytes := MThd ++ [x00; x00; x00; x06]
                          ++ [x00; x01] ++ [x00; x00] ++ [x00; x60]
                          ++ chunk end_of_track |} ],
     Finished).
Proof. vm_compute. reflexivity. Qed.

(** C7, the claim as stated fails.  A well-formed one-track file lying in
    the payload of a track chunk that is itself properly terminated: the
    scan takes the outer chunk as an orphan track and consumes the whole
    buffer, so the only file written is the orphan reconstruction and the
    embedded file is not reproduced. *)
Lemma nested_midi_not_reconstructed :
  well_formed_midi 0 96 [end_of_track] /\
  blob_nested
  = (MTrk ++ [x00; x00; x00; x1e]) ++ midi_file 0 96 [end_of_track]
      ++ end_of_track /\
  (forall heap, exists orphan,
     main_loop always_open heap 10 blob_nested 0 = ([orphan], Finished) /\
     f_name orphan = {| fn_offset := 0; fn_status := ORPH |} /\
     f_bytes orphan <> midi_file 0 96 [end_of_track]).
Proof.
  split.
  - unfold well_formed_midi. simpl. repeat split; try lia.
    constructor; [|constructor]. left. exists []. reflexivity.
  - split; [reflexivity|]. intros heap.
    eexists. split; [vm_compute; reflexivity|].
    split; [reflexivity|]. simpl. intros H. apply bytes_eqb_true in H.
    vm_compute in H. discriminate.
Qed.

(** C6.  A track chunk that declares no payload at all, so that its
    payload ends with no end-of-track event: both probes fail, the backward
    loop starts at 4 and does not run, and 4 is not 8, so no branch of the
    parser assigns the repair flag or the data.  What the caller then reads
    as the flag is whatever the block held: on a zeroed block it reads "no
    repair" and advances by L + 8 = 8 as for an accepted track, on a dirty
    one it advances by 4.  The track is counted and stored either way, and
    the scan goes on behind it. *)
Theorem unassigned_flag_read_as_no_repair :
  let t := {| size := 0; extratrunc := None; data := None |} in
  let orphan := {| miditype := 1; numtracks := 1; timecode := 120;
                   is_damaged := true; is_generated := true;
                   track0 := [] |} in
  blob_empty_chunk = chunk [] ++ [x00] /\
  ~ terminated [] /\
  extract_mtrk blob_empty_chunk 0 = Done (Some t) /\
  (forall stale, flag_read stale t = stale) /\
  mtrk_advance false t = 8 /\
  mtrk_advance true t = 4 /\
  smart_loop zeroed (sx_fuel orphan) blob_empty_chunk 0 9 32768
    (sx_init orphan)
  = Done {| sx_i := 8; sx_curtrack := 1;
            sx_midi := add_track orphan t |} /\
  smart_loop dirty (sx_fuel orphan) blob_empty_chunk 0 9 32768
    (sx_init orphan)
  = Done {| sx_i := 4; sx_curtrack := 1;
            sx_midi := add_track orphan t |} /\
  main_loop never_open zeroed_heap 10 blob_empty_chunk 0 = ([], Finished).
Proof.
  intros t orphan. split; [reflexivity|]. split.
  { intros [[p H]|[p H]]; destruct p; discriminate. }
  split; [vm_compute; reflexivity|].
  split; [intros stale; reflexivity|].
  repeat (split; [vm_compute; reflexivity|]).
  vm_compute. reflexivity.
Qed.

(** C10.  The 8-byte buffer that holds one track tag declaring 4294967292
    bytes.  Every read of the pass at offset 0 lies inside the buffer; no
    branch of the parser assigns the repair flag; [size + 8] wraps to 4, and
    when the flag byte of the block is found nonzero the caller takes these
    4 off again.  When the output file cannot be opened, the pass is
    complete with [i] where it was, and the scanning loop never ends:
    whatever fuel it is given, it runs out of it at offset 0. *)
Theorem scan_stands_still_on_wrapping_length (fuel : nat) :
  let t := {| size := 4294967292; extratrunc := None; data := None |} in
  filesize blob_stall = 8 /\
  extract_mtrk blob_stall 0 = Done (Some t) /\
  u32 (size t + 8) = 4 /\
  mtrk_advance true t = 0 /\
  scan_step never_open dirty blob_stall 0 = Done (0, []) /\
  main_loop never_open dirty_heap fuel blob_stall 0 = ([], OutOfFuel).
Proof.
  intros t. split; [reflexivity|].
  split; [vm_compute; reflexivity|].
  split; [vm_compute; reflexivity|].
  split; [vm_compute; reflexivity|].
  assert (Hs : scan_step never_open dirty blob_stall 0 = Done (0, []))
    by (vm_compute; reflexivity).
  split; [exact Hs|].
  induction fuel as [|fuel IH]; [reflexivity|].
  rewrite (main_loop_S never_open dirty_heap fuel blob_stall 0 0 []);
    [|vm_compute; reflexivity|exact Hs].
  rewrite IH. reflexivity.
Qed.

(** * Further properties of the code *)

(** ** The header parser *)

Lemma be16_val_range (hi lo : byte) : 0 <= be16_val hi lo < 65536.
Proof.
  unfold be16_val. pose proof (byte_val_range hi). pose proof (byte_val_range lo).
  lia.
Qed.

Lemma be16_val_be16 (z : Z) :
  0 <= z < 65536 -> be16_val (to_byte (z / 256)) (to_byte (z mod 256)) = z.
Proof.
  intros Hz. unfold be16_val. rewrite !byte_val_to_byte.
  Z.div_mod_to_equations. lia.
Qed.

Lemma extract_mthd_view (buf : buffer) (p n : Z)
    (l0 l1 l2 l3 t0 t1 n0 n1 d0 d1 : byte) (rest : list byte) :
  rd_n buf p n
  = Done (MThd ++ [l0; l1; l2; l3] ++ [t0; t1; n0; n1; d0; d1] ++ rest) ->
  extract_mthd buf p
  = Done (Some (parsed_header
                  (coerce_type (be16_val t0 t1) (be16_val n0 n1))
                  (be16_val n0 n1) (be16_val d0 d1))).
Proof.
  intros V. unfold extract_mthd.
  assert (Hn : 14 <= n).
  { destruct (Z.leb_spec n 0) as [Hn|Hn].
    - unfold rd_n in V. destruct (Z.leb_spec n 0); [discriminate|lia].
    - apply rd_n_length in V; [|lia]. rewrite <- V, !length_app.
      simpl length. lia. }
  assert (Ht : strncmp_eq buf p MThd = Done true).
  { rewrite (strncmp_eq_view _ MThd MThd _ 4).
    - reflexivity.
    - rewrite <- (Z.add_0_r p).
      rewrite (rd_n_sub _ _ _ 0 4 _ V) by lia. reflexivity.
    - reflexivity. }
  rewrite Ht. cbn [bind negb].
  rewrite (rd_n_rdz _ _ _ 4 _ _ V) by first [lia | reflexivity].
  rewrite (rd_n_rdz _ _ _ 5 _ _ V) by first [lia | reflexivity].
  rewrite (rd_n_rdz _ _ _ 6 _ _ V) by first [lia | reflexivity].
  rewrite (rd_n_rdz _ _ _ 7 _ _ V) by first [lia | reflexivity].
  rewrite (rd_n_rdz _ _ _ 8 _ _ V) by first [lia | reflexivity].
  rewrite (rd_n_rdz _ _ _ 9 _ _ V) by first [lia | reflexivity].
  rewrite (rd_n_rdz _ _ _ 10 _ _ V) by first [lia | reflexivity].
  rewrite (rd_n_rdz _ _ _ 11 _ _ V) by first [lia | reflexivity].
  rewrite (rd_n_rdz _ _ _ 12 _ _ V) by first [lia | reflexivity].
  rewrite (rd_n_rdz _ _ _ 13 _ _ V) by first [lia | reflexivity].
  cbn [bind]. fold (be16_val t0 t1) (be16_val n0 n1) (be16_val d0 d1).
  unfold u16. rewrite !Z.mod_small by apply be16_val_range.
  reflexivity.
Qed.

Lemma extract_mthd_fields
    (pre rest : list byte) (l0 l1 l2 l3 t0 t1 n0 n1 d0 d1 : byte) :
  extract_mthd
    (pre ++ MThd ++ [l0; l1; l2; l3] ++ [t0; t1; n0; n1; d0; d1] ++ rest)
    (Z.of_nat (length pre))
  = Done (Some (parsed_header
                  (coerce_type (be16_val t0 t1) (be16_val n0 n1))
                  (be16_val n0 n1) (be16_val d0 d1))).
Proof.
  set (hdr := MThd ++ [l0; l1; l2; l3] ++ [t0; t1; n0; n1; d0; d1] ++ []).
  pose proof (rd_n_at pre hdr rest) as V.
  replace (pre ++ hdr ++ rest)
    with (pre ++ MThd ++ [l0; l1; l2; l3] ++ [t0; t1; n0; n1; d0; d1] ++ rest)
    in V by reflexivity.
  exact (extract_mthd_view _ _ _ _ _ _ _ _ _ _ _ _ _ [] V).
Qed.

(** X1.  Wherever the tag [MThd] is followed by ten more bytes, the header
    parser succeeds, whatever the four bytes of the length field are: it
    takes the three 2-byte big-endian fields behind them, turns format 0
    with a track count other than 1 into format 1, and starts the header
    undamaged, not generated and without tracks. *)
Theorem extract_mthd_ignores_length_field
    (pre rest : list byte) (l0 l1 l2 l3 t0 t1 n0 n1 d0 d1 : byte) :
  extract_mthd
    (pre ++ MThd ++ [l0; l1; l2; l3] ++ [t0; t1; n0; n1; d0; d1] ++ rest)
    (Z.of_nat (length pre))
  = Done (Some {| miditype := coerce_type (be16_val t0 t1) (be16_val n0 n1);
                  numtracks := be16_val n0 n1;
                  timecode := be16_val d0 d1;
                  is_damaged := false;
                  is_generated := false;
                  track0 := [] |}).
Proof. apply extract_mthd_fields. Qed.

(** X2.  What [write_midi] writes, the header parser reads back: for a
    header whose three fields fit 16 bits, parsing the file written gives
    the same track count and division, and the same format unless it is
    format 0 with a count other than 1. *)
Theorem written_header_reads_back
    (can_open : filename -> bool) (midi : mthd) (name : filename)
    (w : write_result) (f : file) :
  0 <= miditype midi < 65536 ->
  0 <= numtracks midi < 65536 ->
  0 <= timecode midi < 65536 ->
  write_midi can_open midi name = Done w ->
  wr_file w = Some f ->
  extract_mthd (f_bytes f) 0
  = Done (Some (parsed_header
                  (coerce_type (miditype midi) (numtracks midi))
                  (numtracks midi) (timecode midi))).
Proof.
  intros Hty Hnt Htc Hw Hf. unfold write_midi in Hw.
  destruct (track0 midi) as [|t ts]; [inversion Hw; subst; discriminate|].
  destruct (can_open name); cbn [negb] in Hw;
    [|inversion Hw; subst; discriminate].
  apply bind_Done in Hw. destruct Hw as (tracks & _ & Hw).
  inversion Hw; subst w; clear Hw. simpl in Hf. inversion Hf; subst f; clear Hf.
  cbn [f_bytes].
  pose proof (extract_mthd_fields [] tracks x00 x00 x00 x06
                (to_byte (miditype midi / 256)) (to_byte (miditype midi mod 256))
                (to_byte (numtracks midi / 256)) (to_byte (numtracks midi mod 256))
                (to_byte (timecode midi / 256)) (to_byte (timecode midi mod 256)))
    as H.
  rewrite !be16_val_be16 in H by assumption. exact H.
Qed.

Lemma written_header_reads_back_witness :
  exists w f,
    write_midi always_open
      (with_tracks (parsed_header 0 2 96)
         [intact end_of_track; intact end_of_track])
      {| fn_offset := 0; fn_status := OK |} = Done w /\
    wr_file w = Some f /\
    extract_mthd (f_bytes f) 0 = Done (Some (parsed_header 1 2 96)).
Proof.
  do 2 eexists. split; [vm_compute; reflexivity|].
  split; [reflexivity|].
  eapply (written_header_reads_back always_open
            (with_tracks (parsed_header 0 2 96)
               [intact end_of_track; intact end_of_track])
            {| fn_offset := 0; fn_status := OK |}).
  - vm_compute. intuition discriminate.
  - vm_compute. intuition discriminate.
  - vm_compute. intuition discriminate.
  - vm_compute. reflexivity.
  - reflexivity.
Defined.

(** ** The track parser's recovery *)

Lemma backtrack_none (buf : buffer) (a : Z) :
  forall (n : nat) (top : Z),
    (forall q, top - Z.of_nat n < q <= top ->
               strncmp_eq buf (a + q) MThd = Done false) ->
    backtrack buf a n top = Done (false, top - Z.of_nat n).
Proof.
  induction n as [|n IH]; intros top Hq; cbn [backtrack].
  - f_equal. f_equal. lia.
  - rewrite (Hq top) by lia. cbn [bind].
    rewrite IH by (intros q Hq'; apply Hq; lia).
    f_equal. f_equal. lia.
Qed.

Lemma backtrack_true_above (buf : buffer) (a : Z) :
  forall (n : nat) (top ptr : Z),
    backtrack buf a n top = Done (true, ptr) ->
    forall q, ptr < q <= top -> strncmp_eq buf (a + q) MThd = Done false.
Proof.
  induction n as [|n IH]; intros top ptr H q Hq; cbn [backtrack] in H.
  - discriminate.
  - apply bind_Done in H. destruct H as (h & Hh & H). destruct h.
    + inversion H; subst. lia.
    + destruct (Z.eq_dec q top) as [->|Hne]; [exact Hh|].
      eapply IH; [exact H|]. apply backtrack_true in H. lia.
Qed.

(** X3.  The backward search of the track parser, started at relative
    position [top], answers "found at [ptr]" exactly when [ptr] carries the
    header tag, lies above 8 and at most at [top], and no position between
    [ptr] and [top] carries the tag: it finds the tag nearest to [top] and
    never one at or below position 8. *)
Theorem backtrack_finds_nearest_header (buf : buffer) (a top ptr : Z) :
  backtrack buf a (Z.to_nat (top - 8)) top = Done (true, ptr) <->
  8 < ptr <= top /\
  strncmp_eq buf (a + ptr) MThd = Done true /\
  (forall q, ptr < q <= top -> strncmp_eq buf (a + q) MThd = Done false).
Proof.
  split.
  - intros H. pose proof (backtrack_true _ _ _ _ _ H) as [Hr Hp].
    split; [lia|]. split; [exact Hp|].
    exact (backtrack_true_above _ _ _ _ _ H).
  - intros (Hr & Hp & Hq).
    apply (backtrack_found buf a ptr Hp (Z.to_nat (top - ptr)));
      [lia|lia|exact Hq].
Qed.

Section ChunkRepair.

Variables pre payload post : list byte.

Local Abbreviation buf := (pre ++ chunk payload ++ post).
Local Abbreviation a := (Z.of_nat (length pre)).
Local Abbreviation L := (Z.of_nat (length payload)).

Lemma chunk_unterminated_probes :
  L + 8 < 4294967296 ->
  ~ terminated payload ->
  memcmp_eq buf (a + u32 (L + 4)) end_of_track = Done false /\
  memcmp_eq buf (a + u32 (L + 5)) (tl end_of_track) = Done false.
Proof.
  intros HL Hno.
  destruct (chunk_memcmp pre payload post end_of_track)
    as (r4 & M4 & K4); [auto|lia|].
  destruct (chunk_memcmp pre payload post (tl end_of_track))
    as (r3 & M3 & K3); [auto|lia|].
  change (Z.of_nat (length end_of_track)) with 4 in M4.
  change (Z.of_nat (length (tl end_of_track))) with 3 in M3.
  unfold u32. rewrite !Z.mod_small by lia.
  replace (L + 4) with (L + 8 - 4) by lia.
  replace (L + 5) with (L + 8 - 3) by lia.
  rewrite M4, M3.
  destruct r4; [exfalso; apply Hno; left; apply K4; reflexivity|].
  destruct r3; [exfalso; apply Hno; right; apply K3; reflexivity|].
  auto.
Qed.

Lemma chunk_extract_damaged :
  4 <= L -> L + 12 < 4294967296 ->
  ~ terminated payload ->
  (forall q, 8 < q <= L + 4 -> strncmp_eq buf (a + q) MThd = Done false) ->
  extract_mtrk buf a
  = Done (Some {| size := L + 4; extratrunc := Some true;
                  data := Some (payload ++ end_of_track) |}).
Proof.
  intros H4 HL Hno Hq.
  destruct (chunk_unterminated_probes ltac:(lia) Hno) as [M4 M3].
  unfold extract_mtrk.
  rewrite chunk_tag. cbn [bind negb].
  rewrite chunk_declared_size by lia. cbn [bind].
  rewrite M4. cbn [bind]. rewrite M3. cbn [bind].
  unfold u32. rewrite !Z.mod_small by lia.
  rewrite backtrack_none.
  - cbn [bind]. replace (L + 4 - Z.of_nat (Z.to_nat (L + 4 - 8))) with 8 by lia.
    cbn [Z.eqb Pos.eqb]. rewrite chunk_payload. reflexivity.
  - intros q Hq'. apply Hq. lia.
Qed.

Lemma chunk_extract_unassigned :
  L < 4 ->
  ~ terminated payload ->
  extract_mtrk buf a
  = Done (Some {| size := L; extratrunc := None; data := None |}).
Proof.
  intros H4 Hno.
  destruct (chunk_unterminated_probes ltac:(lia) Hno) as [M4 M3].
  unfold extract_mtrk.
  rewrite chunk_tag. cbn [bind negb].
  rewrite chunk_declared_size by lia. cbn [bind].
  rewrite M4. cbn [bind]. rewrite M3. cbn [bind].
  unfold u32. rewrite !Z.mod_small by lia.
  replace (Z.to_nat (L + 4 - 8)) with 0%nat by lia.
  cbn [backtrack bind].
  destruct (Z.eqb_spec (L + 4) 8); [lia|reflexivity].
Qed.

Lemma chunk_extract_unassigned_short (t : mtrk) :
  L + 8 < 4294967296 ->
  extract_mtrk buf a = Done (Some t) ->
  extratrunc t = None ->
  L < 4 /\ ~ terminated payload.
Proof.
  intros HL H Hf.
  assert (Hno : ~ terminated payload).
  { intros Ht. rewrite (chunk_extract_intact pre payload post HL Ht) in H.
    inversion H; subst t. discriminate. }
  split; [|exact Hno].
  destruct (chunk_unterminated_probes HL Hno) as [M4 M3].
  unfold extract_mtrk in H.
  rewrite chunk_tag in H. cbn [bind negb] in H.
  rewrite chunk_declared_size in H by lia. cbn [bind] in H.
  rewrite M4 in H. cbn [bind] in H. rewrite M3 in H. cbn [bind] in H.
  apply bind_Done in H. destruct H as ([found ptr] & Hb & H).
  destruct found.
  - apply bind_Done in H. destruct H as (d & _ & H).
    inversion H; subst t. discriminate.
  - destruct (Z.eqb_spec ptr 8) as [->|Hne].
    + apply bind_Done in H. destruct H as (d & _ & H).
      inversion H; subst t. discriminate.
    + apply backtrack_false in Hb. unfold u32 in Hb.
      rewrite Z.mod_small in Hb by lia. lia.
Qed.

End ChunkRepair.

(** X4.  A track chunk of at least 4 payload bytes lying in the buffer,
    without end-of-track event at its end and without header tag in its
    claimed region: the parser keeps all declared bytes, appends the marker
    00 FF 2F 00, counts it in the stored length and sets the repair flag;
    the caller advances by the declared length plus 8, and the track is
    written as the original payload followed by the marker. *)
Theorem extract_mtrk_appends_marker (pre payload post : list byte) :
  let L := Z.of_nat (length payload) in
  let buf := pre ++ chunk payload ++ post in
  let a := Z.of_nat (length pre) in
  let t := {| size := L + 4; extratrunc := Some true;
              data := Some (payload ++ end_of_track) |} in
  4 <= L -> L + 12 < 4294967296 ->
  ~ terminated payload ->
  (forall q, 8 < q <= L + 4 -> strncmp_eq buf (a + q) MThd = Done false) ->
  extract_mtrk buf a = Done (Some t) /\
  (forall stale, mtrk_advance stale t = L + 8) /\
  write_mtrk [t]
  = Done (MTrk ++ size_buffer (L + 4) ++ payload ++ end_of_track).
Proof.
  intros L buf a t H4 HL Hno Hq. split; [|split].
  - apply chunk_extract_damaged; assumption.
  - intros stale. unfold mtrk_advance, flag_read, t. simpl. unfold u32.
    rewrite Z.mod_small by lia. lia.
  - unfold t. cbn [write_mtrk data size].
    rewrite length_app. simpl length.
    destruct (Z.ltb_spec (Z.of_nat (length payload + 4)) (L + 4)); [lia|].
    cbn [bind]. replace (Z.to_nat (L + 4)) with (length (payload ++ end_of_track))
      by (rewrite length_app; simpl; lia).
    rewrite firstn_all, app_nil_r. reflexivity.
Qed.

Lemma extract_mtrk_appends_marker_witness :
  let payload := [x00; x90; x3c; x40; x00; x80; x3c; x00] in
  let t := {| size := 12; extratrunc := Some true;
              data := Some (payload ++ end_of_track) |} in
  ~ terminated payload /\
  extract_mtrk ([x11] ++ chunk payload ++ [x22; x33]) 1 = Done (Some t) /\
  (forall stale, mtrk_advance stale t = 16) /\
  write_mtrk [t]
  = Done (MTrk ++ size_buffer 12 ++ payload ++ end_of_track).
Proof.
  intros payload t.
  assert (Hno : ~ terminated payload).
  { intros [[p Hp]|[p Hp]];
      apply (f_equal (@rev byte)) in Hp; rewrite rev_app_distr in Hp;
      simpl in Hp; discriminate. }
  split; [exact Hno|].
  apply (extract_mtrk_appends_marker [x11] payload [x22; x33]).
  - simpl. lia.
  - simpl. lia.
  - exact Hno.
  - intros q Hq. simpl in Hq.
    assert (E : q = 9 \/ q = 10 \/ q = 11 \/ q = 12) by lia.
    destruct E as [->|[->|[->| ->]]]; vm_compute; reflexivity.
Defined.

(** X5.  A track chunk of fewer than 4 payload bytes that does not end
    with FF 2F 00: neither repair branch of the parser runs and the track
    comes back with its repair flag and data unassigned.  The orchestrator's
    next statement reads that flag all the same: it advances by the
    declared length plus 8 when the flag byte of the block is found zero,
    by 4 less when it is not, and stores the track. *)
Theorem short_unterminated_chunk_leaves_flag_unassigned (g : Z -> bool)
    (pre payload post : list byte) (base eof maxd : Z) (st : sx_state) :
  let buf := pre ++ chunk payload ++ post in
  let L := Z.of_nat (length payload) in
  let t := {| size := L; extratrunc := None; data := None |} in
  L < 4 ->
  ~ terminated payload ->
  base + sx_i st = Z.of_nat (length pre) ->
  extract_mtrk buf (base + sx_i st) = Done (Some t) /\
  smart_body g buf base eof maxd st
  = Done (negb (numtracks (sx_midi st) <=? u16 (sx_curtrack st + 1)),
          {| sx_i := sx_i st
                     + (if g (sx_curtrack st) then L + 4 else L + 8);
             sx_curtrack := u16 (sx_curtrack st + 1);
             sx_midi := add_track (sx_midi st) t |}).
Proof.
  intros buf L t H4 Hno Hpos.
  assert (He : extract_mtrk buf (base + sx_i st) = Done (Some t))
    by (rewrite Hpos; apply chunk_extract_unassigned; assumption).
  split; [exact He|].
  assert (Ht : strncmp_eq buf (base + sx_i st) MTrk = Done true)
    by (rewrite Hpos; apply chunk_tag).
  rewrite (smart_body_track _ _ _ _ _ _ _ Ht He).
  unfold mtrk_advance, flag_read, t. cbn [extratrunc size].
  unfold u32. rewrite Z.mod_small by (unfold L; lia).
  destruct (g (sx_curtrack st)); [|reflexivity].
  replace (L + 8 - 4) with (L + 4) by lia. reflexivity.
Qed.

Lemma short_unterminated_chunk_leaves_flag_unassigned_witness :
  ~ terminated [] /\
  extract_mtrk ([] ++ chunk [] ++ [x00]) (0 + 0)
  = Done (Some {| size := 0; extratrunc := None; data := None |}) /\
  smart_body dirty ([] ++ chunk [] ++ [x00]) 0 9 32768
    (sx_init (parsed_header 1 1 120))
  = Done (false,
          {| sx_i := 4; sx_curtrack := 1;
             sx_midi := add_track (parsed_header 1 1 120)
                          {| size := 0; extratrunc := None;
                             data := None |} |}).
Proof.
  assert (Hno : ~ terminated []).
  { intros [[p Hp]|[p Hp]]; destruct p; discriminate. }
  split; [exact Hno|].
  apply (short_unterminated_chunk_leaves_flag_unassigned
           dirty [] [] [x00] 0 9 32768 (sx_init (parsed_header 1 1 120)));
    [simpl; lia|exact Hno|reflexivity].
Defined.

(** X21.  For a track chunk with declared length L (L + 8 below 2^32)
    lying in the buffer, the parser assigns the flag "no repair" exactly
    when the payload ends with 00 FF 2F 00 or with FF 2F 00; it leaves the
    flag unassigned exactly when the payload does not end so and is shorter
    than 4 bytes.  In the accepting case the track is the payload
    unaltered and the caller advances by L + 8, whatever the block held. *)
Theorem chunk_flag_assigned_unless_short
    (pre payload post : list byte) (t : mtrk) :
  let L := Z.of_nat (length payload) in
  let buf := pre ++ chunk payload ++ post in
  let a := Z.of_nat (length pre) in
  L + 8 < 4294967296 ->
  extract_mtrk buf a = Done (Some t) ->
  (extratrunc t = Some false <-> terminated payload) /\
  (extratrunc t = None <-> L < 4 /\ ~ terminated payload) /\
  (terminated payload ->
   t = intact payload /\ forall stale, mtrk_advance stale t = L + 8).
Proof.
  intros L buf a HL H. split; [|split].
  - eapply chunk_extract_flag; eauto.
  - split.
    + intros Hf. eapply chunk_extract_unassigned_short; eauto.
    + intros [H4 Hno].
      unfold buf, a in H.
      rewrite (chunk_extract_unassigned pre payload post H4 Hno) in H.
      inversion H; subst t. reflexivity.
  - intros Ht. unfold buf, a in H.
    rewrite (chunk_extract_intact pre payload post HL Ht) in H.
    inversion H; subst t. split; [reflexivity|].
    intros stale. apply mtrk_advance_intact. exact HL.
Qed.

Lemma chunk_flag_assigned_unless_short_witness :
  let payload := [x90; x3c; x40; x00; xff; x2f; x00] in
  terminated payload /\
  extract_mtrk ([x11] ++ chunk payload ++ [x22]) 1
  = Done (Some (intact payload)) /\
  extratrunc (intact payload) = Some false /\
  forall stale, mtrk_advance stale (intact payload) = 15.
Proof.
  intros payload.
  assert (Ht : terminated payload)
    by (left; exists [x90; x3c; x40]; reflexivity).
  assert (He : extract_mtrk ([x11] ++ chunk payload ++ [x22]) 1
               = Done (Some (intact payload)))
    by (vm_compute; reflexivity).
  destruct (chunk_flag_assigned_unless_short [x11] payload [x22]
              (intact payload) ltac:(simpl; lia) He)
    as (H1 & _ & H3).
  split; [exact Ht|]. split; [exact He|].
  split; [apply H1; exact Ht|]. exact (proj2 (H3 Ht)).
Defined.

(** ** The forward searches *)

Lemma strncmp_eq_in_bounds (buf : buffer) (p : Z) (tag : list byte) :
  0 <= p -> p + Z.of_nat (length tag) <= filesize buf ->
  exists b, strncmp_eq buf p tag = Done b.
Proof.
  intros Hp Hb.
  set (l := firstn (Z.to_nat (Z.of_nat (length tag)))
                   (skipn (Z.to_nat p) buf)).
  exists (bytes_eqb l tag).
  apply (strncmp_eq_view buf tag l p (Z.of_nat (length tag))).
  - apply rd_n_in; lia.
  - unfold l. rewrite length_firstn, length_skipn, Nat2Z.id.
    unfold filesize in Hb. lia.
Qed.

Lemma recovery_search_Some_before (buf : buffer) (pos : Z) :
  forall (n : nat) (j0 j : Z),
    recovery_search buf pos n j0 = Done (Some j) ->
    forall k, j0 <= k < j ->
      strncmp_eq buf (pos + k) MThd = Done false /\
      strncmp_eq buf (pos + k) MTrk = Done false.
Proof.
  induction n as [|n IH]; intros j0 j H k Hk; cbn [recovery_search] in H.
  - discriminate.
  - apply bind_Done in H. destruct H as (h & Hh & H).
    destruct h; [discriminate|].
    apply bind_Done in H. destruct H as (t & Ht & H). destruct t.
    + inversion H; subst. lia.
    + destruct (Z.eq_dec k j0) as [->|Hne]; [auto|].
      apply (IH _ _ H). lia.
Qed.

Lemma recovery_search_found (buf : buffer) (pos j : Z) :
  strncmp_eq buf (pos + j) MTrk = Done true ->
  forall (d n : nat) (j0 : Z),
    j = j0 + Z.of_nat d ->
    (d < n)%nat ->
    (forall k, j0 <= k < j ->
       strncmp_eq buf (pos + k) MThd = Done false /\
       strncmp_eq buf (pos + k) MTrk = Done false) ->
    recovery_search buf pos n j0 = Done (Some j).
Proof.
  intros Hj. induction d as [|d IH]; intros n j0 Hd Hn Hk;
    (destruct n as [|n]; [lia|]); cbn [recovery_search].
  - replace j0 with j by lia.
    rewrite (MTrk_excludes_MThd _ _ Hj), Hj. reflexivity.
  - destruct (Hk j0 ltac:(lia)) as [Hh Ht]. rewrite Hh, Ht. cbn [bind].
    apply IH; [lia|lia|]. intros k Hk'. apply Hk. lia.
Qed.

Lemma recovery_search_header (buf : buffer) (pos k : Z) :
  strncmp_eq buf (pos + k) MThd = Done true ->
  forall (d n : nat) (j0 : Z),
    k = j0 + Z.of_nat d ->
    (forall k', j0 <= k' < k ->
       strncmp_eq buf (pos + k') MThd = Done false /\
       strncmp_eq buf (pos + k') MTrk = Done false) ->
    recovery_search buf pos n j0 = Done None.
Proof.
  intros Hk. induction d as [|d IH]; intros n j0 Hd Hb;
    (destruct n as [|n]; [reflexivity|]); cbn [recovery_search].
  - replace j0 with k by lia. rewrite Hk. reflexivity.
  - destruct (Hb j0 ltac:(lia)) as [Hh Ht]. rewrite Hh, Ht. cbn [bind].
    apply IH; [lia|]. intros k' Hk'. apply Hb. lia.
Qed.

(** X6.  The recovery search over the offsets 1 .. n answers "track tag at
    [j]" exactly when [j] is the first offset in that range carrying a
    track tag and no earlier offset carries a header tag; and when a header
    tag comes before any track tag, it gives up: it never resynchronises
    across the start of another structure. *)
Theorem recovery_search_finds_first_track_before_header
    (buf : buffer) (pos : Z) (n : nat) :
  (forall j,
      recovery_search buf pos n 1 = Done (Some j) <->
      1 <= j <= Z.of_nat n /\
      strncmp_eq buf (pos + j) MTrk = Done true /\
      (forall k, 1 <= k < j ->
         strncmp_eq buf (pos + k) MThd = Done false /\
         strncmp_eq buf (pos + k) MTrk = Done false)) /\
  (forall k,
      1 <= k ->
      strncmp_eq buf (pos + k) MThd = Done true ->
      (forall k', 1 <= k' < k ->
         strncmp_eq buf (pos + k') MThd = Done false /\
         strncmp_eq buf (pos + k') MTrk = Done false) ->
      recovery_search buf pos n 1 = Done None).
Proof.
  split.
  - intros j. split.
    + intros H. pose proof (recovery_search_Some _ _ _ _ _ H) as [Hr Ht].
      split; [lia|]. split; [exact Ht|].
      exact (recovery_search_Some_before _ _ _ _ _ H).
    + intros (Hr & Ht & Hb).
      apply (recovery_search_found buf pos j Ht (Z.to_nat (j - 1)));
        [lia|lia|exact Hb].
  - intros k Hk Hh Hb.
    apply (recovery_search_header buf pos k Hh (Z.to_nat (k - 1)));
      [lia|exact Hb].
Qed.

Lemma count_mtrk_in_bounds (buf : buffer) :
  forall (n : nat) (j cnt : Z),
    0 <= j -> j + Z.of_nat n + 3 <= filesize buf ->
    0 <= cnt < 65536 ->
    exists c, count_mtrk buf n j cnt = Done c /\ 0 <= c < 65536.
Proof.
  induction n as [|n IH]; intros j cnt Hj Hb Hc; cbn [count_mtrk].
  - eauto.
  - destruct (strncmp_eq_in_bounds buf j MThd Hj) as [h Hh];
      [simpl length; lia|].
    destruct (strncmp_eq_in_bounds buf j MTrk Hj) as [t Ht];
      [simpl length; lia|].
    rewrite Hh. cbn [bind]. destruct h; [eauto|].
    rewrite Ht. cbn [bind]. apply IH; [lia|lia|].
    destruct t; [|exact Hc]. unfold u16. apply Z.mod_pos_bound. lia.
Qed.

(** X7.  The pre-scan that counts track tags for an orphan run stays
    inside the buffer: from any offset in the buffer it ends with a count
    that fits 16 bits, without reading past the last byte. *)
Theorem orphan_prescan_stays_in_bounds (buf : buffer) (i : Z) :
  0 <= i ->
  exists c,
    count_mtrk buf (Z.to_nat (filesize buf - 3 - i)) i 0 = Done c /\
    0 <= c < 65536.
Proof.
  intros Hi. destruct (Z.le_gt_cases (filesize buf - 3) i) as [Hle|Hgt].
  - replace (Z.to_nat (filesize buf - 3 - i)) with 0%nat by lia.
    exists 0. split; [reflexivity|lia].
  - apply count_mtrk_in_bounds; lia.
Qed.

Lemma orphan_prescan_stays_in_bounds_witness :
  exists c,
    count_mtrk blob_nested (Z.to_nat (filesize blob_nested - 3 - 0)) 0 0
    = Done c /\ 0 <= c < 65536.
Proof.
  apply (orphan_prescan_stays_in_bounds blob_nested 0). lia.
Defined.

Lemma strncmp_eq_first_differs (buf : buffer) (p : Z) (b c : byte)
    (tag : list byte) :
  rd buf p = Done b -> b <> c -> strncmp_eq buf p (c :: tag) = Done false.
Proof.
  intros Hb Hne. cbn [strncmp_eq]. rewrite Hb. cbn [bind].
  destruct (Byte.eqb b c) eqn:E; [|reflexivity].
  apply byte_eqb_eq in E. contradiction.
Qed.

Lemma rd_in_bounds (buf : buffer) (p : Z) :
  0 <= p < filesize buf ->
  exists b, rd buf p = Done b /\ In b buf.
Proof.
  intros Hp. destruct (nth_error buf (Z.to_nat p)) as [b|] eqn:E.
  - exists b. split; [apply rd_Done; split; [lia|exact E]|].
    eapply nth_error_In; eauto.
  - apply nth_error_None in E. unfold filesize in Hp. lia.
Qed.

(** X8.  A buffer that holds no byte 'M' (0x4D) anywhere: the scanner
    steps through it one byte at a time, writes no file and ends at the end
    of the buffer, within as many passes as the buffer has bytes. *)
Theorem scan_of_buffer_without_M_writes_nothing
    (can_open : filename -> bool) (heap : nat -> Z -> bool) (buf : buffer)
    (fuel : nat) :
  ~ In x4d buf ->
  main_loop can_open heap (length buf + fuel) buf 0 = ([], Finished).
Proof.
  intros Hno.
  rewrite (main_loop_skip can_open heap buf fuel (length buf) 0).
  - apply main_loop_end. unfold filesize. lia.
  - lia.
  - unfold filesize. lia.
  - intros q Hq.
    destruct (rd_in_bounds buf q) as (b & Hb & Hin);
      [unfold filesize; lia|].
    assert (Hne : b <> x4d) by (intros ->; contradiction).
    split; apply (strncmp_eq_first_differs _ _ _ _ _ Hb Hne).
Qed.

Lemma scan_of_buffer_without_M_writes_nothing_witness :
  ~ In x4d [x54; x72; x6b; x00; xff; x2f; x00] /\
  main_loop always_open dirty_heap (7 + 0)
    [x54; x72; x6b; x00; xff; x2f; x00] 0
  = ([], Finished).
Proof.
  assert (Hno : ~ In x4d [x54; x72; x6b; x00; xff; x2f; x00])
    by (simpl; intuition discriminate).
  split; [exact Hno|].
  exact (scan_of_buffer_without_M_writes_nothing
           always_open dirty_heap [x54; x72; x6b; x00; xff; x2f; x00] 0
           Hno).
Defined.

(** ** What the orchestrator stores and what gets written *)

Lemma u32_le (z : Z) : 0 <= z -> 0 <= u32 z <= z.
Proof.
  intros Hz. unfold u32. split.
  - apply Z.mod_pos_bound. lia.
  - apply Z.mod_le; lia.
Qed.

Lemma extract_mtrk_track_sound (buf : buffer) (a : Z) (t : mtrk) :
  extract_mtrk buf a = Done (Some t) -> track_sound t.
Proof.
  unfold extract_mtrk. intros H.
  apply bind_Done in H. destruct H as (tg & _ & H).
  destruct tg; cbn [negb] in H; [|discriminate].
  apply bind_Done in H. destruct H as (sz & Hsz & H).
  apply declared_size_range in Hsz.
  assert (Hintact : forall d,
             rd_n buf (a + 8) sz = Done d ->
             track_sound {| size := sz; extratrunc := Some false;
                            data := Some d |}).
  { intros d Hd. left. split; [discriminate|]. exists d.
    split; [reflexivity|]. apply rd_n_length in Hd; simpl; lia. }
  apply bind_Done in H. destruct H as (e4 & _ & H). destruct e4.
  { apply bind_Done in H. destruct H as (d & Hd & H).
    inversion H. apply Hintact. exact Hd. }
  apply bind_Done in H. destruct H as (e3 & _ & H). destruct e3.
  { apply bind_Done in H. destruct H as (d & Hd & H).
    inversion H. apply Hintact. exact Hd. }
  apply bind_Done in H. destruct H as ([found ptr] & Hb & H).
  destruct found.
  - apply bind_Done in H. destruct H as (d & Hd & H).
    inversion H; subst t; clear H.
    apply backtrack_true in Hb. destruct Hb as [Hr _].
    assert (H8 : 8 < ptr) by lia.
    apply rd_n_length in Hd; [|lia].
    left. split; [discriminate|]. eexists. split; [reflexivity|].
    cbn [size]. rewrite length_app. simpl length.
    pose proof (u32_le (ptr - 8) ltac:(lia)).
    pose proof (u32_le (u32 (ptr - 8) + 4) ltac:(lia)). lia.
  - destruct (Z.eqb_spec ptr 8) as [->|Hne].
    + apply bind_Done in H. destruct H as (d & Hd & H).
      inversion H; subst t; clear H.
      apply rd_n_length in Hd; [|lia].
      left. split; [discriminate|]. eexists. split; [reflexivity|].
      cbn [size]. rewrite length_app. simpl length.
      pose proof (u32_le (sz + 4) ltac:(lia)). lia.
    + inversion H; subst t. right. split; reflexivity.
Qed.

Lemma pass_tracks_sound (g : Z -> bool) (buf : buffer) (base : Z)
    (st st' : sx_state) (c : bool) :
  pass g buf base st c st' ->
  Forall track_sound (track0 (sx_midi st)) ->
  Forall track_sound (track0 (sx_midi st')).
Proof.
  intros Hp Hok.
  inversion Hp as [ Hn | j Ht Hj Ht' | t Ht He ]; subst; simpl;
    try exact Hok.
  apply Forall_app. split; [exact Hok|].
  apply Forall_cons; [|apply Forall_nil].
  eapply extract_mtrk_track_sound; eauto.
Qed.

Lemma smart_loop_tracks_sound (g : Z -> bool) (buf : buffer)
    (base eof maxd : Z) :
  forall (fuel : nat) (st st' : sx_state),
    smart_loop g fuel buf base eof maxd st = Done st' ->
    Forall track_sound (track0 (sx_midi st)) ->
    Forall track_sound (track0 (sx_midi st')).
Proof.
  induction fuel as [|fuel IH]; intros st st' H Hok; [discriminate|].
  rewrite smart_loop_S in H. apply bind_Done in H.
  destruct H as ([c st1] & Hb & H). cbn [fst snd] in H.
  apply smart_body_pass in Hb.
  pose proof (pass_tracks_sound _ _ _ _ _ _ Hb Hok) as Hok1.
  destruct c; [eapply IH; eauto|inversion H; subst; exact Hok1].
Qed.

Lemma write_mtrk_ok (ts : list mtrk) :
  Forall track_ok ts ->
  write_mtrk ts = Done (concat (map track_bytes ts)).
Proof.
  induction ts as [|t ts IH]; intros Hok; [reflexivity|].
  inversion Hok as [|? ? (_ & d & Hd & Hs) Hts]; subst.
  cbn [write_mtrk map concat]. unfold track_bytes. rewrite Hd.
  destruct (Z.ltb_spec (Z.of_nat (length d)) (size t)); [lia|].
  rewrite (IH Hts). cbn [bind]. rewrite <- !app_assoc. reflexivity.
Qed.

(** Writing tracks each of which is wholly assigned or wholly unassigned
    never reads beyond a data block: it gets through, or it stops at a
    track whose data were never assigned. *)
Lemma write_mtrk_sound (ts : list mtrk) :
  Forall track_sound ts ->
  (Forall track_ok ts /\
   write_mtrk ts = Done (concat (map track_bytes ts))) \/
  (Exists (fun t => data t = None) ts /\
   write_mtrk ts = Crash UninitRead).
Proof.
  induction ts as [|t ts IH]; intros Hs.
  - left. split; [apply Forall_nil|reflexivity].
  - inversion Hs as [|? ? Ht Hts]; subst.
    destruct Ht as [Hok|[_ Hd]].
    + destruct (IH Hts) as [[Hall Hw]|[Hex Hw]].
      * left. assert (Hall' : Forall track_ok (t :: ts))
          by (apply Forall_cons; assumption).
        split; [exact Hall'|]. apply write_mtrk_ok. exact Hall'.
      * right. split; [apply Exists_cons_tl; exact Hex|].
        destruct Hok as (_ & d & Hd & Hsz).
        cbn [write_mtrk]. rewrite Hd.
        destruct (Z.ltb_spec (Z.of_nat (length d)) (size t)); [lia|].
        rewrite Hw. reflexivity.
    + right. split; [apply Exists_cons_hd; exact Hd|].
      cbn [write_mtrk]. rewrite Hd. reflexivity.
Qed.

Lemma track_sound_ok (t : mtrk) :
  track_sound t -> data t <> None -> track_ok t.
Proof. intros [Hok|[_ Hd]] Hne; [exact Hok|contradiction]. Qed.

(** X9.  Writing a sequence of tracks is writing its parts one after the
    other: the tracks appear in the file in the order of the sequence, and
    the first track that cannot be written stops the writing. *)
Theorem write_mtrk_app (ts1 ts2 : list mtrk) :
  write_mtrk (ts1 ++ ts2)
  = b1 <- write_mtrk ts1 ;; b2 <- write_mtrk ts2 ;; Done (b1 ++ b2).
Proof.
  induction ts1 as [|t ts1 IH].
  - simpl. destruct (write_mtrk ts2); reflexivity.
  - cbn [app write_mtrk]. destruct (data t) as [d|]; [|reflexivity].
    destruct (Z.of_nat (length d) <? size t); [reflexivity|].
    rewrite IH.
    destruct (write_mtrk ts1) as [b1| |]; cbn [bind]; try reflexivity.
    destruct (write_mtrk ts2) as [b2| |]; cbn [bind]; try reflexivity.
    rewrite <- !app_assoc. reflexivity.
Qed.

(** X10.  Whatever the buffer holds, every track the orchestrator has
    stored when its loop ends is of one of two kinds: its repair flag and
    data are assigned and the data block holds at least its stored length,
    or neither was ever assigned.  So writing the stored tracks never reads
    beyond a data block: it yields, per track, the tag, the length field
    and the first [size] bytes of the block, unless some stored track is of
    the second kind; then it ends in the use of the unassigned pointer. *)
Theorem stored_tracks_write_or_were_never_assigned (g : Z -> bool)
    (buf : buffer) (base eof maxd : Z) (midi : mthd) (st : sx_state) :
  track0 midi = [] ->
  smart_loop g (sx_fuel midi) buf base eof maxd (sx_init midi) = Done st ->
  Forall track_sound (track0 (sx_midi st)) /\
  ((Forall track_ok (track0 (sx_midi st)) /\
    write_mtrk (track0 (sx_midi st))
    = Done (concat (map track_bytes (track0 (sx_midi st))))) \/
   (Exists (fun t => data t = None) (track0 (sx_midi st)) /\
    write_mtrk (track0 (sx_midi st)) = Crash UninitRead)).
Proof.
  intros Hempty Hl.
  assert (Hs : Forall track_sound (track0 (sx_midi st))).
  { eapply smart_loop_tracks_sound; [exact Hl|]. simpl. rewrite Hempty.
    apply Forall_nil. }
  split; [exact Hs|]. apply write_mtrk_sound. exact Hs.
Qed.

Lemma stored_tracks_write_or_were_never_assigned_witness :
  exists st,
    smart_loop dirty (sx_fuel (parsed_header 1 2 120))
      (chunk [x01; x02; x03; x04; x05] ++ chunk [] ++ [x00]) 0 30 32768
      (sx_init (parsed_header 1 2 120)) = Done st /\
    Forall track_sound (track0 (sx_midi st)) /\
    Exists (fun t => data t = None) (track0 (sx_midi st)) /\
    write_mtrk (track0 (sx_midi st)) = Crash UninitRead.
Proof.
  eexists. split; [vm_compute; reflexivity|].
  destruct (stored_tracks_write_or_were_never_assigned dirty
              (chunk [x01; x02; x03; x04; x05] ++ chunk [] ++ [x00])
              0 30 32768 (parsed_header 1 2 120) _ eq_refl
              ltac:(vm_compute; reflexivity))
    as (Hs & [[_ Hw]|[Hex Hw]]).
  - vm_compute in Hw. discriminate.
  - split; [exact Hs|]. split; [exact Hex|exact Hw].
Defined.

(** ** The files a scan writes *)

Lemma write_midi_never_open (m : mthd) (name : filename) (w : write_result) :
  write_midi never_open m name = Done w -> wr_file w = None.
Proof.
  unfold write_midi. destruct (track0 m); intros H; inversion H; reflexivity.
Qed.

Lemma scan_step_never_open (g : Z -> bool) (buf : buffer) (i i' : Z)
    (fs : list file) :
  scan_step never_open g buf i = Done (i', fs) -> fs = [].
Proof.
  unfold scan_step. intros H.
  apply bind_Done in H. destruct H as (t & _ & H). destruct t.
  - unfold orphan_branch in H.
    apply bind_Done in H. destruct H as (cnt & _ & H).
    apply bind_Done in H. destruct H as ([c w] & Hx & H).
    inversion H; subst. unfold smart_extract in Hx.
    apply bind_Done in Hx. destruct Hx as (st & _ & Hx).
    apply bind_Done in Hx. destruct Hx as (w' & Hw & Hx).
    inversion Hx; subst. unfold files_of. simpl.
    rewrite (write_midi_never_open _ _ _ Hw). reflexivity.
  - apply bind_Done in H. destruct H as (h & _ & H). destruct h.
    + unfold header_branch in H.
      apply bind_Done in H. destruct H as (o & _ & H).
      destruct o as [midi|]; [|discriminate].
      apply bind_Done in H. destruct H as ([c w] & Hx & H).
      inversion H; subst. unfold smart_extract in Hx.
      apply bind_Done in Hx. destruct Hx as (st & _ & Hx).
      apply bind_Done in Hx. destruct Hx as (w' & Hw & Hx).
      inversion Hx; subst. unfold files_of. simpl.
      rewrite (write_midi_never_open _ _ _ Hw). reflexivity.
    + inversion H. reflexivity.
Qed.

Lemma write_midi_never_open_Done (m : mthd) (name : filename) :
  exists w, write_midi never_open m name = Done w /\ wr_file w = None.
Proof.
  unfold write_midi. destruct (track0 m); eexists; split; reflexivity.
Qed.

Lemma smart_extract_never_open (can_open : filename -> bool)
    (g : Z -> bool) (midi : mthd) (buf : buffer) (base eof maxd off c : Z)
    (w : write_result) :
  smart_extract can_open g midi buf base eof maxd off = Done (c, w) ->
  exists w',
    smart_extract never_open g midi buf base eof maxd off = Done (c, w') /\
    wr_file w' = None.
Proof.
  unfold smart_extract. intros H.
  apply bind_Done in H. destruct H as (st & Hl & H).
  apply bind_Done in H. destruct H as (w0 & _ & H).
  inversion H; subst; clear H. rewrite Hl. cbn [bind].
  destruct (write_midi_never_open_Done (sx_midi st)
              {| fn_offset := off; fn_status := classify (sx_midi st) |})
    as (w' & Hw & Hf).
  exists w'. rewrite Hw. split; [reflexivity|exact Hf].
Qed.

Lemma scan_step_without_files (can_open : filename -> bool) (g : Z -> bool)
    (buf : buffer) (i i' : Z) (fs : list file) :
  scan_step can_open g buf i = Done (i', fs) ->
  scan_step never_open g buf i = Done (i', []).
Proof.
  unfold scan_step. intros H.
  apply bind_Done in H. destruct H as (t & Ht & H). rewrite Ht. cbn [bind].
  destruct t.
  - unfold orphan_branch in *.
    apply bind_Done in H. destruct H as (cnt & Hc & H). rewrite Hc.
    cbn [bind].
    apply bind_Done in H. destruct H as ([c w] & Hx & H).
    inversion H; subst; clear H.
    destruct (smart_extract_never_open _ _ _ _ _ _ _ _ _ _ Hx)
      as (w' & Hx' & Hf).
    rewrite Hx'. cbn [bind fst snd]. unfold files_of. rewrite Hf.
    reflexivity.
  - apply bind_Done in H. destruct H as (h & Hh & H). rewrite Hh.
    cbn [bind]. destruct h; [|inversion H; reflexivity].
    unfold header_branch in *.
    apply bind_Done in H. destruct H as (o & Hm & H). rewrite Hm.
    cbn [bind]. destruct o as [midi|]; [|discriminate].
    apply bind_Done in H. destruct H as ([c w] & Hx & H).
    inversion H; subst; clear H.
    destruct (smart_extract_never_open _ _ _ _ _ _ _ _ _ _ Hx)
      as (w' & Hx' & Hf).
    rewrite Hx'. cbn [bind fst snd]. unfold files_of. rewrite Hf.
    reflexivity.
Qed.

(** X11.  The orchestrator ignores what [write_midi] returns.  So a pass
    of the scanning loop that completes reaches the same offset whether or
    not the output file can be opened; it completes as well, writing
    nothing, when no file can be opened at all; and a whole run in which no
    file can be opened writes nothing. *)
Theorem fopen_result_does_not_move_the_scan
    (can_open : filename -> bool) (g : Z -> bool) (buf : buffer)
    (i i' : Z) (fs : list file) :
  scan_step can_open g buf i = Done (i', fs) ->
  scan_step never_open g buf i = Done (i', []) /\
  (forall c2 i2 fs2, scan_step c2 g buf i = Done (i2, fs2) -> i2 = i') /\
  (forall heap fuel, fst (main_loop never_open heap fuel buf i) = []).
Proof.
  intros H. pose proof (scan_step_without_files _ _ _ _ _ _ H) as Hn.
  split; [exact Hn|]. split.
  - intros c2 i2 fs2 H2. apply scan_step_without_files in H2.
    rewrite Hn in H2. inversion H2. reflexivity.
  - intros heap fuel. clear. revert i.
    induction fuel as [|fuel IH]; intros i; cbn [main_loop];
      destruct (i <? filesize buf); try reflexivity.
    destruct (scan_step never_open (heap fuel) buf i) as [[i1 fs1]|f1|] eqn:E;
      try reflexivity.
    apply scan_step_never_open in E. subst fs1.
    specialize (IH i1). destruct (main_loop never_open heap fuel buf i1).
    simpl in *. exact IH.
Qed.

Lemma fopen_result_does_not_move_the_scan_witness :
  exists f,
    scan_step always_open zeroed blob_zero_declared 0 = Done (26, [f]) /\
    scan_step never_open zeroed blob_zero_declared 0 = Done (26, []).
Proof.
  assert (E : exists f, scan_step always_open zeroed blob_zero_declared 0
                        = Done (26, [f]))
    by (eexists; vm_compute; reflexivity).
  destruct E as [f E]. exists f. split; [exact E|].
  exact (proj1 (fopen_result_does_not_move_the_scan
                  always_open zeroed blob_zero_declared 0 26 [f] E)).
Defined.

Lemma pass_keeps_fields (g : Z -> bool) (buf : buffer) (base : Z)
    (st st' : sx_state)
    (c : bool) :
  pass g buf base st c st' ->
  miditype (sx_midi st') = miditype (sx_midi st) /\
  timecode (sx_midi st') = timecode (sx_midi st) /\
  is_generated (sx_midi st') = is_generated (sx_midi st) /\
  (is_damaged (sx_midi st) = true -> is_damaged (sx_midi st') = true).
Proof.
  intros Hp. inversion Hp; subst; simpl; auto.
Qed.

Lemma smart_loop_keeps_fields (g : Z -> bool) (buf : buffer)
    (base eof maxd : Z) :
  forall (fuel : nat) (st st' : sx_state),
    smart_loop g fuel buf base eof maxd st = Done st' ->
    miditype (sx_midi st') = miditype (sx_midi st) /\
    timecode (sx_midi st') = timecode (sx_midi st) /\
    is_generated (sx_midi st') = is_generated (sx_midi st) /\
    (is_damaged (sx_midi st) = true -> is_damaged (sx_midi st') = true).
Proof.
  induction fuel as [|fuel IH]; intros st st' H; [discriminate|].
  rewrite smart_loop_S in H. apply bind_Done in H.
  destruct H as ([c st1] & Hb & H). cbn [fst snd] in H.
  apply smart_body_pass in Hb. apply pass_keeps_fields in Hb.
  destruct Hb as (P1 & P2 & P3 & P4).
  destruct c.
  - apply IH in H. destruct H as (Q1 & Q2 & Q3 & Q4).
    repeat split; try congruence. auto.
  - inversion H; subst. auto.
Qed.

Lemma write_mtrk_starts_with_tag (t : mtrk) (ts : list mtrk)
    (b : list byte) :
  write_mtrk (t :: ts) = Done b -> firstn 4 b = MTrk.
Proof.
  cbn [write_mtrk]. destruct (data t) as [d|]; [|discriminate].
  destruct (Z.of_nat (length d) <? size t); [discriminate|].
  intros H. apply bind_Done in H. destruct H as (rest & _ & H).
  inversion H. reflexivity.
Qed.

Lemma smart_extract_file (can_open : filename -> bool) (g : Z -> bool)
    (midi : mthd)
    (buf : buffer) (base eof maxd off r : Z) (w : write_result) (f : file) :
  smart_extract can_open g midi buf base eof maxd off = Done (r, w) ->
  wr_file w = Some f ->
  exists st tb,
    smart_loop g (sx_fuel midi) buf base eof maxd (sx_init midi) = Done st /\
    f_name f = {| fn_offset := off; fn_status := classify (sx_midi st) |} /\
    f_bytes f
    = MThd ++ [x00; x00; x00; x06]
        ++ [ to_byte (miditype (sx_midi st) / 256);
             to_byte (miditype (sx_midi st) mod 256);
             to_byte (numtracks (sx_midi st) / 256);
             to_byte (numtracks (sx_midi st) mod 256);
             to_byte (timecode (sx_midi st) / 256);
             to_byte (timecode (sx_midi st) mod 256) ]
        ++ tb /\
    write_mtrk (track0 (sx_midi st)) = Done tb /\
    firstn 4 tb = MTrk.
Proof.
  unfold smart_extract. fold (sx_init midi). intros H Hf.
  apply bind_Done in H. destruct H as (st & Hl & H).
  apply bind_Done in H. destruct H as (w' & Hw & H).
  inversion H; subst w' r; clear H.
  unfold write_midi in Hw.
  destruct (track0 (sx_midi st)) as [|t ts] eqn:Et;
    [inversion Hw; subst; discriminate|].
  destruct (can_open _); cbn [negb] in Hw;
    [|inversion Hw; subst; discriminate].
  apply bind_Done in Hw. destruct Hw as (tb & Htb & Hw).
  inversion Hw; subst w; clear Hw. simpl in Hf. inversion Hf; subst f.
  exists st, tb. rewrite Et.
  repeat split; auto.
  eapply write_mtrk_starts_with_tag; eauto.
Qed.

(** X12.  Every file written while the scanner stands at offset [i] is the
    only one written there and is named by [i].  It starts with the header
    tag and length 6 and holds at least one track chunk behind its 14
    header bytes.  At an orphan track tag its status is ORPH and its
    header says format 1, division 120; at a header tag its status is OK
    or BAD and its header repeats the format and division that the header
    parser read at [i]. *)
Theorem written_file_name_and_header
    (can_open : filename -> bool) (g : Z -> bool) (buf : buffer) (i i' : Z)
    (fs : list file) (f : file) :
  scan_step can_open g buf i = Done (i', fs) ->
  In f fs ->
  fs = [f] /\
  fn_offset (f_name f) = i /\
  firstn 8 (f_bytes f) = MThd ++ [x00; x00; x00; x06] /\
  firstn 4 (skipn 14 (f_bytes f)) = MTrk /\
  ((strncmp_eq buf i MTrk = Done true /\
    fn_status (f_name f) = ORPH /\
    firstn 2 (skipn 8 (f_bytes f)) = [x00; x01] /\
    firstn 2 (skipn 12 (f_bytes f)) = [x00; x78]) \/
   (exists midi,
      extract_mthd buf i = Done (Some midi) /\
      fn_status (f_name f) <> ORPH /\
      firstn 2 (skipn 8 (f_bytes f)) = be16 (miditype midi) /\
      firstn 2 (skipn 12 (f_bytes f)) = be16 (timecode midi))).
Proof.
  unfold scan_step. intros H Hin.
  apply bind_Done in H. destruct H as (t & Ht & H). destruct t.
  - unfold orphan_branch in H.
    apply bind_Done in H. destruct H as (cnt & _ & H).
    apply bind_Done in H. destruct H as ([c w] & Hx & H).
    inversion H; subst i' fs; clear H. cbn [snd] in Hin.
    unfold files_of in *. destruct (wr_file w) as [f'|] eqn:Ef; [|contradiction].
    destruct Hin as [->|[]].
    destruct (smart_extract_file _ _ _ _ _ _ _ _ _ _ _ Hx Ef)
      as (st & tb & Hl & Hn & Hb & _ & Htb).
    apply smart_loop_keeps_fields in Hl. cbn [sx_init sx_midi] in Hl.
    destruct Hl as (Q1 & Q2 & Q3 & _). simpl in Q1, Q2, Q3.
    rewrite Hn, Hb, Q1, Q2. unfold classify. rewrite Q3. cbn [snd].
    repeat split; auto.
  - apply bind_Done in H. destruct H as (h & Hh & H). destruct h.
    + unfold header_branch in H.
      apply bind_Done in H. destruct H as (o & Hm & H).
      destruct o as [midi|]; [|discriminate].
      apply bind_Done in H. destruct H as ([c w] & Hx & H).
      inversion H; subst i' fs; clear H. cbn [snd] in Hin.
      unfold files_of in *.
      destruct (wr_file w) as [f'|] eqn:Ef; [|contradiction].
      destruct Hin as [->|[]].
      destruct (smart_extract_file _ _ _ _ _ _ _ _ _ _ _ Hx Ef)
        as (st & tb & Hl & Hn & Hb & _ & Htb).
      apply smart_loop_keeps_fields in Hl. cbn [sx_init sx_midi] in Hl.
      destruct Hl as (Q1 & Q2 & Q3 & _).
      assert (Hg : is_generated midi = false).
      { unfold extract_mthd in Hm.
        apply bind_Done in Hm. destruct Hm as (t & _ & Hm).
        destruct t; cbn [negb] in Hm; [|discriminate].
        repeat (apply bind_Done in Hm; destruct Hm as (? & _ & Hm)).
        inversion Hm. reflexivity. }
      rewrite Hn, Hb, Q1, Q2. unfold classify. rewrite Q3, Hg. cbn [snd].
      repeat split; auto. right. exists midi.
      repeat split; auto.
      * cbn [fn_status]. destruct (negb (is_damaged (sx_midi st)));
          discriminate.
      * unfold be16, MThd. cbn [skipn app firstn]. rewrite to_byte_mod.
        reflexivity.
      * unfold be16, MThd. cbn [skipn app firstn]. rewrite to_byte_mod.
        reflexivity.
    + inversion H; subst. contradiction.
Qed.

Lemma written_file_name_and_header_witness :
  exists f,
    scan_step always_open dirty blob_zero_declared 0 = Done (26, [f]) /\
    In f [f] /\
    fn_offset (f_name f) = 0 /\
    firstn 4 (skipn 14 (f_bytes f)) = MTrk.
Proof.
  eexists. split; [vm_compute; reflexivity|].
  split; [left; reflexivity|].
  match goal with
  | |- fn_offset (f_name ?f) = _ /\ _ =>
      pose proof (written_file_name_and_header
                    always_open dirty blob_zero_declared 0 26 [f] f
                    ltac:(vm_compute; reflexivity) (or_introl eq_refl))
        as (_ & H1 & _ & H2 & _)
  end.
  split; [exact H1|exact H2].
Defined.

(** * Where the written files lie *)

Lemma scan_step_files (can_open : filename -> bool) (g : Z -> bool)
    (buf : buffer) (i i' : Z) (fs : list file) :
  scan_step can_open g buf i = Done (i', fs) ->
  fs = [] \/ exists f, fs = [f] /\ fn_offset (f_name f) = i.
Proof.
  unfold scan_step. intros H.
  apply bind_Done in H. destruct H as (t & Ht & H). destruct t.
  - unfold orphan_branch in H.
    apply bind_Done in H. destruct H as (cnt & _ & H).
    apply bind_Done in H. destruct H as ([c w] & Hx & H).
    inversion H; subst i' fs; clear H. cbn [snd].
    unfold files_of. destruct (wr_file w) as [f|] eqn:Ef; [|left; reflexivity].
    destruct (smart_extract_file _ _ _ _ _ _ _ _ _ _ _ Hx Ef)
      as (st & tb & _ & Hn & _).
    right. exists f. rewrite Hn. auto.
  - apply bind_Done in H. destruct H as (h & Hh & H). destruct h.
    + unfold header_branch in H.
      apply bind_Done in H. destruct H as (o & Hm & H).
      destruct o as [midi|]; [|discriminate].
      apply bind_Done in H. destruct H as ([c w] & Hx & H).
      inversion H; subst i' fs; clear H. cbn [snd].
      unfold files_of.
      destruct (wr_file w) as [f|] eqn:Ef; [|left; reflexivity].
      destruct (smart_extract_file _ _ _ _ _ _ _ _ _ _ _ Hx Ef)
        as (st & tb & _ & Hn & _).
      right. exists f. rewrite Hn. auto.
    + inversion H; subst. left. reflexivity.
Qed.

Lemma main_loop_offsets (can_open : filename -> bool)
    (heap : nat -> Z -> bool) (buf : buffer) :
  filesize buf + 4 < 4294967296 ->
  forall (fuel : nat) (i : Z),
    0 <= i ->
    StronglySorted Z.lt
      (offsets (fst (main_loop can_open heap fuel buf i))) /\
    Forall (fun o => i <= o < filesize buf)
      (offsets (fst (main_loop can_open heap fuel buf i))).
Proof.
  intros Hs. induction fuel as [|fuel IH]; intros i Hi.
  - cbn [main_loop]. destruct (i <? filesize buf); simpl;
      split; constructor.
  - cbn [main_loop]. destruct (Z.ltb_spec i (filesize buf));
      [|simpl; split; constructor].
    destruct (scan_step can_open (heap fuel) buf i) as [[i' fs]|f|] eqn:E;
      [|simpl; split; constructor|simpl; split; constructor].
    pose proof (scan_step_increases _ _ _ _ _ _ Hs Hi E) as [Hle Hlt].
    destruct (IH i' ltac:(lia)) as (Hsort & Hall).
    destruct (main_loop can_open heap fuel buf i') as [rest e].
    cbn [fst] in *.
    assert (Hall' : Forall (fun o => i <= o < filesize buf) (offsets rest)).
    { eapply Forall_impl; [|exact Hall]. cbv beta. intros o Ho. lia. }
    destruct (scan_step_files _ _ _ _ _ _ E) as [->|(f & -> & Hf)].
    + simpl. auto.
    + assert (Hlt' : i < i') by (apply Hlt; left; discriminate).
      simpl. rewrite Hf. split.
      * constructor; [exact Hsort|].
        eapply Forall_impl; [|exact Hall]. cbv beta. intros o Ho. lia.
      * constructor; [lia|exact Hall'].
Qed.

Lemma StronglySorted_lt_NoDup (l : list Z) :
  StronglySorted Z.lt l -> NoDup l.
Proof.
  induction 1 as [|a l Hs IH Ha]; constructor; auto.
  intros Hin. rewrite Forall_forall in Ha. specialize (Ha _ Hin). lia.
Qed.

(** X13.  In a buffer below 4 GiB, the offsets that name the files written
    by a run of the scanning loop from offset [i] strictly increase in the
    order of writing and lie between [i] and the end of the buffer; so no
    file name is used twice, and no written file overwrites another. *)
Theorem written_files_have_increasing_offsets
    (can_open : filename -> bool) (heap : nat -> Z -> bool) (buf : buffer)
    (fuel : nat) (i : Z) :
  filesize buf + 4 < 4294967296 ->
  0 <= i ->
  StronglySorted Z.lt (offsets (fst (main_loop can_open heap fuel buf i))) /\
  Forall (fun o => i <= o < filesize buf)
    (offsets (fst (main_loop can_open heap fuel buf i))) /\
  NoDup (names (fst (main_loop can_open heap fuel buf i))).
Proof.
  intros Hs Hi.
  destruct (main_loop_offsets can_open heap buf Hs fuel i Hi) as (H1 & H2).
  repeat split; auto.
  apply StronglySorted_lt_NoDup in H1.
  unfold offsets in H1. unfold names.
  rewrite <- (map_map f_name fn_offset) in H1.
  eapply NoDup_map_inv; eauto.
Qed.

Lemma written_files_have_increasing_offsets_witness :
  offsets (fst (main_loop always_open dirty_heap 50 blob_two_embedded 0))
  = [0; 24] /\
  StronglySorted Z.lt
    (offsets (fst (main_loop always_open dirty_heap 50 blob_two_embedded 0)))
  /\
  NoDup (names (fst (main_loop always_open dirty_heap 50
                       blob_two_embedded 0))).
Proof.
  split; [vm_compute; reflexivity|].
  destruct (written_files_have_increasing_offsets
              always_open dirty_heap blob_two_embedded 50 0
              ltac:(vm_compute; reflexivity) ltac:(lia))
    as (H1 & _ & H3).
  split; [exact H1|exact H3].
Defined.

(** X18.  In a buffer below 4 GiB a pass of the scanning loop that does
    not crash never moves the offset backwards or past the end of the
    buffer.  It leaves the offset where it was in one case only: a track
    tag whose chunk declares 4294967292 bytes, with the flag byte of the
    block found nonzero and the output file not to be opened; no file is
    written then. *)
Theorem scan_offset_stays_in_buffer
    (can_open : filename -> bool) (g : Z -> bool) (buf : buffer) (i i' : Z)
    (fs : list file) :
  filesize buf + 4 < 4294967296 ->
  0 <= i < filesize buf ->
  scan_step can_open g buf i = Done (i', fs) ->
  i <= i' <= filesize buf /\
  (i' = i ->
   strncmp_eq buf i MTrk = Done true /\
   declared_size buf i = Done 4294967292 /\
   g 0 = true /\
   fs = [] /\
   exists name, fn_offset name = i /\ can_open name = false).
Proof.
  intros Hs Hi H.
  destruct (scan_step_progress _ _ _ _ _ _ Hs (proj1 Hi) H)
    as [(_ & _ & -> & _)
       |[(_ & m & c & w & _ & Hc & -> & Hb & _)
        |(Ht & m & c & w & _ & Hc & -> & Hb & -> & Hz)]].
  - split; [lia|]. intros E. lia.
  - split; [lia|]. intros E. lia.
  - split; [lia|]. intros E.
    destruct (Hz ltac:(lia)) as (Hd & Hg & Hw & Hn).
    unfold files_of. rewrite Hw. auto.
Qed.

Lemma scan_offset_stays_in_buffer_witness :
  scan_step never_open dirty blob_stall 0 = Done (0, []) /\
  0 <= 0 <= filesize blob_stall /\
  declared_size blob_stall 0 = Done 4294967292.
Proof.
  assert (E : scan_step never_open dirty blob_stall 0 = Done (0, []))
    by (vm_compute; reflexivity).
  split; [exact E|].
  destruct (scan_offset_stays_in_buffer never_open dirty blob_stall 0 0 []
              ltac:(vm_compute; reflexivity)
              ltac:(split; vm_compute; [discriminate|reflexivity]) E)
    as (Hr & Hz).
  split; [exact Hr|]. exact (proj1 (proj2 (Hz eq_refl))).
Defined.

(** X20.  When every output file can be opened, or when every block comes
    zeroed from [malloc], each pass of the scanning loop over a buffer
    below 4 GiB that does not crash moves the offset forward; so a run
    from offset [i] is over, finished or crashed, within (buffer length -
    [i]) + 1 passes. *)
Theorem scan_ends_when_files_open_or_blocks_zeroed
    (can_open : filename -> bool) (heap : nat -> Z -> bool) (buf : buffer) :
  filesize buf + 4 < 4294967296 ->
  (forall name, can_open name = true) \/ (forall n k, heap n k = false) ->
  (forall n i i' fs,
      0 <= i ->
      scan_step can_open (heap n) buf i = Done (i', fs) -> i < i') /\
  (forall fuel i,
      0 <= i ->
      filesize buf - i < Z.of_nat fuel ->
      snd (main_loop can_open heap fuel buf i) <> OutOfFuel).
Proof.
  intros Hs Hor.
  assert (Hstep : forall n i i' fs,
             0 <= i ->
             scan_step can_open (heap n) buf i = Done (i', fs) -> i < i').
  { intros n i i' fs Hi E.
    apply (scan_step_increases _ _ _ _ _ _ Hs Hi E).
    destruct Hor as [Hall|Hz]; [right; right; exact Hall|].
    right. left. apply Hz. }
  split; [exact Hstep|].
  induction fuel as [|fuel IH]; intros i Hi Hf.
  - rewrite main_loop_end by lia. discriminate.
  - cbn [main_loop]. destruct (Z.ltb_spec i (filesize buf)); [|discriminate].
    pose proof (scan_step_halts can_open (heap fuel) buf i) as Hh.
    destruct (scan_step can_open (heap fuel) buf i) as [[i' fs]|f|] eqn:E;
      [|discriminate|contradiction].
    pose proof (Hstep _ _ _ _ Hi E) as Hlt.
    specialize (IH i' ltac:(lia) ltac:(lia)).
    destruct (main_loop can_open heap fuel buf i'). exact IH.
Qed.

Lemma scan_ends_when_files_open_or_blocks_zeroed_witness :
  filesize blob_stall + 4 < 4294967296 /\
  snd (main_loop never_open zeroed_heap 9 blob_stall 0) <> OutOfFuel /\
  snd (main_loop always_open dirty_heap 9 blob_stall 0) <> OutOfFuel.
Proof.
  split; [vm_compute; reflexivity|]. split.
  - apply (proj2 (scan_ends_when_files_open_or_blocks_zeroed
                    never_open zeroed_heap blob_stall
                    ltac:(vm_compute; reflexivity)
                    (or_intror (fun _ _ => eq_refl))));
      vm_compute; [discriminate|reflexivity].
  - apply (proj2 (scan_ends_when_files_open_or_blocks_zeroed
                    always_open dirty_heap blob_stall
                    ltac:(vm_compute; reflexivity)
                    (or_introl (fun _ => eq_refl))));
      vm_compute; [discriminate|reflexivity].
Defined.

(** * The track count of a written file *)

Lemma smart_loop_counts (g : Z -> bool) (buf : buffer)
    (base eof maxd : Z) :
  forall (fuel : nat) (st st' : sx_state),
    smart_loop g fuel buf base eof maxd st = Done st' ->
    numtracks (sx_midi st) < 65536 ->
    sx_curtrack st = Z.of_nat (length (track0 (sx_midi st))) ->
    sx_curtrack st < numtracks (sx_midi st) ->
    numtracks (sx_midi st') = Z.of_nat (length (track0 (sx_midi st'))) /\
    Z.of_nat (length (track0 (sx_midi st'))) <= numtracks (sx_midi st) /\
    (is_damaged (sx_midi st') = false ->
     Z.of_nat (length (track0 (sx_midi st'))) = numtracks (sx_midi st)).
Proof.
  induction fuel as [|fuel IH]; intros st st' H Hnt Hc Hlt; [discriminate|].
  rewrite smart_loop_S in H. apply bind_Done in H.
  destruct H as ([c st1] & Hb & H). cbn [fst snd] in H.
  apply smart_body_pass in Hb.
  assert (Hu : u16 (sx_curtrack st + 1) = sx_curtrack st + 1)
    by (unfold u16; apply Z.mod_small; lia).
  inversion Hb as [ Hn | j Ht Hj Ht' | t Ht He Hcont ]; subst.
  - inversion H; subst. simpl. repeat split; [exact Hc|lia|discriminate].
  - apply IH in H; simpl; assumption.
  - rewrite Hu in *.
    destruct (Z.leb_spec (numtracks (sx_midi st)) (sx_curtrack st + 1));
      cbn [negb] in H.
    + inversion H; subst. simpl. rewrite length_app. simpl.
      repeat split; lia.
    + apply IH in H; simpl; try assumption.
      rewrite length_app. simpl. lia.
Qed.

(** X14.  When the header handed to the orchestrator declares between 1
    and 65535 tracks, a file it writes consists of the 14 header bytes and
    the chunks of the stored tracks, and the count field of the header is
    the number of these chunks.  There are at least one and at most as many
    chunks as declared, and a file classified OK holds exactly the declared
    number. *)
Theorem written_count_is_number_of_chunks
    (can_open : filename -> bool) (g : Z -> bool) (midi : mthd) (buf : buffer)
    (base eof maxd off r : Z) (w : write_result) (f : file) :
  track0 midi = [] ->
  1 <= numtracks midi < 65536 ->
  smart_extract can_open g midi buf base eof maxd off = Done (r, w) ->
  wr_file w = Some f ->
  exists ts,
    Forall track_ok ts /\
    f_bytes f
    = MThd ++ be32 6 ++ be16 (miditype midi)
        ++ be16 (Z.of_nat (length ts)) ++ be16 (timecode midi)
        ++ concat (map track_bytes ts) /\
    1 <= Z.of_nat (length ts) <= numtracks midi /\
    (fn_status (f_name f) = OK -> Z.of_nat (length ts) = numtracks midi).
Proof.
  intros Hempty Hnt Hx Hf.
  destruct (smart_extract_file _ _ _ _ _ _ _ _ _ _ _ Hx Hf)
    as (st & tb & Hl & Hn & Hb & Hw & Htag).
  assert (Hok : Forall track_ok (track0 (sx_midi st))).
  { assert (Hs : Forall track_sound (track0 (sx_midi st))).
    { eapply smart_loop_tracks_sound; [exact Hl|]. simpl. rewrite Hempty.
      apply Forall_nil. }
    rewrite Forall_forall in *. intros t Hin.
    apply track_sound_ok; [apply Hs; exact Hin|].
    eapply write_mtrk_Done_data; eauto. }
  pose proof (smart_loop_keeps_fields _ _ _ _ _ _ _ _ Hl) as (Q1 & Q2 & _).
  cbn [sx_init sx_midi] in Q1, Q2.
  apply smart_loop_counts in Hl;
    [|simpl; lia|simpl; rewrite Hempty; reflexivity|simpl; lia].
  cbn [sx_init sx_midi] in Hl. destruct Hl as (C1 & C2 & C3).
  rewrite (write_mtrk_ok _ Hok) in Hw. inversion Hw; subst tb; clear Hw.
  exists (track0 (sx_midi st)). split; [exact Hok|].
  split; [|split].
  - rewrite Hb, C1, Q1, Q2. rewrite !to_byte_mod. reflexivity.
  - split; [|exact C2].
    destruct (track0 (sx_midi st)); [discriminate Htag|simpl; lia].
  - rewrite Hn. cbn [f_name fn_status]. unfold classify. intros Hs.
    apply C3. destruct (is_generated (sx_midi st)); [discriminate|].
    destruct (is_damaged (sx_midi st)); [discriminate|reflexivity].
Qed.

Lemma written_count_is_number_of_chunks_witness :
  exists f ts,
    smart_extract always_open dirty (parsed_header 1 2 96)
      blob_lost_sync_tagged
      14 (u64 (filesize blob_lost_sync_tagged - 14)) 32768 0
    = Done (11, {| wr_ret := 0;
                  wr_log := " Success!  Wrote file to disk.";
                  wr_file := Some f |}) /\
    f_bytes f
    = MThd ++ be32 6 ++ be16 1 ++ be16 (Z.of_nat (length ts)) ++ be16 96
        ++ concat (map track_bytes ts) /\
    1 <= Z.of_nat (length ts) <= 2.
Proof.
  eexists. 
  match goal with
  | |- exists ts, ?s = Done (?r, ?w) /\ _ =>
      assert (Hx : s = Done (r, w)) by (vm_compute; reflexivity)
  end.
  destruct (written_count_is_number_of_chunks
              always_open dirty (parsed_header 1 2 96) blob_lost_sync_tagged
              14 (u64 (filesize blob_lost_sync_tagged - 14)) 32768 0 _ _ _
              eq_refl ltac:(simpl; lia) Hx eq_refl)
    as (ts & _ & Hb & Hc & _).
  exists ts. split; [exact Hx|]. split; [exact Hb|exact Hc].
Defined.

(** * Runs of well-formed chunks *)

(** The orchestrator over a run of well-formed chunks that is shorter than
    the declared count and is followed by a header tag: one pass per
    chunk, then the pass that meets the tag and truncates. *)
Lemma smart_loop_chunks_collision (g : Z -> bool) (buf : buffer)
    (base eof maxd : Z) :
  forall (rem : list (list byte)) (l1 l2 : list byte) (fuel : nat)
         (st : sx_state),
    buf = l1 ++ concat (map chunk rem) ++ MThd ++ l2 ->
    base + sx_i st = Z.of_nat (length l1) ->
    Forall terminated rem ->
    Forall (fun p => Z.of_nat (length p) + 8 < 4294967296) rem ->
    0 <= sx_curtrack st ->
    sx_curtrack st + Z.of_nat (length rem) < numtracks (sx_midi st) ->
    numtracks (sx_midi st) < 65536 ->
    (length rem < fuel)%nat ->
    smart_loop g fuel buf base eof maxd st
    = Done {| sx_i := sx_i st + Z.of_nat (length (concat (map chunk rem)));
              sx_curtrack := sx_curtrack st + Z.of_nat (length rem);
              sx_midi :=
                set_truncated (with_tracks (sx_midi st) (map intact rem))
                              (sx_curtrack st + Z.of_nat (length rem)) |}.
Proof.
  induction rem as [|p rem IH];
    intros l1 l2 fuel st Hbuf Hpos Hterm Hlen Hc Hn Hnt Hf;
    (destruct fuel as [|fuel]; [simpl in Hf; lia|]).
  - cbn [map concat app] in Hbuf.
    assert (Hh : strncmp_eq buf (base + sx_i st) MThd = Done true)
      by (rewrite Hbuf, Hpos; apply strncmp_eq_at).
    rewrite smart_loop_S, (smart_body_collision _ _ _ _ _ _ Hh).
    cbn [bind fst snd map concat length Z.of_nat].
    rewrite !Z.add_0_r. unfold with_tracks. rewrite app_nil_r.
    destruct st as [i c m]. reflexivity.
  - inversion Hterm as [|? ? Hp Hterm']. inversion Hlen as [|? ? Hlp Hlen'].
    clear Hterm Hlen. subst x x0 l l0.
    set (post := concat (map chunk rem) ++ MThd ++ l2).
    assert (Hbuf' : buf = l1 ++ chunk p ++ post).
    { rewrite Hbuf. cbn [map concat]. unfold post.
      rewrite <- !app_assoc. reflexivity. }
    assert (Ht : strncmp_eq buf (base + sx_i st) MTrk = Done true)
      by (rewrite Hbuf', Hpos; apply chunk_tag).
    assert (He : extract_mtrk buf (base + sx_i st) = Done (Some (intact p)))
      by (rewrite Hbuf', Hpos; apply chunk_extract_intact; assumption).
    rewrite smart_loop_S.
    rewrite (smart_body_track _ _ _ _ _ _ _ Ht He). cbn [bind fst snd].
    rewrite mtrk_advance_intact by lia.
    simpl length in Hn, Hf.
    assert (Hu : u16 (sx_curtrack st + 1) = sx_curtrack st + 1)
      by (unfold u16; apply Z.mod_small; lia).
    rewrite Hu.
    replace (numtracks (sx_midi st) <=? sx_curtrack st + 1) with false
      by (symmetry; apply Z.leb_gt; lia).
    cbn [negb].
    rewrite (IH (l1 ++ chunk p) l2); cbn [sx_i sx_curtrack sx_midi].
    + rewrite with_tracks_add. cbn [map concat length].
      rewrite (length_app (chunk p)), !Nat2Z.inj_add, chunk_length.
      f_equal. f_equal; [lia|lia|]. f_equal. lia.
    + rewrite Hbuf'. unfold post. rewrite <- !app_assoc. reflexivity.
    + rewrite length_app, Nat2Z.inj_add, chunk_length. lia.
    + assumption.
    + assumption.
    + lia.
    + simpl numtracks. lia.
    + exact Hnt.
    + lia.
Qed.

Lemma write_midi_intact (can_open : filename -> bool) (m : mthd)
    (payloads : list (list byte)) (name : filename) :
  track0 m = map intact payloads ->
  numtracks m = Z.of_nat (length payloads) ->
  payloads <> [] ->
  Forall (fun p => Z.of_nat (length p) < 1677216) payloads ->
  can_open name = true ->
  write_midi can_open m name
  = Done {| wr_ret := 0;
            wr_log := " Success!  Wrote file to disk."%string;
            wr_file :=
              Some {| f_name := name;
                      f_bytes := midi_file (miditype m) (timecode m)
                                           payloads |} |}.
Proof.
  intros Ht Hn Hne Hsmall Hopen. unfold write_midi. rewrite Ht.
  destruct (map intact payloads) as [|t ts] eqn:E.
  - destruct payloads; [congruence|discriminate].
  - rewrite <- E, Hopen. cbn [negb].
    rewrite (write_mtrk_chunks payloads Hsmall). cbn [bind].
    rewrite Hn, !to_byte_mod. reflexivity.
Qed.

Lemma small_chunks_fit (payloads : list (list byte)) :
  Forall (fun p => Z.of_nat (length p) < 1677216) payloads ->
  Forall (fun p => Z.of_nat (length p) + 8 < 4294967296) payloads.
Proof.
  intros H. eapply Forall_impl; [|exact H]. cbv beta. intros; lia.
Qed.

(** X15.  A header declaring more tracks than follow it: after the header
    lie k >= 1 well-formed chunks (each shorter than 1677216 bytes) and then
    the header tag of the next structure.  The scanner writes, under the
    status BAD and the offset of the first header, a MIDI file holding
    exactly these k chunks unchanged with the count field corrected to k,
    and resumes the scan at the next header tag. *)
Theorem header_cut_short_by_next_header
    (can_open : filename -> bool) (g : Z -> bool) (pre rest : list byte)
    (ty nt dv : Z)
    (payloads : list (list byte)) :
  let body := concat (map chunk payloads) in
  let buf := pre ++ (MThd ++ be32 6 ++ be16 ty ++ be16 nt ++ be16 dv)
                 ++ body ++ MThd ++ rest in
  let o := Z.of_nat (length pre) in
  0 <= ty < 65536 -> 0 <= dv < 65536 ->
  0 < Z.of_nat (length payloads) < nt -> nt < 65536 ->
  Forall terminated payloads ->
  Forall (fun p => Z.of_nat (length p) < 1677216) payloads ->
  filesize buf < 4294967296 ->
  can_open {| fn_offset := o; fn_status := BAD |} = true ->
  scan_step can_open g buf o
  = Done (o + 14 + Z.of_nat (length body),
          [ {| f_name := {| fn_offset := o; fn_status := BAD |};
               f_bytes := midi_file (coerce_type ty nt) dv payloads |} ]) /\
  strncmp_eq buf (o + 14 + Z.of_nat (length body)) MThd = Done true.
Proof.
  intros body buf o Hty Hdv Hk Hnt Hterm Hsmall Hfs Hopen.
  set (hdr := MThd ++ be32 6 ++ be16 ty ++ be16 nt ++ be16 dv) in *.
  assert (Eb : buf = pre ++ MThd ++ be32 6 ++ be16 ty ++ be16 nt ++ be16 dv
                       ++ body ++ MThd ++ rest)
    by (unfold buf, hdr; rewrite <- !app_assoc; reflexivity).
  assert (Eb2 : buf = (pre ++ hdr) ++ body ++ MThd ++ rest)
    by (unfold buf; rewrite <- !app_assoc; reflexivity).
  assert (Eb3 : buf = (pre ++ hdr ++ body) ++ MThd ++ rest)
    by (unfold buf; rewrite <- !app_assoc; reflexivity).
  assert (Hlen : filesize buf = o + 14 + Z.of_nat (length body)
                                + 4 + Z.of_nat (length rest)).
  { unfold filesize. rewrite Eb2, !length_app. fold o.
    change (length hdr) with 14%nat. change (length MThd) with 4%nat. lia. }
  clearbody buf.
  assert (Hh : strncmp_eq buf o MThd = Done true)
    by (rewrite Eb; apply strncmp_eq_at).
  assert (Hnext : strncmp_eq buf (o + 14 + Z.of_nat (length body)) MThd
                  = Done true).
  { rewrite Eb3.
    replace (o + 14 + Z.of_nat (length body))
      with (Z.of_nat (length (pre ++ hdr ++ body))).
    - apply strncmp_eq_at.
    - rewrite !length_app. change (length hdr) with 14%nat. unfold o. lia. }
  split; [|exact Hnext].
  set (midi := parsed_header (coerce_type ty nt) nt dv).
  assert (Hm : extract_mthd buf o = Done (Some midi)).
  { rewrite Eb. unfold o. rewrite extract_mthd_at by (assumption || lia).
    reflexivity. }
  assert (Hloop :
    smart_loop g (sx_fuel midi) buf (o + 14)
               (u64 (filesize buf - (o + 14))) 32768 (sx_init midi)
    = Done {| sx_i := Z.of_nat (length body);
              sx_curtrack := Z.of_nat (length payloads);
              sx_midi := set_truncated
                           (with_tracks midi (map intact payloads))
                           (Z.of_nat (length payloads)) |}).
  { rewrite (smart_loop_chunks_collision g buf (o + 14) _ _ payloads
               (pre ++ hdr) rest);
      cbn [sx_init sx_i sx_curtrack sx_midi midi parsed_header numtracks].
    - reflexivity.
    - exact Eb2.
    - rewrite length_app. change (length hdr) with 14%nat. unfold o. lia.
    - exact Hterm.
    - apply small_chunks_fit. exact Hsmall.
    - lia.
    - lia.
    - lia.
    - unfold sx_fuel. simpl numtracks. lia. }
  rewrite (scan_step_header _ _ _ _ Hh). unfold header_branch.
  rewrite Hm. cbn [bind].
  rewrite (smart_extract_eq _ _ _ _ _ _ _ _ _ Hloop).
  cbn [sx_midi sx_i].
  change (classify (set_truncated (with_tracks midi (map intact payloads))
                                  (Z.of_nat (length payloads))))
    with BAD.
  rewrite (write_midi_intact can_open _ payloads); try assumption;
    try reflexivity.
  - cbn [bind fst snd files_of wr_file].
    unfold u32. rewrite Z.mod_small by lia.
    f_equal.
  - intros ->. simpl in Hk. lia.
Qed.

Lemma header_cut_short_by_next_header_witness :
  scan_step always_open dirty
    ([x00] ++ (MThd ++ be32 6 ++ be16 0 ++ be16 3 ++ be16 96)
          ++ concat (map chunk [[xff; x2f; x00]]) ++ MThd ++ [x01])
    1
  = Done (26,
          [ {| f_name := {| fn_offset := 1; fn_status := BAD |};
               f_bytes := midi_file 1 96 [[xff; x2f; x00]] |} ]).
Proof.
  assert (Hterm : Forall terminated [[xff; x2f; x00]]).
  { apply Forall_cons; [|apply Forall_nil]. right. exists []. reflexivity. }
  assert (Hsmall : Forall (fun p => Z.of_nat (length p) < 1677216)
                     [[xff; x2f; x00]]).
  { apply Forall_cons; [simpl; lia|apply Forall_nil]. }
  exact (proj1 (header_cut_short_by_next_header
                  always_open dirty [x00] [x01] 0 3 96 [[xff; x2f; x00]]
                  ltac:(lia) ltac:(lia) ltac:(simpl; lia) ltac:(lia)
                  Hterm Hsmall ltac:(vm_compute; reflexivity) eq_refl)).
Defined.

(** The orchestrator with the generated header over a run of well-formed
    chunks followed by a header tag, when the pre-scan counted at least as
    many track tags as there are chunks. *)
Lemma smart_loop_orphan_run (g : Z -> bool) (buf : buffer) (eof maxd c : Z)
    (pre rest : list byte) (payloads : list (list byte)) :
  let midi := {| miditype := 1; numtracks := c; timecode := 120;
                 is_damaged := true; is_generated := true;
                 track0 := [] |} in
  buf = pre ++ concat (map chunk payloads) ++ MThd ++ rest ->
  payloads <> [] ->
  Forall terminated payloads ->
  Forall (fun p => Z.of_nat (length p) + 8 < 4294967296) payloads ->
  Z.of_nat (length payloads) <= c < 65536 ->
  smart_loop g (sx_fuel midi) buf (Z.of_nat (length pre)) eof maxd
             (sx_init midi)
  = Done {| sx_i := Z.of_nat (length (concat (map chunk payloads)));
            sx_curtrack := Z.of_nat (length payloads);
            sx_midi := {| miditype := 1;
                          numtracks := Z.of_nat (length payloads);
                          timecode := 120;
                          is_damaged := true; is_generated := true;
                          track0 := map intact payloads |} |}.
Proof.
  intros midi Hbuf Hne Hterm Hlen Hc.
  destruct (Z.eq_dec (Z.of_nat (length payloads)) c) as [E|E].
  - subst c.
    rewrite (smart_loop_chunks g buf _ _ _ payloads pre (MThd ++ rest));
      cbn [sx_init sx_i sx_curtrack sx_midi midi numtracks];
      try assumption; try lia.
    + unfold with_tracks. cbn [miditype numtracks timecode is_damaged
                               is_generated track0 app].
      rewrite Z.add_0_l. reflexivity.
    + unfold sx_fuel. simpl numtracks. lia.
  - rewrite (smart_loop_chunks_collision g buf _ _ _ payloads pre rest);
      cbn [sx_init sx_i sx_curtrack sx_midi midi numtracks];
      try assumption; try lia.
    + unfold with_tracks, set_truncated.
      cbn [miditype numtracks timecode is_damaged is_generated track0 app].
      rewrite !Z.add_0_l. reflexivity.
    + unfold sx_fuel. simpl numtracks. lia.
Qed.

(** X16.  Track chunks without a header: k >= 1 well-formed chunks (each
    shorter than 1677216 bytes) followed by the header tag of the next
    structure, where the pre-scan counts at least k track tags before that
    header.  The scanner writes, under the status ORPH and the offset of
    the first chunk, a MIDI file with a generated header (format 1,
    division 120, count k) holding exactly these chunks unchanged, and
    resumes the scan at the header tag. *)
Theorem orphan_run_gets_generated_header
    (can_open : filename -> bool) (g : Z -> bool) (pre rest : list byte)
    (payloads : list (list byte)) (c : Z) :
  let body := concat (map chunk payloads) in
  let buf := pre ++ body ++ MThd ++ rest in
  let o := Z.of_nat (length pre) in
  payloads <> [] ->
  Forall terminated payloads ->
  Forall (fun p => Z.of_nat (length p) < 1677216) payloads ->
  filesize buf < 4294967296 ->
  count_mtrk buf (Z.to_nat (filesize buf - 3 - o)) o 0 = Done c ->
  Z.of_nat (length payloads) <= c ->
  can_open {| fn_offset := o; fn_status := ORPH |} = true ->
  scan_step can_open g buf o
  = Done (o + Z.of_nat (length body),
          [ {| f_name := {| fn_offset := o; fn_status := ORPH |};
               f_bytes := midi_file 1 120 payloads |} ]) /\
  strncmp_eq buf (o + Z.of_nat (length body)) MThd = Done true.
Proof.
  intros body buf o Hne Hterm Hsmall Hfs Hcnt Hk Hopen.
  assert (Hlen : filesize buf = o + Z.of_nat (length body)
                                + 4 + Z.of_nat (length rest)).
  { unfold filesize, buf. rewrite !length_app. fold o.
    change (length MThd) with 4%nat. lia. }
  assert (Hc : 0 <= c < 65536)
    by (eapply count_mtrk_range; [exact Hcnt|lia]).
  assert (Hnext : strncmp_eq buf (o + Z.of_nat (length body)) MThd
                  = Done true).
  { unfold buf. rewrite app_assoc.
    replace (o + Z.of_nat (length body))
      with (Z.of_nat (length (pre ++ body)))
      by (rewrite length_app; unfold o; lia).
    apply strncmp_eq_at. }
  split; [|exact Hnext].
  assert (Ht : strncmp_eq buf o MTrk = Done true).
  { unfold buf, body. destruct payloads as [|p ps]; [congruence|].
    cbn [map concat]. rewrite <- !app_assoc. apply chunk_tag. }
  pose proof (smart_loop_orphan_run g buf (u64 (filesize buf - o)) 32768 c
                pre rest payloads eq_refl Hne Hterm
                (small_chunks_fit _ Hsmall) ltac:(lia)) as Hloop.
  cbv zeta in Hloop. fold o in Hloop. fold body in Hloop.
  clearbody buf.
  unfold scan_step. rewrite Ht. cbn [bind]. unfold orphan_branch.
  rewrite Hcnt. cbn [bind].
  rewrite (smart_extract_eq _ _ _ _ _ _ _ _ _ Hloop).
  cbn [sx_midi sx_i].
  change (classify _) with ORPH.
  rewrite (write_midi_intact can_open _ payloads); try assumption;
    try reflexivity.
  cbn [bind fst snd files_of wr_file].
  unfold u32. rewrite Z.mod_small by lia.
  reflexivity.
Qed.

Lemma orphan_run_gets_generated_header_witness :
  scan_step always_open dirty
    ([x00] ++ concat (map chunk [[xff; x2f; x00]; end_of_track])
          ++ MThd ++ [x01])
    1
  = Done (24,
          [ {| f_name := {| fn_offset := 1; fn_status := ORPH |};
               f_bytes := midi_file 1 120 [[xff; x2f; x00]; end_of_track]
            |} ]).
Proof.
  assert (Hterm : Forall terminated [[xff; x2f; x00]; end_of_track]).
  { apply Forall_cons; [|apply Forall_cons; [|apply Forall_nil]].
    - right. exists []. reflexivity.
    - left. exists []. reflexivity. }
  assert (Hsmall : Forall (fun p => Z.of_nat (length p) < 1677216)
                     [[xff; x2f; x00]; end_of_track]).
  { apply Forall_cons; [|apply Forall_cons; [|apply Forall_nil]];
      simpl; lia. }
  exact (proj1 (orphan_run_gets_generated_header
                  always_open dirty [x00] [x01]
                  [[xff; x2f; x00]; end_of_track] 2
                  ltac:(discriminate) Hterm Hsmall
                  ltac:(vm_compute; reflexivity)
                  ltac:(vm_compute; reflexivity) ltac:(simpl; lia)
                  eq_refl)).
Defined.

(** The orchestrator over a run of well-formed chunks that does not reach
    the declared count: one pass per chunk, and the loop goes on behind
    the run. *)
Lemma smart_loop_chunks_prefix (g : Z -> bool) (buf : buffer)
    (base eof maxd : Z) :
  forall (rem : list (list byte)) (l1 l2 : list byte) (fuel : nat)
         (st : sx_state),
    buf = l1 ++ concat (map chunk rem) ++ l2 ->
    base + sx_i st = Z.of_nat (length l1) ->
    Forall terminated rem ->
    Forall (fun p => Z.of_nat (length p) + 8 < 4294967296) rem ->
    0 <= sx_curtrack st ->
    sx_curtrack st + Z.of_nat (length rem) < numtracks (sx_midi st) ->
    numtracks (sx_midi st) < 65536 ->
    smart_loop g (length rem + fuel) buf base eof maxd st
    = smart_loop g fuel buf base eof maxd
        {| sx_i := sx_i st + Z.of_nat (length (concat (map chunk rem)));
           sx_curtrack := sx_curtrack st + Z.of_nat (length rem);
           sx_midi := with_tracks (sx_midi st) (map intact rem) |}.
Proof.
  induction rem as [|p rem IH];
    intros l1 l2 fuel st Hbuf Hpos Hterm Hlen Hc Hn Hnt.
  - cbn [map concat length Z.of_nat Nat.add]. rewrite !Z.add_0_r.
    unfold with_tracks. rewrite app_nil_r.
    destruct st as [i c [ty nt dv dm gn ts]]. reflexivity.
  - inversion Hterm as [|? ? Hp Hterm']. inversion Hlen as [|? ? Hlp Hlen'].
    clear Hterm Hlen. subst x x0 l l0.
    set (post := concat (map chunk rem) ++ l2).
    assert (Hbuf' : buf = l1 ++ chunk p ++ post).
    { rewrite Hbuf. cbn [map concat]. unfold post.
      rewrite <- !app_assoc. reflexivity. }
    assert (Ht : strncmp_eq buf (base + sx_i st) MTrk = Done true)
      by (rewrite Hbuf', Hpos; apply chunk_tag).
    assert (He : extract_mtrk buf (base + sx_i st) = Done (Some (intact p)))
      by (rewrite Hbuf', Hpos; apply chunk_extract_intact; assumption).
    change (length (p :: rem) + fuel)%nat with (S (length rem + fuel)).
    rewrite smart_loop_S.
    rewrite (smart_body_track _ _ _ _ _ _ _ Ht He). cbn [bind fst snd].
    rewrite mtrk_advance_intact by lia.
    simpl length in Hn.
    assert (Hu : u16 (sx_curtrack st + 1) = sx_curtrack st + 1)
      by (unfold u16; apply Z.mod_small; lia).
    rewrite Hu.
    replace (numtracks (sx_midi st) <=? sx_curtrack st + 1) with false
      by (symmetry; apply Z.leb_gt; lia).
    cbn [negb].
    rewrite (IH (l1 ++ chunk p) l2); cbn [sx_i sx_curtrack sx_midi].
    + rewrite with_tracks_add. cbn [map concat length].
      rewrite (length_app (chunk p)), !Nat2Z.inj_add, chunk_length.
      f_equal. f_equal; lia.
    + rewrite Hbuf'. unfold post. rewrite <- !app_assoc. reflexivity.
    + rewrite length_app, Nat2Z.inj_add, chunk_length. lia.
    + assumption.
    + assumption.
    + lia.
    + simpl numtracks. lia.
    + exact Hnt.
Qed.

Lemma smart_body_resync (g : Z -> bool) (buf : buffer) (base eof maxd : Z)
    (st : sx_state) (j : Z) :
  strncmp_eq buf (base + sx_i st) MThd = Done false ->
  strncmp_eq buf (base + sx_i st) MTrk = Done false ->
  recovery_search buf (base + sx_i st)
    (Z.to_nat (Z.min eof maxd - 1)) 1 = Done (Some j) ->
  smart_body g buf base eof maxd st
  = Done (true, {| sx_i := sx_i st + j; sx_curtrack := sx_curtrack st;
                   sx_midi := set_damaged (sx_midi st) |}).
Proof.
  intros Hh Ht Hr. unfold smart_body. rewrite Hh. cbn [bind].
  rewrite Ht. cbn [bind negb]. rewrite Hr. reflexivity.
Qed.

(** X17.  Junk between the tracks of a file: behind a header declaring nt
    tracks lie some well-formed chunks, then between 1 and 32767 bytes at
    which no chunk tag starts, then the remaining well-formed chunks (at
    least one; all chunks shorter than 1677216 bytes).  The scanner finds
    the next track tag behind the junk, writes under the status BAD a MIDI
    file that holds all nt chunks unchanged and none of the junk, and
    resumes the scan behind the last chunk. *)
Theorem junk_between_tracks_is_dropped
    (can_open : filename -> bool) (g : Z -> bool)
    (pre junk post : list byte) (ty nt dv : Z)
    (before after : list (list byte)) :
  let body1 := concat (map chunk before) in
  let body2 := concat (map chunk after) in
  let buf := pre ++ (MThd ++ be32 6 ++ be16 ty ++ be16 nt ++ be16 dv)
                 ++ body1 ++ junk ++ body2 ++ post in
  let o := Z.of_nat (length pre) in
  let a := o + 14 + Z.of_nat (length body1) in
  0 <= ty < 65536 -> 0 <= dv < 65536 ->
  Z.of_nat (length before) + Z.of_nat (length after) = nt -> nt < 65536 ->
  after <> [] ->
  0 < Z.of_nat (length junk) < 32768 ->
  (forall q, a <= q < a + Z.of_nat (length junk) ->
     strncmp_eq buf q MThd = Done false /\
     strncmp_eq buf q MTrk = Done false) ->
  Forall terminated (before ++ after) ->
  Forall (fun p => Z.of_nat (length p) < 1677216) (before ++ after) ->
  filesize buf < 4294967296 ->
  can_open {| fn_offset := o; fn_status := BAD |} = true ->
  scan_step can_open g buf o
  = Done (a + Z.of_nat (length junk) + Z.of_nat (length body2),
          [ {| f_name := {| fn_offset := o; fn_status := BAD |};
               f_bytes := midi_file (coerce_type ty nt) dv
                                    (before ++ after) |} ]).
Proof.
  intros body1 body2 buf o a Hty Hdv Hcount Hnt Hafter Hjunk Hfree
         Hterm Hsmall Hfs Hopen.
  set (hdr := MThd ++ be32 6 ++ be16 ty ++ be16 nt ++ be16 dv) in *.
  apply Forall_app in Hterm. destruct Hterm as [Hterm1 Hterm2].
  pose proof Hsmall as Hsmall'.
  apply Forall_app in Hsmall'. destruct Hsmall' as [Hsmall1 Hsmall2].
  assert (Eb : buf = pre ++ MThd ++ be32 6 ++ be16 ty ++ be16 nt ++ be16 dv
                       ++ body1 ++ junk ++ body2 ++ post)
    by (unfold buf, hdr; rewrite <- !app_assoc; reflexivity).
  assert (Eb1 : buf = (pre ++ hdr) ++ body1 ++ junk ++ body2 ++ post)
    by (unfold buf; rewrite <- !app_assoc; reflexivity).
  assert (Eb2 : buf = (pre ++ hdr ++ body1 ++ junk) ++ body2 ++ post)
    by (unfold buf; rewrite <- !app_assoc; reflexivity).
  assert (Hl2 : Z.of_nat (length (pre ++ hdr ++ body1 ++ junk))
                = a + Z.of_nat (length junk)).
  { rewrite !length_app. change (length hdr) with 14%nat.
    unfold a, o. lia. }
  assert (Hb2 : 8 <= Z.of_nat (length body2)).
  { unfold body2. destruct after as [|p ps]; [congruence|].
    cbn [map concat]. rewrite length_app, Nat2Z.inj_add.
    pose proof (chunk_length p). lia. }
  assert (Hlen : filesize buf
                 = a + Z.of_nat (length junk) + Z.of_nat (length body2)
                   + Z.of_nat (length post)).
  { unfold filesize. rewrite Eb2, length_app, Nat2Z.inj_add, Hl2.
    rewrite length_app. lia. }
  clearbody buf.
  assert (Hh : strncmp_eq buf o MThd = Done true)
    by (rewrite Eb; apply strncmp_eq_at).
  set (midi := parsed_header (coerce_type ty nt) nt dv).
  assert (Hm : extract_mthd buf o = Done (Some midi)).
  { rewrite Eb. unfold o. rewrite extract_mthd_at by (assumption || lia).
    reflexivity. }
  (* the track tag behind the junk *)
  assert (Htag : strncmp_eq buf (a + Z.of_nat (length junk)) MTrk
                 = Done true).
  { rewrite Eb2, <- Hl2. generalize (pre ++ hdr ++ body1 ++ junk).
    intros l1. unfold body2.
    destruct after as [|p ps]; [congruence|].
    cbn [map concat]. rewrite <- app_assoc. apply chunk_tag. }
  set (eof := u64 (filesize buf - (o + 14))).
  assert (Heof : eof = filesize buf - (o + 14)).
  { unfold eof, u64. apply Z.mod_small. unfold a in Hlen. lia. }
  assert (Hrec : recovery_search buf a
                   (Z.to_nat (Z.min eof 32768 - 1)) 1
                 = Done (Some (Z.of_nat (length junk)))).
  { apply (recovery_search_found buf a _ Htag
             (Z.to_nat (Z.of_nat (length junk) - 1))).
    - lia.
    - rewrite Heof. unfold a in Hlen. lia.
    - intros k Hk. apply Hfree. lia. }
  destruct (Hfree a ltac:(lia)) as [Hh0 Ht0].
  set (st1 := {| sx_i := Z.of_nat (length body1);
                 sx_curtrack := Z.of_nat (length before);
                 sx_midi := with_tracks midi (map intact before) |}).
  assert (Hbody : smart_body g buf (o + 14) eof 32768 st1
                  = Done (true,
                          {| sx_i := Z.of_nat (length body1)
                                     + Z.of_nat (length junk);
                             sx_curtrack := Z.of_nat (length before);
                             sx_midi := set_damaged (sx_midi st1) |})).
  { apply (smart_body_resync g buf (o + 14) eof 32768 st1);
      cbn [st1 sx_i]; fold a; assumption. }
  assert (Hfuel : sx_fuel midi
                  = (length before
                     + S (length after
                          + S (length before + length after)))%nat).
  { unfold sx_fuel. simpl numtracks. lia. }
  assert (Hloop :
    smart_loop g (sx_fuel midi) buf (o + 14) eof 32768 (sx_init midi)
    = Done {| sx_i := Z.of_nat (length body1) + Z.of_nat (length junk)
                      + Z.of_nat (length body2);
              sx_curtrack := nt;
              sx_midi := with_tracks (set_damaged (sx_midi st1))
                                     (map intact after) |}).
  { rewrite Hfuel.
    rewrite (smart_loop_chunks_prefix g buf (o + 14) _ _ before
               (pre ++ hdr) (junk ++ body2 ++ post));
      cbn [sx_init sx_i sx_curtrack sx_midi midi parsed_header numtracks];
      [ | exact Eb1
        | rewrite length_app; change (length hdr) with 14%nat; unfold o; lia
        | exact Hterm1
        | apply small_chunks_fit; exact Hsmall1
        | lia
        | destruct after; [congruence|simpl length in *; lia]
        | lia ].
    match goal with
    | |- smart_loop g _ _ _ _ _ ?s = _ => change s with st1
    end.
    rewrite smart_loop_S, Hbody. cbn [bind fst snd].
    rewrite (smart_loop_chunks g buf (o + 14) _ _ after
               (pre ++ hdr ++ body1 ++ junk) post);
      cbn [sx_i sx_curtrack sx_midi st1 set_damaged with_tracks midi
           parsed_header numtracks];
      [ reflexivity
      | exact Eb2
      | rewrite Hl2; unfold a; lia
      | exact Hafter
      | exact Hterm2
      | apply small_chunks_fit; exact Hsmall2
      | lia
      | lia
      | lia
      | lia ]. }
  rewrite (scan_step_header _ _ _ _ Hh). unfold header_branch.
  rewrite Hm. cbn [bind].
  rewrite (smart_extract_eq _ _ _ _ _ _ _ _ _ Hloop).
  cbn [sx_midi sx_i].
  change (classify (with_tracks (set_damaged (sx_midi st1))
                                (map intact after)))
    with BAD.
  rewrite (write_midi_intact can_open _ (before ++ after));
    try assumption.
  - cbn [bind fst snd files_of wr_file].
    unfold u32. rewrite Z.mod_small by (unfold a in Hlen; lia).
    f_equal. f_equal. unfold a. lia.
  - cbn. rewrite map_app. reflexivity.
  - cbn. rewrite length_app. lia.
  - destruct before; [exact Hafter|discriminate].
Qed.

Lemma junk_between_tracks_is_dropped_witness :
  scan_step always_open dirty
    ([x00] ++ (MThd ++ be32 6 ++ be16 1 ++ be16 2 ++ be16 96)
          ++ concat (map chunk [[xff; x2f; x00]])
          ++ [x4d; x54; x00]
          ++ concat (map chunk [end_of_track]) ++ [x01])
    1
  = Done (41,
          [ {| f_name := {| fn_offset := 1; fn_status := BAD |};
               f_bytes := midi_file 1 96 [[xff; x2f; x00]; end_of_track]
            |} ]).
Proof.
  assert (Hterm : Forall terminated ([[xff; x2f; x00]] ++ [end_of_track])).
  { apply Forall_cons; [|apply Forall_cons; [|apply Forall_nil]].
    - right. exists []. reflexivity.
    - left. exists []. reflexivity. }
  assert (Hsmall : Forall (fun p => Z.of_nat (length p) < 1677216)
                     ([[xff; x2f; x00]] ++ [end_of_track])).
  { apply Forall_cons; [|apply Forall_cons; [|apply Forall_nil]];
      simpl; lia. }
  refine (junk_between_tracks_is_dropped
            always_open dirty [x00] [x4d; x54; x00] [x01] 1 2 96
            [[xff; x2f; x00]] [end_of_track]
            ltac:(lia) ltac:(lia) ltac:(simpl; lia) ltac:(lia)
            ltac:(discriminate) ltac:(simpl; lia) _
            Hterm Hsmall ltac:(vm_compute; reflexivity) eq_refl).
  intros q Hq. simpl in Hq.
  assert (E : q = 26 \/ q = 27 \/ q = 28) by lia.
  destruct E as [->|[->| ->]]; split; vm_compute; reflexivity.
Defined.

(** * The parsers' NULL results are never used *)

Lemma bind_no_null {A B} (m : outcome A) (k : A -> outcome B) :
  m <> Crash NullDeref ->
  (forall a, m = Done a -> k a <> Crash NullDeref) ->
  bind m k <> Crash NullDeref.
Proof.
  intros Hm Hk. destruct m; simpl; [apply Hk; reflexivity| |discriminate].
  intros E. apply Hm. inversion E. reflexivity.
Qed.

Ltac null_step :=
  match goal with
  | |- bind _ _ <> Crash NullDeref => apply bind_no_null; [|intros ? ?]
  | |- Done _ <> Crash NullDeref => discriminate
  | |- Timeout <> Crash NullDeref => discriminate
  | |- Crash (OutOfBounds _) <> Crash NullDeref => discriminate
  | |- Crash UninitRead <> Crash NullDeref => discriminate
  | |- Crash HeapOverread <> Crash NullDeref => discriminate
  | |- (if ?c then _ else _) <> Crash NullDeref => destruct c
  | |- (let '(_, _) := ?x in _) <> Crash NullDeref => destruct x
  | |- (match ?x with Some _ => _ | None => _ end) <> Crash NullDeref =>
      destruct x
  end.

Create HintDb nonull.

Ltac no_null := repeat null_step; auto with nonull.

Lemma rd_no_null (buf : buffer) (p : Z) : rd buf p <> Crash NullDeref.
Proof. unfold rd. no_null. Qed.

Lemma rd_n_no_null (buf : buffer) (p n : Z) :
  rd_n buf p n <> Crash NullDeref.
Proof. unfold rd_n. no_null. Qed.

#[local] Hint Resolve rd_no_null rd_n_no_null : nonull.

Lemma strncmp_eq_no_null (buf : buffer) (p : Z) (tag : list byte) :
  strncmp_eq buf p tag <> Crash NullDeref.
Proof.
  revert p. induction tag as [|c tag IH]; intros p; simpl; no_null.
Qed.

#[local] Hint Resolve strncmp_eq_no_null : nonull.

Lemma memcmp_eq_no_null (buf : buffer) (p : Z) (pat : list byte) :
  memcmp_eq buf p pat <> Crash NullDeref.
Proof. unfold memcmp_eq. no_null. Qed.

Lemma declared_size_no_null (buf : buffer) (p : Z) :
  declared_size buf p <> Crash NullDeref.
Proof. unfold declared_size. no_null. Qed.

Lemma backtrack_no_null (buf : buffer) (p : Z) (n : nat) (ptr : Z) :
  backtrack buf p n ptr <> Crash NullDeref.
Proof.
  revert ptr. induction n as [|n IH]; intros ptr; cbn [backtrack]; no_null.
Qed.

#[local] Hint Resolve memcmp_eq_no_null declared_size_no_null
  backtrack_no_null : nonull.

Lemma extract_mtrk_no_null (buf : buffer) (p : Z) :
  extract_mtrk buf p <> Crash NullDeref.
Proof. unfold extract_mtrk. no_null. Qed.

(** [extract_mtrk] returns NULL only when the track tag is not there. *)
Lemma extract_mtrk_None (buf : buffer) (p : Z) :
  extract_mtrk buf p = Done None -> strncmp_eq buf p MTrk = Done false.
Proof.
  unfold extract_mtrk. intros H.
  apply bind_Done in H. destruct H as (t & Ht & H).
  destruct t; [|exact Ht]. cbn [negb] in H. exfalso.
  apply bind_Done in H. destruct H as (sz & _ & H).
  apply bind_Done in H. destruct H as (e4 & _ & H).
  destruct e4.
  - apply bind_Done in H. destruct H as (d & _ & H). discriminate.
  - apply bind_Done in H. destruct H as (e3 & _ & H). destruct e3.
    + apply bind_Done in H. destruct H as (d & _ & H). discriminate.
    + apply bind_Done in H. destruct H as ([found ptr] & _ & H).
      destruct found.
      * apply bind_Done in H. destruct H as (d & _ & H). discriminate.
      * destruct (ptr =? 8); [|discriminate].
        apply bind_Done in H. destruct H as (d & _ & H). discriminate.
Qed.

Lemma extract_mthd_no_null (buf : buffer) (p : Z) :
  extract_mthd buf p <> Crash NullDeref.
Proof. unfold extract_mthd. no_null. Qed.

(** [extract_mthd] returns NULL only when the header tag is not there. *)
Lemma extract_mthd_None (buf : buffer) (p : Z) :
  extract_mthd buf p = Done None -> strncmp_eq buf p MThd = Done false.
Proof.
  unfold extract_mthd. intros H.
  apply bind_Done in H. destruct H as (t & Ht & H).
  destruct t; [|exact Ht]. cbn [negb] in H. exfalso.
  repeat (apply bind_Done in H; destruct H as (? & _ & H)).
  discriminate.
Qed.

Lemma recovery_search_no_null (buf : buffer) (pos : Z) (n : nat) (j : Z) :
  recovery_search buf pos n j <> Crash NullDeref.
Proof.
  revert j. induction n as [|n IH]; intros j; cbn [recovery_search]; no_null.
Qed.

#[local] Hint Resolve extract_mtrk_no_null extract_mthd_no_null
  recovery_search_no_null : nonull.

Lemma smart_body_no_null (g : Z -> bool) (buf : buffer)
    (base eof maxd : Z) (st : sx_state) :
  smart_body g buf base eof maxd st <> Crash NullDeref.
Proof.
  unfold smart_body.
  apply bind_no_null; [auto with nonull|]. intros h _.
  destruct h; [discriminate|].
  apply bind_no_null; [auto with nonull|]. intros t Ht.
  destruct t; cbn [negb].
  - apply bind_no_null; [auto with nonull|]. intros o Ho.
    destruct o as [t|].
    + no_null.
    + apply extract_mtrk_None in Ho. congruence.
  - no_null.
Qed.

Lemma smart_loop_no_null (g : Z -> bool) (buf : buffer)
    (base eof maxd : Z) :
  forall (fuel : nat) (st : sx_state),
    smart_loop g fuel buf base eof maxd st <> Crash NullDeref.
Proof.
  induction fuel as [|fuel IH]; intros st; cbn [smart_loop];
    [discriminate|].
  apply bind_no_null; [apply smart_body_no_null|].
  intros [c st'] _. destruct c; [apply IH|discriminate].
Qed.

Lemma write_mtrk_no_null (tracks : list mtrk) :
  write_mtrk tracks <> Crash NullDeref.
Proof.
  induction tracks as [|t next IH]; cbn [write_mtrk]; [discriminate|].
  destruct (data t); [|discriminate].
  destruct (_ <? _); [discriminate|]. no_null.
Qed.

#[local] Hint Resolve smart_loop_no_null write_mtrk_no_null : nonull.

Lemma write_midi_no_null (can_open : filename -> bool) (midi : mthd)
    (name : filename) :
  write_midi can_open midi name <> Crash NullDeref.
Proof.
  unfold write_midi. destruct (track0 midi); [discriminate|]. no_null.
Qed.

Lemma count_mtrk_no_null (buf : buffer) (n : nat) (j cnt : Z) :
  count_mtrk buf n j cnt <> Crash NullDeref.
Proof.
  revert j cnt. induction n as [|n IH]; intros j cnt; cbn [count_mtrk];
    no_null.
Qed.

#[local] Hint Resolve write_midi_no_null count_mtrk_no_null : nonull.

Lemma smart_extract_no_null (can_open : filename -> bool) (g : Z -> bool)
    (midi : mthd)
    (buf : buffer) (base eof maxd off : Z) :
  smart_extract can_open g midi buf base eof maxd off <> Crash NullDeref.
Proof. unfold smart_extract. no_null. Qed.

Lemma scan_step_no_null (can_open : filename -> bool) (g : Z -> bool)
    (buf : buffer)
    (i : Z) :
  scan_step can_open g buf i <> Crash NullDeref.
Proof.
  unfold scan_step.
  apply bind_no_null; [auto with nonull|]. intros t _. destruct t.
  - unfold orphan_branch.
    apply bind_no_null; [auto with nonull|]. intros cnt _.
    apply bind_no_null; [apply smart_extract_no_null|]. discriminate.
  - apply bind_no_null; [auto with nonull|]. intros h Hh.
    destruct h; [|discriminate].
    unfold header_branch.
    apply bind_no_null; [auto with nonull|]. intros o Ho.
    destruct o as [midi|].
    + apply bind_no_null; [apply smart_extract_no_null|]. discriminate.
    + apply extract_mthd_None in Ho. congruence.
Qed.

(** X19.  Both parsers return NULL when the tag they expect is not at the
    given position, and no caller checks for it.  The scanner never uses
    such a NULL: whatever the buffer holds, no run of the scanning loop
    ends in a null dereference, since each parser is called only where its
    tag has just been matched. *)
Theorem scanner_never_uses_null_result
    (can_open : filename -> bool) (heap : nat -> Z -> bool) (buf : buffer)
    (fuel : nat) (i : Z) :
  snd (main_loop can_open heap fuel buf i) <> Crashed NullDeref /\
  (extract_mthd buf i = Done None <->
   strncmp_eq buf i MThd = Done false) /\
  (extract_mtrk buf i = Done None <->
   strncmp_eq buf i MTrk = Done false).
Proof.
  split; [|split].
  - revert i. induction fuel as [|fuel IH]; intros i; cbn [main_loop].
    + destruct (i <? filesize buf); discriminate.
    + destruct (i <? filesize buf); [|discriminate].
      pose proof (scan_step_no_null can_open (heap fuel) buf i) as Hn.
      destruct (scan_step can_open (heap fuel) buf i) as [[i' fs]|f|].
      * specialize (IH i'). destruct (main_loop can_open heap fuel buf i').
        exact IH.
      * cbn [snd]. congruence.
      * discriminate.
  - split; [apply extract_mthd_None|].
    intros H. unfold extract_mthd. rewrite H. reflexivity.
  - split; [apply extract_mtrk_None|].
    intros H. unfold extract_mtrk. rewrite H. reflexivity.
Qed.
